(** * Hotchkiss content pipeline: extraction, chunking, embedding, storage

    A shallow embedding of the Python scripts [crawl_hotchkiss.py],
    [generate_embeddings.py] and [embed_to_supabase.py], and the properties
    their specification states about them.

    Conventions.
    - A Python [str] is a [string]; every [ascii] stands for one code point
      below 256 (so the texts covered are the Latin-1 ones).
    - External collaborators (the tokenizer, the HTML parser, the embedding
      service, the Postgres table behind Supabase) are arguments of the
      functions that call them; effects are threaded explicitly.
    - The first part holds the definitions, module by source file; the
      second part holds the lemmas and theorems. *)

From Stdlib Require Import Floats Ascii ZArith.
From stdpp Require Import gmap strings list fin_maps.

Set Warnings "-register-all".

(* ===================================================================== *)
(** * Part I. Definitions                                                 *)
(* ===================================================================== *)

(** ** Python built-ins used by the scripts *)
Module Py.

(** [str.isspace] on one code point; also the class [\s] of [re] on [str]
    patterns. Below 256 the whitespace code points are TAB..CR, FS..US,
    SPACE, NEL (0x85) and NBSP (0xA0). *)
Definition isspace (c : ascii) : bool :=
  let n := N_of_ascii c in
  ((9 <=? n) && (n <=? 13) || (28 <=? n) && (n <=? 32)
   || (n =? 133) || (n =? 160))%N.

Definition is_newline (c : ascii) : bool := (N_of_ascii c =? 10)%N.
Definition is_cr (c : ascii) : bool := (N_of_ascii c =? 13)%N.

(** Truthiness of a [str] and of a [list]: non-empty. *)
Definition truthy_str (s : string) : bool :=
  match s with EmptyString => false | String _ _ => true end.

Definition truthy_list {A} (l : list A) : bool :=
  match l with [] => false | _ :: _ => true end.

(** [s.lstrip()], [s.rstrip()], [s.strip()] with no argument. *)
Fixpoint lstrip (s : string) : string :=
  match s with
  | EmptyString => EmptyString
  | String c s' => if isspace c then lstrip s' else s
  end.

Fixpoint rstrip (s : string) : string :=
  match s with
  | EmptyString => EmptyString
  | String c s' =>
      match rstrip s' with
      | EmptyString => if isspace c then EmptyString else String c EmptyString
      | r => String c r
      end
  end.

Definition strip (s : string) : string := rstrip (lstrip s).

(** [s.replace('\r', '')]. *)
Fixpoint remove_cr (s : string) : string :=
  match s with
  | EmptyString => EmptyString
  | String c s' => if is_cr c then remove_cr s' else String c (remove_cr s')
  end.

(** [sep.join(parts)]. *)
Fixpoint join (sep : string) (parts : list string) : string :=
  match parts with
  | [] => EmptyString
  | [p] => p
  | p :: rest => p +:+ sep +:+ join sep rest
  end.

(** *** [re.split(r'\n\s*\n', text)]

    The pattern matches at a newline when the maximal whitespace run
    that follows it holds another newline; [\s*] is greedy, so the match
    ends with the last newline of that run. *)

(** The maximal whitespace prefix of [s], and what follows it. *)
Fixpoint span_space (s : string) : string * string :=
  match s with
  | EmptyString => (EmptyString, EmptyString)
  | String c s' =>
      if isspace c
      then let '(w, r) := span_space s' in (String c w, r)
      else (EmptyString, s)
  end.

(** What follows the last newline of [w], when [w] has one. *)
Fixpoint after_last_newline (w : string) : option string :=
  match w with
  | EmptyString => None
  | String c w' =>
      match after_last_newline w' with
      | Some t => Some t
      | None => if is_newline c then Some w' else None
      end
  end.

(** A match of the pattern at the head of [s]: the text after the match. *)
Definition match_blank_line (s : string) : option string :=
  match s with
  | EmptyString => None
  | String c s' =>
      if is_newline c then
        let '(w, r) := span_space s' in
        match after_last_newline w with
        | Some t => Some (t +:+ r)
        | None => None
        end
      else None
  end.

(** The scan of [re.split]: [piece] is the text since the last match.
    Every step consumes at least one character, so [String.length s]
    steps are enough. *)
Fixpoint re_split_scan (fuel : nat) (piece s : string) : list string :=
  match fuel with
  | 0 => [piece +:+ s]
  | S fuel' =>
      match s with
      | EmptyString => [piece]
      | String c s' =>
          match match_blank_line s with
          | Some rest => piece :: re_split_scan fuel' EmptyString rest
          | None => re_split_scan fuel' (piece +:+ String c EmptyString) s'
          end
      end
  end.

Definition re_split_blank_lines (text : string) : list string :=
  re_split_scan (String.length text) EmptyString text.

(** [range(start, stop, step)] for a positive [step]; [stop - start]
    steps are enough. *)
Fixpoint range_scan (fuel start stop step : nat) : list nat :=
  match fuel with
  | 0 => []
  | S fuel' =>
      if start <? stop then start :: range_scan fuel' (start + step) stop step
      else []
  end.

Definition range (start stop step : nat) : list nat :=
  range_scan (stop - start) start stop step.

(** [s.split()] with no argument: the maximal runs of non-whitespace. *)
Fixpoint split_scan (word s : string) : list string :=
  match s with
  | EmptyString => if truthy_str word then [word] else []
  | String c s' =>
      if isspace c
      then (if truthy_str word then word :: split_scan EmptyString s'
            else split_scan EmptyString s')
      else split_scan (word +:+ String c EmptyString) s'
  end.

Definition split (s : string) : list string := split_scan EmptyString s.

(** [s * n]. *)
Fixpoint repeat_str (s : string) (n : nat) : string :=
  match n with
  | 0 => EmptyString
  | S n' => s +:+ repeat_str s n'
  end.

(** The slice [l[i:j]] for [0 <= i]. *)
Definition slice {A} (l : list A) (i j : nat) : list A :=
  take (j - i) (drop i l).

(** [s.startswith(prefix)]. *)
Fixpoint startswith (prefix s : string) : bool :=
  match prefix, s with
  | EmptyString, _ => true
  | String _ _, EmptyString => false
  | String a prefix', String b s' => Ascii.eqb a b && startswith prefix' s'
  end.

(** [sub in s]. *)
Fixpoint contains (sub s : string) : bool :=
  startswith sub s
  || match s with
     | EmptyString => false
     | String _ s' => contains sub s'
     end.

(** The line boundaries of [str.splitlines] below 256: LF, VT, FF, CR,
    FS, GS, RS and NEL. *)
Definition is_linebreak (c : ascii) : bool :=
  let n := N_of_ascii c in
  ((10 <=? n) && (n <=? 13) || (28 <=? n) && (n <=? 30) || (n =? 133))%N.

(** [s.splitlines()]: [line] is the text since the last boundary; a CR
    followed by LF is one boundary, and a text that ends with a boundary
    has no empty last line. *)
Fixpoint splitlines_scan (line s : string) : list string :=
  match s with
  | EmptyString => if truthy_str line then [line] else []
  | String c s' =>
      if is_linebreak c then
        line ::
          match s' with
          | String c' s'' =>
              if is_cr c && is_newline c' then splitlines_scan EmptyString s''
              else splitlines_scan EmptyString s'
          | EmptyString => splitlines_scan EmptyString s'
          end
      else splitlines_scan (line +:+ String c EmptyString) s'
  end.

Definition splitlines (s : string) : list string :=
  splitlines_scan EmptyString s.

End Py.

(** An embedding vector: a list of floats (1536 of them for the models
    the scripts use). *)
Abbreviation vec := (list float).

(** ** The [pages_chunks] table

    The table lives in Postgres behind Supabase; the scripts only hold its
    DDL and call [upsert], [select] and [delete] on it. Both DDLs declare
    [id SERIAL PRIMARY KEY] and [UNIQUE(url, chunk_idx)], so the table is a
    finite map from [(url, chunk_idx)] to the rest of the row; the serial
    [id] is never read by the scripts and is left out. *)
Module Store.

Record chunk_row := {
  url : string;
  chunk_idx : nat;
  content : string;
  tokens : option nat;   (* no such column in generate_embeddings.py *)
  embedding : vec
}.

Abbreviation table := (gmap (string * nat) chunk_row).

Definition row_key (r : chunk_row) : string * nat := (url r, chunk_idx r).

Definition put (t : table) (r : chunk_row) : table := <[row_key r := r]> t.

(** [upsert(rows, on_conflict='url, chunk_idx')]: one
    [INSERT ... ON CONFLICT (url, chunk_idx) DO UPDATE] statement. Postgres
    rejects the statement, and changes nothing, when two of its rows
    share the conflict key; [None] is that exception. *)
Definition upsert_on_key (rows : list chunk_row) (t : table) : option table :=
  if bool_decide (NoDup (row_key <$> rows))
  then Some (foldl put t rows)
  else None.

(** [upsert(rows)] with no [on_conflict]: the conflict target is the
    primary key [id], which the rows do not carry, so every row is
    inserted under a fresh [id] and [UNIQUE(url, chunk_idx)] rejects the
    whole statement when a key is already stored or occurs twice. *)
Definition upsert_on_id (rows : list chunk_row) (t : table) : option table :=
  if bool_decide (NoDup (row_key <$> rows)
                  ∧ Forall (λ r, t !! row_key r = None) rows)
  then Some (foldl put t rows)
  else None.

(** [select('id')] followed by [len]: the number of rows. *)
Definition count (t : table) : nat := size t.

End Store.

(** ** [generate_embeddings.py] *)
Module generate_embeddings.
Import Store.

Definition BATCH_SIZE : nat := 10.
Definition TARGET_TOKENS_PER_CHUNK : nat := 400.
Definition MAX_TOKENS_PER_CHUNK : nat := 500.

(** *** The paragraph-aggregating chunker *)
Section chunker.
(** [tokenizer.encode] of tiktoken's [cl100k_base]. *)
Variable tokenizer_encode : string → list nat.
(** The target and the maximum, 400 and 500 in the script. *)
Variables target_tokens max_tokens : nat.

(** The three locals of the loop. *)
Record chunker_state := {
  chunks : list string;
  current_chunk : list string;
  current_token_count : nat
}.

(** [chunks.append(" ".join(current_chunk)); current_chunk = [];
    current_token_count = 0]. *)
Definition flush (st : chunker_state) : chunker_state :=
  {| chunks := chunks st ++ [Py.join " " (current_chunk st)];
     current_chunk := [];
     current_token_count := 0 |}.

(** The body of [for paragraph in paragraphs]. *)
Definition add_paragraph (st : chunker_state) (paragraph : string)
  : chunker_state :=
  let paragraph_token_count := length (tokenizer_encode paragraph) in
  let st :=
    if (max_tokens <? current_token_count st + paragraph_token_count)
       && Py.truthy_list (current_chunk st)
    then flush st else st in
  let st :=
    {| chunks := chunks st;
       current_chunk := current_chunk st ++ [paragraph];
       current_token_count := current_token_count st + paragraph_token_count |} in
  if target_tokens <=? current_token_count st then flush st else st.

(** [re.split(r'\n\s*\n', text)], then
    [[p.strip() for p in paragraphs if p.strip()]]. *)
Definition paragraphs_of (text : string) : list string :=
  List.filter Py.truthy_str (Py.strip <$> Py.re_split_blank_lines text).

Definition aggregate (paragraphs : list string) : list string :=
  let st := foldl add_paragraph
              {| chunks := []; current_chunk := []; current_token_count := 0 |}
              paragraphs in
  if Py.truthy_list (current_chunk st)
  then chunks st ++ [Py.join " " (current_chunk st)]
  else chunks st.

Definition split_text_into_chunks_at (text : string) : list string :=
  if negb (Py.truthy_str text) || negb (Py.truthy_str (Py.strip text))
  then []
  else aggregate (paragraphs_of (Py.remove_cr text)).
End chunker.

Definition split_text_into_chunks (tokenizer_encode : string → list nat)
  : string → list string :=
  split_text_into_chunks_at tokenizer_encode
    TARGET_TOKENS_PER_CHUNK MAX_TOKENS_PER_CHUNK.

(** *** Embedding one chunk *)

(** What [client.embeddings.create(model=..., input=text)] does: it
    returns a response whose [data] holds the embeddings, or raises. *)
Inductive api_result :=
| Returned (data : list vec)
| Raised.

(** The OpenAI client: the outcome of its [n]-th call, on [text]. *)
Abbreviation client := (nat → string → api_result).

Definition zero_vector : vec := replicate 1536 0%float.

(** [response.data[0].embedding] inside [try]; [except Exception] also
    catches the [IndexError] of an empty [data]. *)
Definition generate_embedding (c : client) (n : nat) (text : string) : vec :=
  match c n text with
  | Returned (e :: _) => e
  | Returned [] => zero_vector
  | Raised => zero_vector
  end.

(** A row of the [pages] table as [fetch_pages] returns it; [markdown]
    is [None] for a NULL column. *)
Record page := { page_url : string; markdown : option string }.

(** [process_page]; the state is the number of calls made to the client
    so far. *)
Definition process_page (tokenizer_encode : string → list nat) (c : client)
    (pg : page) (calls : nat) : list chunk_row * nat :=
  match markdown pg with
  | None => ([], calls)
  | Some md =>
      if negb (Py.truthy_str md) || negb (Py.truthy_str (Py.strip md))
      then ([], calls)
      else
        let chunks := split_text_into_chunks tokenizer_encode md in
        (imap (λ i chunk,
                 {| url := page_url pg; chunk_idx := i; content := chunk;
                    tokens := None;
                    embedding := generate_embedding c (calls + i) chunk |})
              chunks,
         calls + length chunks)
  end.

(** The dictionary [upsert_chunks] returns. *)
Record counts := { success : nat; error : nat }.

(** [upsert_chunks]: the response of supabase-py always has a [data]
    attribute, so the [hasattr] test passes whenever [execute] returns;
    an exception counts every chunk as an error. *)
Definition upsert_chunks (t : table) (chunks : list chunk_row)
  : counts * table :=
  if negb (Py.truthy_list chunks) then ({| success := 0; error := 0 |}, t)
  else
    match upsert_on_id chunks t with
    | Some t' => ({| success := length chunks; error := 0 |}, t')
    | None => ({| success := 0; error := length chunks |}, t)
    end.

(** The state of [main]'s loop. *)
Record run := {
  calls : nat;
  pages_chunks : table;
  total_chunks_success : nat;
  total_chunks_error : nat
}.

(** The pages of one batch, processed in order: [all_chunks]. *)
Definition process_batch (tokenizer_encode : string → list nat) (c : client)
    (batch : list page) (calls : nat) : list chunk_row * nat :=
  foldl (λ '(all_chunks, n) pg,
           let '(page_chunks, n') := process_page tokenizer_encode c pg n in
           (all_chunks ++ page_chunks, n'))
        ([], calls) batch.

(** The body of [for i in range(0, total_pages, BATCH_SIZE)]. *)
Definition main_step (tokenizer_encode : string → list nat) (c : client)
    (pages : list page) (r : run) (i : nat) : run :=
  let batch := Py.slice pages i (i + BATCH_SIZE) in
  let '(all_chunks, n) := process_batch tokenizer_encode c batch (calls r) in
  if Py.truthy_list all_chunks then
    let '(results, t) := upsert_chunks (pages_chunks r) all_chunks in
    {| calls := n; pages_chunks := t;
       total_chunks_success := total_chunks_success r + success results;
       total_chunks_error := total_chunks_error r + error results |}
  else
    {| calls := n; pages_chunks := pages_chunks r;
       total_chunks_success := total_chunks_success r;
       total_chunks_error := total_chunks_error r |}.

(** [main], from the fetched pages and the table as it stands. *)
Definition main (tokenizer_encode : string → list nat) (c : client)
    (pages : list page) (t : table) : run :=
  foldl (main_step tokenizer_encode c pages)
        {| calls := 0; pages_chunks := t;
           total_chunks_success := 0; total_chunks_error := 0 |}
        (Py.range 0 (length pages) BATCH_SIZE).

End generate_embeddings.

(** ** langchain's [TokenTextSplitter]

    The splitter is a library object; [embed_to_supabase.py] builds one and
    calls [split_text] and [_tokenizer.encode] on it. The tokenizer
    ([cl100k_base]) is a parameter; the sliding window is langchain's
    [split_text_on_tokens]. *)
Module langchain.

Record tokenizer := {
  tk_encode : string → list nat;
  tk_decode : list nat → string
}.

Record TokenTextSplitter := {
  _tokenizer : tokenizer;
  chunk_size : nat;
  chunk_overlap : nat
}.

(** The [while start_idx < len(input_ids)] loop: emit the window at
    [start_idx], stop when it reaches the end, else advance by
    [chunk_size - chunk_overlap]. (Releases without the early stop emit
    one more, shorter window at the end of a long text; on a text of a
    single window of at most [chunk_size - chunk_overlap] tokens they agree
    with this one.) The windows advance by at least one token when the
    overlap is smaller than the size, so [length input_ids] steps are
    enough. *)
Fixpoint split_text_on_tokens (fuel : nat) (sp : TokenTextSplitter)
    (input_ids : list nat) (start_idx : nat) : list string :=
  match fuel with
  | 0 => []
  | S fuel' =>
      if start_idx <? length input_ids then
        let cur_idx := start_idx + chunk_size sp `min` length input_ids in
        tk_decode (_tokenizer sp) (Py.slice input_ids start_idx cur_idx)
        :: (if cur_idx =? length input_ids then []
            else split_text_on_tokens fuel' sp input_ids
                   (start_idx + (chunk_size sp - chunk_overlap sp)))
      else []
  end.

Definition split_text (sp : TokenTextSplitter) (text : string) : list string :=
  let input_ids := tk_encode (_tokenizer sp) text in
  split_text_on_tokens (length input_ids) sp input_ids 0.

End langchain.

(** ** [embed_to_supabase.py] *)
Module embed_to_supabase.
Import Store.

Definition BATCH_SIZE : nat := 100.

(** *** The token-precise chunker *)

(** The dictionaries [split_text] returns. *)
Record chunk_obj := { text : string; token_count : nat }.

Definition split_text (cl100k_base : langchain.tokenizer) (text : string)
  : list chunk_obj :=
  if negb (Py.truthy_str text) then []
  else
    let splitter :=
      {| langchain._tokenizer := cl100k_base;
         langchain.chunk_size := 400;
         langchain.chunk_overlap := 50 |} in
    let chunks := langchain.split_text splitter text in
    omap (λ chunk,
            let token_count :=
              length (langchain.tk_encode (langchain._tokenizer splitter) chunk) in
            if token_count <=? 450
            then Some {| text := chunk; token_count := token_count |}
            else None)
         chunks.

(** *** The embedding service *)

(** What [requests.post] does: it returns a response with a status code
    (and, for a 200, the embeddings of its JSON body, in the order of
    [data]), or raises [RequestException]. *)
Inductive response :=
| Response (status_code : Z) (body : list vec)
| RequestException.

(** The service: the outcome of the [n]-th POST of the run, on [texts]. *)
Abbreviation service := (nat → list string → response).

(** The trace of the run on the network side: the input of every POST so
    far, and every [time.sleep] in seconds, both oldest first. *)
Record world := { posts : list (list string); slept : list nat }.

Definition post (texts : list string) (w : world) : world :=
  {| posts := posts w ++ [texts]; slept := slept w |}.

Definition sleep (seconds : nat) (w : world) : world :=
  {| posts := posts w; slept := slept w ++ [seconds] |}.

(** [for attempt in range(retries)], from [attempt] on with [remaining]
    iterations left; falling out of the loop returns [None]. *)
Fixpoint attempts (svc : service) (texts : list string) (retries : nat)
    (remaining attempt : nat) (w : world) : option (list vec) * world :=
  match remaining with
  | 0 => (None, w)
  | S remaining' =>
      let r := svc (length (posts w)) texts in
      let w := post texts w in
      match r with
      | Response status_code body =>
          if (status_code =? 200)%Z then (Some body, w)
          else if (status_code =? 429)%Z then
            let wait_time := 2 ^ attempt in
            attempts svc texts retries remaining' (S attempt) (sleep wait_time w)
          else if (500 <=? status_code)%Z then
            let w := if attempt <? retries - 1
                     then sleep (2 ^ attempt) w else w in
            attempts svc texts retries remaining' (S attempt) w
          else (None, w)
      | RequestException =>
          let w := if attempt <? retries - 1
                   then sleep (2 ^ attempt) w else w in
          attempts svc texts retries remaining' (S attempt) w
      end
  end.

Definition create_embedding (svc : service) (texts : list string)
    (retries : nat) (w : world) : option (list vec) * world :=
  if negb (Py.truthy_list texts) then (Some [], w)
  else attempts svc texts retries retries 0 w.

(** *** Storing *)

Record counts := { success : nat; error : nat }.

(** [upsert_chunks]; as in [generate_embeddings.py] the [hasattr] test
    passes whenever [execute] returns. *)
Definition upsert_chunks (t : table) (chunks_data : list chunk_row)
  : counts * table :=
  if negb (Py.truthy_list chunks_data)
  then ({| success := 0; error := 0 |}, t)
  else
    match upsert_on_key chunks_data t with
    | Some t' => ({| success := length chunks_data; error := 0 |}, t')
    | None => ({| success := 0; error := length chunks_data |}, t)
    end.

Definition check_pages_chunks_table (t : table) : nat := count t.

(** What [delete().execute()] on the whole table does: it goes through,
    or it raises. *)
Inductive delete_result := Deleted | DeleteRaised.

(** [clear_pages_chunks_table]: [True] and no row left when the delete
    goes through; on an exception [False], the rows staying as they are. *)
Definition clear_pages_chunks_table (delete : delete_result) (t : table)
  : bool * table :=
  match delete with
  | Deleted => (true, ∅)
  | DeleteRaised => (false, t)
  end.

(** *** The driver *)

(** A row of [pages]: [page.get('url')] and [page.get('markdown', '')]. *)
Record page := { page_url : option string; markdown : option string }.

(** The state of [main]'s loops. *)
Record run := {
  net : world;
  pages_chunks : table;
  total_pages_processed : nat;
  total_chunks_embedded : nat;
  total_tokens : nat;
  total_errors : nat
}.

(** Truthiness of what [create_embedding] returned: [None] and [[]] are
    both false. *)
Definition truthy_embeddings (e : option (list vec)) : bool :=
  match e with Some (_ :: _) => true | _ => false end.

(** [chunks_data] of one batch: [enumerate(zip(chunk_batch, token_batch,
    embeddings))] with [chunk_idx = j + k]. *)
Definition chunks_data_of (url : string) (j : nat)
    (chunk_batch : list string) (token_batch : list nat)
    (embeddings : list vec) : list chunk_row :=
  imap (λ k '(chunk, (token_count, embedding)),
          {| Store.url := url; chunk_idx := j + k; content := chunk;
             tokens := Some token_count; embedding := embedding |})
       (zip chunk_batch (zip token_batch embeddings)).

(** The body of [for j in range(0, len(chunks), BATCH_SIZE)], at batch
    size [B]; the second component of the state is the page's
    [chunks_embedded]. *)
Definition embed_batch (svc : service) (B : nat) (url : string)
    (chunks : list string) (token_counts : list nat)
    (st : run * nat) (j : nat) : run * nat :=
  let '(r, chunks_embedded) := st in
  let chunk_batch := Py.slice chunks j (j + B) in
  let token_batch := Py.slice token_counts j (j + B) in
  let '(embeddings, w) := create_embedding svc chunk_batch 3 (net r) in
  if negb (truthy_embeddings embeddings) then
    ({| net := w; pages_chunks := pages_chunks r;
        total_pages_processed := total_pages_processed r;
        total_chunks_embedded := total_chunks_embedded r;
        total_tokens := total_tokens r;
        total_errors := total_errors r + length chunk_batch |},
     chunks_embedded)
  else
    let chunks_data :=
      chunks_data_of url j chunk_batch token_batch (default [] embeddings) in
    let '(result, t) := upsert_chunks (pages_chunks r) chunks_data in
    ({| net := w; pages_chunks := t;
        total_pages_processed := total_pages_processed r;
        total_chunks_embedded := total_chunks_embedded r;
        total_tokens := total_tokens r;
        total_errors := total_errors r + error result |},
     chunks_embedded + success result).

(** The chunks of one page, embedded and stored batch by batch. *)
Definition embed_chunks (svc : service) (B : nat) (url : string)
    (chunks : list string) (token_counts : list nat) (r : run) : run * nat :=
  foldl (embed_batch svc B url chunks token_counts) (r, 0)
        (Py.range 0 (length chunks) B).

(** The body of [for page in batch]. *)
Definition process_page (svc : service) (cl100k_base : langchain.tokenizer)
    (r : run) (pg : page) : run :=
  match page_url pg, markdown pg with
  | Some url, Some markdown =>
      if negb (Py.truthy_str url) || negb (Py.truthy_str markdown) then r
      else
        let chunk_objects := split_text cl100k_base markdown in
        if negb (Py.truthy_list chunk_objects) then r
        else
          let chunks := text <$> chunk_objects in
          let token_counts := token_count <$> chunk_objects in
          let page_total_tokens := sum_list token_counts in
          let '(r', chunks_embedded) :=
            embed_chunks svc BATCH_SIZE url chunks token_counts r in
          {| net := net r'; pages_chunks := pages_chunks r';
             total_pages_processed := total_pages_processed r' + 1;
             total_chunks_embedded := total_chunks_embedded r' + chunks_embedded;
             total_tokens := total_tokens r' + page_total_tokens;
             total_errors := total_errors r' |}
  | _, _ => r
  end.

(** [main]: clear the table, whose result is not looked at, then every
    page of every batch in order. *)
Definition main (svc : service) (cl100k_base : langchain.tokenizer)
    (delete : delete_result) (pages : list page) (t : table) : run :=
  foldl (λ r i,
           foldl (process_page svc cl100k_base) r
                 (Py.slice pages i (i + BATCH_SIZE)))
        {| net := {| posts := []; slept := [] |};
           pages_chunks := (clear_pages_chunks_table delete t).2;
           total_pages_processed := 0; total_chunks_embedded := 0;
           total_tokens := 0; total_errors := 0 |}
        (Py.range 0 (length pages) BATCH_SIZE).

End embed_to_supabase.

(** ** BeautifulSoup documents

    The parse tree [crawl_hotchkiss.py] navigates. The parser and the
    serializer ([str] of a node) belong to the library and are parameters
    of [main_html]; the navigation it relies on ([select] by class,
    [decompose], [find], [.body], [.contents]) is defined on the tree. *)
Module bs4.

(** A node is a string (text, comment, ...) or a tag with its attribute
    dictionary and its children. *)
Inductive node :=
| NavigableString (s : string)
| Tag (name : string) (attrs : gmap string string) (contents : list node).

Definition contents_of (n : node) : list node :=
  match n with
  | NavigableString _ => []
  | Tag _ _ cs => cs
  end.

(** A tag has class [cls] when [cls] is one of the whitespace-separated
    words of its [class] attribute (the tree builder keeps that attribute
    as the list of these words). *)
Definition has_class (cls : string) (n : node) : bool :=
  match n with
  | NavigableString _ => false
  | Tag _ attrs _ =>
      match attrs !! "class" with
      | Some v => bool_decide (cls ∈ Py.split v)
      | None => false
      end
  end.

(** [for tag in soup.select("." + cls): tag.decompose()] below [n]: every
    tag of that class goes, with its subtree. *)
Fixpoint decompose_class (cls : string) (n : node) : node :=
  match n with
  | NavigableString _ => n
  | Tag name attrs cs =>
      Tag name attrs
        (foldr (λ c kept,
                  if has_class cls c then kept
                  else decompose_class cls c :: kept) [] cs)
  end.

(** The first node, in document order, among [n] and its descendants that
    satisfies [p]. *)
Fixpoint first_in (p : node → bool) (n : node) : option node :=
  if p n then Some n
  else
    match n with
    | NavigableString _ => None
    | Tag _ _ cs =>
        foldr (λ c later,
                 match first_in p c with
                 | Some hit => Some hit
                 | None => later
                 end) None cs
    end.

(** [tag.find(...)]: the first descendant of [n] that satisfies [p]. *)
Definition find (p : node → bool) (n : node) : option node :=
  foldr (λ c later,
           match first_in p c with
           | Some hit => Some hit
           | None => later
           end) None (contents_of n).

(** The filter of [find(name, id=value)]. *)
Definition named_with_id (name value : string) (n : node) : bool :=
  match n with
  | NavigableString _ => false
  | Tag nm attrs _ => bool_decide (nm = name ∧ attrs !! "id" = Some value)
  end.

(** The filter of [find(name)], which [soup.body] abbreviates. *)
Definition named (name : string) (n : node) : bool :=
  match n with
  | NavigableString _ => false
  | Tag nm _ _ => bool_decide (nm = name)
  end.

(** [n] and its descendants, in document order. *)
Fixpoint subtree (n : node) : list node :=
  n :: match n with
       | NavigableString _ => []
       | Tag _ _ cs => foldr (λ c rest, subtree c ++ rest) [] cs
       end.

(** [tag.descendants]. *)
Definition descendants (n : node) : list node :=
  foldr (λ c rest, subtree c ++ rest) [] (contents_of n).

(** [tag.get(key, "")]. *)
Definition get (key : string) (n : node) : string :=
  match n with
  | NavigableString _ => EmptyString
  | Tag _ attrs _ => default EmptyString (attrs !! key)
  end.

(** [for tag in soup.find_all(...): if q(tag): tag.replace_with(new(tag))]
    below [n]: every descendant that passes [q] is replaced, with its
    subtree, by [new] of it; the list of [find_all] is taken before the
    loop, and replacing a tag inside an already replaced one does not
    touch the document. *)
Fixpoint replace_where (q : node → bool) (new : node → node) (n : node) : node :=
  match n with
  | NavigableString _ => n
  | Tag name attrs cs =>
      Tag name attrs
        ((λ c, if q c then new c else replace_where q new c) <$> cs)
  end.

End bs4.

(** ** [crawl_hotchkiss.py] *)
Module crawl_hotchkiss.
Import bs4.

Section extractor.
(** [BeautifulSoup(html, "html.parser")]: the document node, or [None]
    when the tree builder rejects the markup and the constructor raises
    [ParserRejectedMarkup]. *)
Variable BeautifulSoup : string → option node.
(** [str(c)] for a node [c]. *)
Variable str : node → string.

(** [a or b] on the results of [find]: a tag is always true. *)
Definition or_else (a b : option node) : option node :=
  match a with Some _ => a | None => b end.

(** [main_html]; there is no [try] in it, so [None] is the exception of
    the constructor reaching the caller. *)
Definition main_html (html : string) : option string :=
  match BeautifulSoup html with
  | None => None
  | Some soup =>
      let soup :=
        foldl (λ soup cls, decompose_class cls soup) soup ["fsNavigation"] in
      let main := or_else (find (named_with_id "main" "fsPageContent") soup)
                          (find (named_with_id "div" "fsPageContent") soup) in
      match main with
      | Some main => Some (Py.join "" (str <$> contents_of main))
      | None =>
          let body := find (named "body") soup in
          match body with
          | Some body => Some (Py.join "" (str <$> contents_of body))
          | None => Some html
          end
      end
  end.
End extractor.

(** [read_urls], on the text of the file. *)
Definition read_urls (file : string) : list string :=
  List.filter Py.truthy_str (Py.strip <$> Py.splitlines file).

(** *** The media passes of [crawl_all] *)

(** One [img] of [find_all("img")]: a [src] that starts with [/] gets the
    site root in front. *)
Fixpoint fix_image_path (n : node) : node :=
  match n with
  | NavigableString _ => n
  | Tag name attrs cs =>
      let src := default EmptyString (attrs !! "src") in
      let attrs :=
        if named "img" n && Py.startswith "/" src
        then <["src" := "https://hotchkiss.org" +:+ src]> attrs
        else attrs in
      Tag name attrs (fix_image_path <$> cs)
  end.

(** [for img in soup.find_all("img"): ...], over the descendants of the
    document. *)
Definition fix_image_paths (soup : node) : node :=
  match soup with
  | NavigableString _ => soup
  | Tag name attrs cs => Tag name attrs (fix_image_path <$> cs)
  end.

(** A [<video>] whose [src] starts with [blob:], and what replaces it. *)
Definition is_blob_video (n : node) : bool :=
  named "video" n && Py.startswith "blob:" (get "src" n).

Definition video_placeholder : node :=
  Tag "p" ∅ [NavigableString "[Embedded video: not directly extractable]"].

(** An [<iframe>] whose [src] mentions vimeo.com or youtube.com, and the
    paragraph that replaces it. *)
Definition is_video_iframe (n : node) : bool :=
  named "iframe" n
  && (Py.contains "vimeo.com" (get "src" n)
      || Py.contains "youtube.com" (get "src" n)).

Definition watch_link (iframe : node) : node :=
  Tag "p" ∅ [NavigableString ("[Watch video](" +:+ get "src" iframe +:+ ")")].

(** The three loops, in the order of the script. *)
Definition rewrite_media (soup : node) : node :=
  let soup := fix_image_paths soup in
  let soup := replace_where is_blob_video (λ _, video_placeholder) soup in
  replace_where is_video_iframe watch_link soup.

(** *** The date of the crawl *)

(** The fields of [time.localtime()] that the format reads. *)
Record struct_time := { tm_year : nat; tm_mon : nat; tm_mday : nat }.

(** The decimal digit of [d < 10]. *)
Definition digit_char (d : nat) : ascii := ascii_of_nat (48 + d).

(** [%m] and [%d]: two digits, zero-padded. *)
Definition two_digits (n : nat) : string :=
  String (digit_char (n / 10 mod 10))
    (String (digit_char (n mod 10)) EmptyString).

(** [%Y]: the year in decimal, with as many digits as it has; [fuel]
    bounds the number of digits. *)
Fixpoint decimal_scan (fuel n : nat) (acc : string) : string :=
  match fuel with
  | 0 => acc
  | S fuel' =>
      let acc := String (digit_char (n mod 10)) acc in
      if n <? 10 then acc else decimal_scan fuel' (n / 10) acc
  end.

Definition decimal (n : nat) : string := decimal_scan (S n) n EmptyString.

(** [time.strftime("%m%d%Y", t)]. *)
Definition strftime_mdY (t : struct_time) : string :=
  two_digits (tm_mon t) +:+ two_digits (tm_mday t) +:+ decimal (tm_year t).

(** What SQLite stores when a text of decimal digits is inserted into a
    column declared [INTEGER]: the integer the digits denote, so a leading
    zero is lost. Every text [strftime_mdY] returns is of that kind. *)
Fixpoint integer_of_digits (acc : N) (s : string) : N :=
  match s with
  | EmptyString => acc
  | String c s' => integer_of_digits (10 * acc + (N_of_ascii c - 48)) s'
  end.

Definition integer_affinity (text : string) : N := integer_of_digits 0 text.

(** *** The crawl *)

(** A row of the SQLite table [pages], whose primary key is [url], as it
    is stored: [crawled_at] is declared [INTEGER]. *)
Record page_row := { title : string; markdown : string; crawled_at : N }.

Section crawl.
(** [page.goto(url)] then [page.content()] for the [i]-th URL of the run:
    the markup, or [None] when either raises (a timeout, say). *)
Variable browser : nat → string → option string.
Variable BeautifulSoup : string → option node.
Variable str : node → string.
(** [tag.get_text(" ", strip=True)]. *)
Variable get_text : node → string.
(** [markdownify(html, heading_style="ATX")]. *)
Variable md : string → string.
(** [time.localtime()] at the [i]-th URL. *)
Variable localtime : nat → struct_time.

(** The body of the [try] for one URL, after the page has loaded: the row
    to store, or [None] when one of the three parses raises. *)
Definition page_of (i : nat) (full_html : string) : option page_row :=
  match BeautifulSoup full_html with
  | None => None
  | Some soup =>
      let title := match find (named "title") soup with
                   | Some t => get_text t
                   | None => EmptyString
                   end in
      match main_html BeautifulSoup str full_html with
      | None => None
      | Some html_content =>
          match BeautifulSoup html_content with
          | None => None
          | Some soup =>
              let soup := rewrite_media soup in
              let markdown := md (str soup) in
              let crawled_at := strftime_mdY (localtime i) in
              Some {| title := title; markdown := markdown;
                      crawled_at := integer_affinity crawled_at |}
          end
      end
  end.

(** The body of [for url in url_list]: [INSERT OR REPLACE] on success,
    nothing but a message when the [try] raises. *)
Definition crawl_one (conn : gmap string page_row) (visit : nat * string)
  : gmap string page_row :=
  let '(i, url) := visit in
  match browser i url with
  | Some full_html =>
      match page_of i full_html with
      | Some row => <[url := row]> conn
      | None => conn
      end
  | None => conn
  end.

Definition crawl_all (url_list : list string) (conn : gmap string page_row)
  : gmap string page_row :=
  foldl crawl_one conn (imap pair url_list).
End crawl.

End crawl_hotchkiss.

(** ** [migrate_to_supabase.py] *)
Module migrate_to_supabase.

Definition BATCH_SIZE : nat := 100.

(** What [upsert(batch).execute()] does to the caller: it returns a
    response with a [data] attribute, or one without, or raises. *)
Inductive outcome := HasData | NoData | Raises.

(** The dictionary [upload_to_supabase] returns. *)
Record counts := { total : nat; success : nat; error : nat }.

(** The state of the loop: the two counters and the batches sent so far,
    oldest first. *)
Record upload {record : Type} := {
  success_count : nat;
  error_count : nat;
  sent : list (list record)
}.
Arguments upload : clear implicits.

Section upload.
(** The rows of the SQLite table, as dictionaries. *)
Context {record : Type}.
(** The store: the outcome of the [n]-th [upsert] of the run, on a batch. *)
Variable store : nat → list record → outcome.

(** The body of [for i in range(0, total_records, BATCH_SIZE)], at batch
    size [B]. *)
Definition upload_batch (B : nat) (data : list record) (st : upload record)
    (i : nat) : upload record :=
  let batch := Py.slice data i (i + B) in
  let batch_size := length batch in
  match store (length (sent st)) batch with
  | HasData =>
      {| success_count := success_count st + batch_size;
         error_count := error_count st;
         sent := sent st ++ [batch] |}
  | NoData | Raises =>
      {| success_count := success_count st;
         error_count := error_count st + batch_size;
         sent := sent st ++ [batch] |}
  end.

Definition upload_loop (B : nat) (data : list record) : upload record :=
  foldl (upload_batch B data)
        {| success_count := 0; error_count := 0; sent := [] |}
        (Py.range 0 (length data) B).

Definition upload_to_supabase (data : list record) : counts :=
  let st := upload_loop BATCH_SIZE data in
  {| total := length data;
     success := success_count st;
     error := error_count st |}.
End upload.

End migrate_to_supabase.

(** ** [test_vector_search.py] *)
Module test_vector_search.

(** What the one [requests.post] of [create_embedding] does: a response
    with a status code (and, for a 200, the embeddings of its body), or
    any exception. *)
Inductive response :=
| Response (status_code : Z) (body : list vec)
| Exception.

(** [create_embedding]: [result["data"][0]["embedding"]] of a 200; the
    [IndexError] of an empty [data] is caught like any exception. *)
Definition create_embedding (r : response) : option vec :=
  match r with
  | Response status_code body =>
      if (status_code =? 200)%Z then head body else None
  | Exception => None
  end.

(** What [supabase.rpc('match_chunks', ...).execute()] does: a response
    with the matching rows, one without [data], or an exception. *)
Inductive rpc_result {row : Type} :=
| Rows (data : list row)
| NoRows
| RpcException.
Arguments rpc_result : clear implicits.

(** [search_similar_chunks]; the second component is the list of calls
    made to [match_chunks], each with its [q] and [k]. *)
Definition search_similar_chunks {row : Type}
    (post : string → response) (rpc : vec → nat → rpc_result row)
    (query : string) (top_k : nat) : list row * list (vec * nat) :=
  match create_embedding (post query) with
  | None | Some [] => ([], [])
  | Some query_embedding =>
      (match rpc query_embedding top_k with
       | Rows data => data
       | NoRows | RpcException => []
       end,
       [(query_embedding, top_k)])
  end.

End test_vector_search.

(** ** Notions the specification uses *)
Module Spec.

(** A text consists only of whitespace (the empty text included). *)
Fixpoint whitespace_only (s : string) : bool :=
  match s with
  | EmptyString => true
  | String c s' => Py.isspace c && whitespace_only s'
  end.

Section groups.
Variable tokenizer_encode : string → list nat.
Variables target_tokens max_tokens : nat.

(** The token count the chunker keeps for a chunk: the sum of the token
    counts of its paragraphs. *)
Definition paragraph_tokens (group : list string) : nat :=
  sum_list_with (λ p, length (tokenizer_encode p)) group.

(** A group is within the maximum unless it is a paragraph on its own. *)
Definition within_max (group : list string) : Prop :=
  paragraph_tokens group ≤ max_tokens ∨ ∃ p, group = [p].

(** The chunks as lists of whole paragraphs, before they are joined:
    [current] is the open chunk, [count] its token count. *)
Fixpoint chunk_groups (current : list string) (count : nat)
    (paragraphs : list string) : list (list string) :=
  match paragraphs with
  | [] => if Py.truthy_list current then [current] else []
  | p :: rest =>
      let k := length (tokenizer_encode p) in
      if (max_tokens <? count + k) && Py.truthy_list current then
        current ::
          (if target_tokens <=? k then [p] :: chunk_groups [] 0 rest
           else chunk_groups [p] k rest)
      else if target_tokens <=? count + k then
        (current ++ [p]) :: chunk_groups [] 0 rest
      else chunk_groups (current ++ [p]) (count + k) rest
  end.
End groups.

(** What a reader of the table sees of each row besides its key and its
    vector: the content and the token count under every [(url, chunk_idx)]. *)
Definition stored_content (t : Store.table)
  : gmap (string * nat) (string * option nat) :=
  (λ r, (Store.content r, Store.tokens r)) <$> t.

(** The embedding service answers every POST with a 200 that carries one
    vector per text. *)
Definition always_serves (svc : embed_to_supabase.service) : Prop :=
  ∀ n texts, ∃ body,
    svc n texts = embed_to_supabase.Response 200 body
    ∧ length body = length texts.

(** [⌈n / b⌉]. *)
Definition ceil_div (n b : nat) : nat := (n + (b - 1)) / b.

(** "The first that exists" of a prioritized list of candidates. *)
Fixpoint first_existing {A} (candidates : list (option A)) : option A :=
  match candidates with
  | [] => None
  | Some a :: _ => Some a
  | None :: rest => first_existing rest
  end.

(** The characters of a text that are not whitespace, in order. *)
Fixpoint visible (s : string) : string :=
  match s with
  | EmptyString => EmptyString
  | String c s' => if Py.isspace c then visible s' else String c (visible s')
  end.

(** *** Paragraphs, as blank-line boundaries delimit them *)

(** The lines of a text: what lies between its newlines. [line] is the
    line read so far. *)
Fixpoint lines_scan (line s : string) : list string :=
  match s with
  | EmptyString => [line]
  | String c s' =>
      if Py.is_newline c then line :: lines_scan EmptyString s'
      else lines_scan (line +:+ String c EmptyString) s'
  end.

Definition lines (text : string) : list string := lines_scan EmptyString text.

(** A blank line holds nothing but whitespace. The blocks of a text are
    its maximal runs of consecutive lines that are not blank; [block] is
    the run read so far. *)
Fixpoint blocks (block : list string) (ls : list string) : list (list string) :=
  match ls with
  | [] => if Py.truthy_list block then [block] else []
  | l :: ls' =>
      if whitespace_only l
      then (if Py.truthy_list block then block :: blocks [] ls'
            else blocks [] ls')
      else blocks (block ++ [l]) ls'
  end.

(** The paragraphs of a text: its blocks, each with its lines put back
    together and the whitespace at its two ends taken off. *)
Definition paragraphs (text : string) : list string :=
  (λ block, Py.strip (Py.join (String "010" EmptyString) block))
    <$> blocks [] (lines text).

(** A scan of the text for the pattern [\n\s*\n] and a scan of its lines
    are in step when the piece since the last match is the open block and
    the open line, after whitespace; the lines of the block are not
    blank; and a blank open line after a block is not followed by a
    newline before the next visible character. *)
Definition in_step (piece : string) (block : list string) (line s : string)
  : Prop :=
  (∃ ws, whitespace_only ws = true
         ∧ piece = ws +:+ Py.join (String "010" EmptyString) (block ++ [line]))
  ∧ Forall (λ l, whitespace_only l = false) block
  ∧ (block ≠ [] → whitespace_only line = true →
     Py.after_last_newline (Py.span_space s).1 = None).

(** *** Documents *)

(** The children of a node, in order. *)
Definition children (n : bs4.node) : list bs4.node :=
  match n with
  | bs4.NavigableString _ => []
  | bs4.Tag _ _ cs => cs
  end.

(** The nodes below a node, in document order: each child, followed by
    what is below it. *)
Fixpoint below (n : bs4.node) : list bs4.node :=
  match n with
  | bs4.NavigableString _ => []
  | bs4.Tag _ _ cs => flat_map (λ c, c :: below c) cs
  end.

(** The first node below [doc], in document order, that passes [p]. *)
Definition first_matching (p : bs4.node → bool) (doc : bs4.node)
  : option bs4.node :=
  head (List.filter p (below doc)).

(** An element of the given name; and one that also has the given [id]. *)
Definition element (name : string) (n : bs4.node) : bool :=
  match n with
  | bs4.NavigableString _ => false
  | bs4.Tag nm _ _ => String.eqb nm name
  end.

Definition element_with_id (name id : string) (n : bs4.node) : bool :=
  match n with
  | bs4.NavigableString _ => false
  | bs4.Tag nm attrs _ =>
      String.eqb nm name
      && match attrs !! "id" with
         | Some v => String.eqb v id
         | None => false
         end
  end.

(** An element one of whose classes is [cls]. *)
Definition carries_class (cls : string) (n : bs4.node) : bool :=
  match n with
  | bs4.NavigableString _ => false
  | bs4.Tag _ attrs _ =>
      match attrs !! "class" with
      | Some v => existsb (String.eqb cls) (Py.split v)
      | None => false
      end
  end.

(** A document without the elements that carry [cls], and without what
    is below them. *)
Fixpoint without_class (cls : string) (n : bs4.node) : bs4.node :=
  match n with
  | bs4.NavigableString _ => n
  | bs4.Tag name attrs cs =>
      bs4.Tag name attrs
        (omap (λ c, if carries_class cls c then None
                    else Some (without_class cls c)) cs)
  end.

(** The inner HTML of a container: its children serialized, one after
    the other. *)
Definition inner_html (str : bs4.node → string) (container : bs4.node)
  : string :=
  foldr (λ c rest, str c +:+ rest) EmptyString (children container).

(** A text with no line boundary in it. *)
Fixpoint one_line (s : string) : bool :=
  match s with
  | EmptyString => true
  | String c s' => negb (Py.is_linebreak c) && one_line s'
  end.

(** An [img] whose [src] starts with a slash. *)
Definition root_relative_img (n : bs4.node) : bool :=
  bs4.named "img" n && Py.startswith "/" (bs4.get "src" n).

(** Every 200 of the embedding service carries at least one vector per
    text. *)
Definition well_formed (svc : embed_to_supabase.service) : Prop :=
  ∀ n texts body,
    svc n texts = embed_to_supabase.Response 200 body →
    length texts ≤ length body.

(** The chunks [embed_to_supabase.py] cuts a page into: none for a page
    it skips. *)
Definition page_chunks (cl100k_base : langchain.tokenizer)
    (pg : embed_to_supabase.page) : list embed_to_supabase.chunk_obj :=
  match embed_to_supabase.page_url pg, embed_to_supabase.markdown pg with
  | Some url, Some markdown =>
      if negb (Py.truthy_str url) || negb (Py.truthy_str markdown) then []
      else embed_to_supabase.split_text cl100k_base markdown
  | _, _ => []
  end.

(** The chunks [generate_embeddings.py] cuts a page into. *)
Definition chunks_of_page (tokenizer_encode : string → list nat)
    (pg : generate_embeddings.page) : list string :=
  match generate_embeddings.markdown pg with
  | Some md => generate_embeddings.split_text_into_chunks tokenizer_encode md
  | None => []
  end.

End Spec.

(** ** Stand-ins for the external collaborators, for concrete runs *)
Module Fixtures.

Definition nl : string := String "010" EmptyString.

(** A tokenizer with one token per whitespace-separated word. *)
Definition word_tokenizer (s : string) : list nat :=
  String.length <$> Py.split s.

(** A tokenizer with one token per character. *)
Definition char_tokenizer : langchain.tokenizer :=
  {| langchain.tk_encode :=
       λ s, nat_of_ascii <$> Stdlib.Strings.String.list_ascii_of_string s;
     langchain.tk_decode :=
       λ ids, Stdlib.Strings.String.string_of_list_ascii (ascii_of_nat <$> ids) |}.

(** A service that rate-limits the first POST and serves the others. *)
Definition limited_once (v : vec) : embed_to_supabase.service :=
  λ n texts,
    if n =? 0 then embed_to_supabase.Response 429 []
    else embed_to_supabase.Response 200 ((λ _, v) <$> texts).

(** A service that serves every POST. *)
Definition always_up (v : vec) : embed_to_supabase.service :=
  λ n texts, embed_to_supabase.Response 200 ((λ _, v) <$> texts).

(** A service that rejects the first POST with a 400 and serves the others. *)
Definition rejects_once (v : vec) : embed_to_supabase.service :=
  λ n texts,
    if n =? 0 then embed_to_supabase.Response 400 []
    else embed_to_supabase.Response 200 ((λ _, v) <$> texts).

(** A parser that rejects the marked section [<![foo]>], as the tree
    builder of [html.parser] does, and reads any other text as one string. *)
Definition strict_parser (html : string) : option bs4.node :=
  if String.eqb html "<![foo]>" then None
  else Some (bs4.Tag "[document]" ∅ [bs4.NavigableString html]).

(** A service that serves every POST, with a vector of [k + 1] zeros for
    the [k]-th text. *)
Definition numbered : embed_to_supabase.service :=
  λ n texts,
    embed_to_supabase.Response 200
      (imap (λ k _, replicate (S k) 0%float) texts).

(** A service that rate-limits the first POST and answers the others as
    [numbered] does. *)
Definition numbered_after_limit : embed_to_supabase.service :=
  λ n texts,
    if n =? 0 then embed_to_supabase.Response 429 [] else numbered n texts.

(** A client whose every call raises. *)
Definition always_raises : nat → string → generate_embeddings.api_result :=
  λ _ _, generate_embeddings.Raised.

(** A [pages] table of one row. *)
Definition one_page : list generate_embeddings.page :=
  [{| generate_embeddings.page_url := "u";
      generate_embeddings.markdown := Some "a b" |}].

Definition empty_run : embed_to_supabase.run :=
  {| embed_to_supabase.net :=
       {| embed_to_supabase.posts := []; embed_to_supabase.slept := [] |};
     embed_to_supabase.pages_chunks := ∅;
     embed_to_supabase.total_pages_processed := 0;
     embed_to_supabase.total_chunks_embedded := 0;
     embed_to_supabase.total_tokens := 0;
     embed_to_supabase.total_errors := 0 |}.

(** A run whose table still holds a row of an earlier, longer version of
    the page [u]. *)
Definition stale_row : Store.chunk_row :=
  {| Store.url := "u"; Store.chunk_idx := 3; Store.content := "old";
     Store.tokens := Some 1; Store.embedding := [] |}.

Definition stale_run : embed_to_supabase.run :=
  {| embed_to_supabase.net :=
       {| embed_to_supabase.posts := []; embed_to_supabase.slept := [] |};
     embed_to_supabase.pages_chunks := {[ ("u", 3) := stale_row ]};
     embed_to_supabase.total_pages_processed := 0;
     embed_to_supabase.total_chunks_embedded := 0;
     embed_to_supabase.total_tokens := 0;
     embed_to_supabase.total_errors := 0 |}.

End Fixtures.

(* ===================================================================== *)
(** * Part II. Properties                                                 *)
(* ===================================================================== *)

(** ** Whitespace and stripping *)
Section whitespace.
Import Py Spec.

Lemma whitespace_only_app a b :
  whitespace_only (a +:+ b) = whitespace_only a && whitespace_only b.
Proof.
  induction a as [|c a IH]; simpl; [done|].
  rewrite IH. by destruct (isspace c).
Qed.

Lemma lstrip_whitespace_only s : whitespace_only s = true → lstrip s = EmptyString.
Proof.
  induction s as [|c s IH]; simpl; [done|].
  destruct (isspace c); simpl; [exact IH | done].
Qed.

Lemma strip_whitespace_only s : whitespace_only s = true → strip s = EmptyString.
Proof. intros H. unfold strip. by rewrite lstrip_whitespace_only. Qed.

Lemma rstrip_empty s : rstrip s = EmptyString → whitespace_only s = true.
Proof.
  induction s as [|c s IH]; simpl; [done|].
  destruct (rstrip s); [|done].
  destruct (isspace c); [|done]. intros _. by apply IH.
Qed.

Lemma lstrip_whitespace s :
  whitespace_only (lstrip s) = true → whitespace_only s = true.
Proof.
  induction s as [|c s IH]; simpl; [done|].
  destruct (isspace c) eqn:E; simpl; [exact IH|]. by rewrite E.
Qed.

Lemma strip_empty s : strip s = EmptyString → whitespace_only s = true.
Proof. intros H. by apply lstrip_whitespace, rstrip_empty. Qed.

Lemma remove_cr_whitespace_only s :
  whitespace_only s = true → whitespace_only (remove_cr s) = true.
Proof.
  induction s as [|c s IH]; simpl; [done|].
  intros [Hc Hs]%andb_prop. destruct (is_cr c); simpl; [by apply IH|].
  by rewrite Hc, IH.
Qed.

Lemma span_space_whitespace s w r :
  span_space s = (w, r) → whitespace_only s = true → whitespace_only r = true.
Proof.
  revert w r. induction s as [|c s IH]; simpl; intros w r.
  - by intros [= <- <-].
  - destruct (isspace c) eqn:E; simpl.
    + destruct (span_space s) as [w' r'] eqn:Es. intros [= <- <-] Hs. by eapply IH.
    + done.
Qed.

Lemma span_space_prefix s w r :
  span_space s = (w, r) → whitespace_only w = true.
Proof.
  revert w r. induction s as [|c s IH]; simpl; intros w r.
  - by intros [= <- <-].
  - destruct (isspace c) eqn:E.
    + destruct (span_space s) as [w' r'] eqn:Es. intros [= <- <-]. simpl.
      rewrite E. by eapply IH.
    + by intros [= <- <-].
Qed.

Lemma after_last_newline_whitespace w t :
  after_last_newline w = Some t → whitespace_only w = true →
  whitespace_only t = true.
Proof.
  revert t. induction w as [|c w IH]; simpl; intros t; [done|].
  intros H [Hc Hw]%andb_prop.
  destruct (after_last_newline w) as [t'|].
  - injection H as <-. by apply IH.
  - destruct (is_newline c); [|done]. by injection H as <-.
Qed.

Lemma match_blank_line_whitespace s rest :
  match_blank_line s = Some rest → whitespace_only s = true →
  whitespace_only rest = true.
Proof.
  destruct s as [|c s]; simpl; [done|].
  destruct (is_newline c); [|done].
  destruct (span_space s) as [w r] eqn:Es.
  destruct (after_last_newline w) as [t|] eqn:Et; [|done].
  intros [= <-] [_ Hs]%andb_prop.
  rewrite whitespace_only_app.
  erewrite after_last_newline_whitespace by eauto using span_space_prefix.
  by erewrite span_space_whitespace.
Qed.

Lemma re_split_scan_whitespace fuel piece s :
  whitespace_only piece = true → whitespace_only s = true →
  Forall (λ p, whitespace_only p = true) (re_split_scan fuel piece s).
Proof.
  revert piece s. induction fuel as [|fuel IH]; intros piece s Hp Hs; simpl.
  - constructor; [|done]. by rewrite whitespace_only_app, Hp, Hs.
  - destruct s as [|c s]; [by constructor|].
    destruct (match_blank_line (String c s)) as [rest|] eqn:Em.
    + constructor; [done|]. apply IH; [done|].
      by eapply match_blank_line_whitespace.
    + simpl in Hs. apply andb_prop in Hs as [Hc Hs'].
      apply IH; [|done]. rewrite whitespace_only_app, Hp. simpl. by rewrite Hc.
Qed.

End whitespace.

(** ** Enough fuel *)
Section fuel.
Import Py.

Lemma string_app_nil_r s : s +:+ EmptyString = s.
Proof.
  induction s as [|c s IH]; [done|].
  change (String c (s +:+ EmptyString) = String c s). by rewrite IH.
Qed.

Lemma string_length_app a b :
  String.length (a +:+ b) = String.length a + String.length b.
Proof.
  induction a as [|c a IH]; [done|].
  change (S (String.length (a +:+ b)) = S (String.length a + String.length b)).
  by rewrite IH.
Qed.

Lemma span_space_length s w r :
  span_space s = (w, r) → String.length w + String.length r = String.length s.
Proof.
  revert w r. induction s as [|c s IH]; simpl; intros w r.
  - by intros [= <- <-].
  - destruct (isspace c).
    + destruct (span_space s) as [w' r'] eqn:Es. intros [= <- <-]. simpl.
      by rewrite (IH w' r').
    + by intros [= <- <-].
Qed.

Lemma after_last_newline_length w t :
  after_last_newline w = Some t → String.length t < String.length w.
Proof.
  revert t. induction w as [|c w IH]; simpl; intros t; [done|].
  destruct (after_last_newline w) as [t'|].
  - intros [= <-]. specialize (IH t' eq_refl). lia.
  - destruct (is_newline c); [|done]. intros [= <-]. lia.
Qed.

(** A match consumes at least two characters. *)
Lemma match_blank_line_shorter s rest :
  match_blank_line s = Some rest → String.length rest < String.length s.
Proof.
  destruct s as [|c s]; simpl; [done|].
  destruct (is_newline c); [|done].
  destruct (span_space s) as [w r] eqn:Es.
  destruct (after_last_newline w) as [t|] eqn:Et; [|done].
  intros [= <-]. rewrite string_length_app.
  apply span_space_length in Es. apply after_last_newline_length in Et. lia.
Qed.

(** The scan of [re.split] gives the same pieces with any fuel that is at
    least the length of the text: [re_split_blank_lines] never runs out. *)
Lemma re_split_scan_fuel fuel fuel' piece s :
  String.length s ≤ fuel → String.length s ≤ fuel' →
  re_split_scan fuel piece s = re_split_scan fuel' piece s.
Proof.
  revert fuel' piece s.
  induction fuel as [|fuel IH]; intros fuel' piece s Hf Hf'.
  - destruct s; [|simpl in Hf; lia]. simpl. rewrite string_app_nil_r.
    destruct fuel'; simpl; [by rewrite string_app_nil_r | done].
  - destruct fuel' as [|fuel'].
    + destruct s; [|simpl in Hf'; lia]. simpl. by rewrite string_app_nil_r.
    + cbn [re_split_scan]. destruct s as [|c s]; [done|].
      destruct (match_blank_line (String c s)) as [rest|] eqn:Em.
      * apply match_blank_line_shorter in Em. simpl in *.
        f_equal. apply IH; lia.
      * simpl in *. apply IH; lia.
Qed.

(** [range] likewise: any fuel of at least [stop - start] gives the same
    indices, for a positive step. *)
Lemma range_scan_fuel fuel fuel' start stop step :
  0 < step → stop - start ≤ fuel → stop - start ≤ fuel' →
  range_scan fuel start stop step = range_scan fuel' start stop step.
Proof.
  intros Hstep. revert fuel' start.
  induction fuel as [|fuel IH]; intros fuel' start Hf Hf'.
  - destruct fuel'; simpl; [done|].
    by rewrite (proj2 (Nat.ltb_ge start stop)) by lia.
  - destruct fuel' as [|fuel']; simpl.
    + by rewrite (proj2 (Nat.ltb_ge start stop)) by lia.
    + destruct (start <? stop) eqn:Hlt; [|done].
      apply Nat.ltb_lt in Hlt. f_equal. apply IH; lia.
Qed.

(** The sliding window of the token splitter likewise, when the window is
    wider than the overlap. *)
Lemma split_text_on_tokens_fuel fuel fuel' sp input_ids start_idx :
  langchain.chunk_overlap sp < langchain.chunk_size sp →
  length input_ids - start_idx ≤ fuel → length input_ids - start_idx ≤ fuel' →
  langchain.split_text_on_tokens fuel sp input_ids start_idx
  = langchain.split_text_on_tokens fuel' sp input_ids start_idx.
Proof.
  intros Hwide. revert fuel' start_idx.
  induction fuel as [|fuel IH]; intros fuel' start_idx Hf Hf'.
  - destruct fuel'; simpl; [done|].
    by rewrite (proj2 (Nat.ltb_ge start_idx (length input_ids))) by lia.
  - destruct fuel' as [|fuel']; simpl.
    + by rewrite (proj2 (Nat.ltb_ge start_idx (length input_ids))) by lia.
    + destruct (start_idx <? length input_ids) eqn:Hlt; [|done].
      apply Nat.ltb_lt in Hlt. f_equal.
      destruct (_ =? _); [done|]. apply IH; lia.
Qed.

End fuel.

(** ** The paragraph-aggregating chunker *)
Section chunker_props.
Import Py Spec generate_embeddings.
Context (tokenizer_encode : string → list nat) (target_tokens max_tokens : nat).

Local Abbreviation groups_from := (chunk_groups tokenizer_encode target_tokens max_tokens).
Local Abbreviation weight := (paragraph_tokens tokenizer_encode).
Local Abbreviation within_max := (Spec.within_max tokenizer_encode max_tokens).
Local Abbreviation step := (add_paragraph tokenizer_encode target_tokens max_tokens).

Lemma paragraph_tokens_snoc g p :
  weight (g ++ [p]) = weight g + length (tokenizer_encode p).
Proof.
  unfold paragraph_tokens. rewrite sum_list_with_app. simpl. lia.
Qed.

(** The loop of the script, followed by its final flush, yields the
    joined groups. *)
Lemma loop_groups paragraphs st :
  let st' := foldl step st paragraphs in
  (if truthy_list (current_chunk st')
   then chunks st' ++ [join " " (current_chunk st')]
   else chunks st')
  = chunks st
    ++ (join " " <$> groups_from (current_chunk st) (current_token_count st) paragraphs).
Proof.
  revert st. induction paragraphs as [|p ps IH]; intros st; simpl.
  - destruct (current_chunk st); simpl; [by rewrite app_nil_r | done].
  - specialize (IH (step st p)). simpl in IH. rewrite IH. clear IH.
    unfold add_paragraph.
    set (k := length (tokenizer_encode p)).
    destruct ((max_tokens <? current_token_count st + k)
              && truthy_list (current_chunk st)) eqn:Hmax; simpl.
    + destruct (target_tokens <=? k) eqn:Htarget; simpl.
      * by rewrite <- !app_assoc.
      * by rewrite <- app_assoc.
    + destruct (target_tokens <=? current_token_count st + k) eqn:Htarget; simpl.
      * by rewrite <- app_assoc.
      * done.
Qed.

Lemma aggregate_groups paragraphs :
  aggregate tokenizer_encode target_tokens max_tokens paragraphs
  = join " " <$> groups_from [] 0 paragraphs.
Proof. unfold aggregate. by rewrite loop_groups. Qed.

(** The groups partition the paragraphs, in order. *)
Lemma concat_chunk_groups paragraphs current count :
  concat (groups_from current count paragraphs) = current ++ paragraphs.
Proof.
  revert current count.
  induction paragraphs as [|p ps IH]; intros current count; simpl.
  - destruct current; simpl; by rewrite ?app_nil_r.
  - repeat case_match; simpl; rewrite ?IH; simpl;
      by rewrite <- ?app_assoc.
Qed.

Lemma chunk_groups_nonempty paragraphs current count :
  Forall (λ g, g ≠ []) (groups_from current count paragraphs).
Proof.
  revert current count.
  induction paragraphs as [|p ps IH]; intros current count; simpl.
  - destruct current; simpl; by repeat constructor.
  - destruct ((max_tokens <? _) && truthy_list current) eqn:Hmax.
    + apply andb_prop in Hmax as [_ Hcur].
      constructor; [by destruct current|].
      case_match; [constructor; [done|]|]; apply IH.
    + case_match; [constructor; [by destruct current|]|]; apply IH.
Qed.

Lemma chunk_groups_within_max paragraphs current count :
  count = weight current →
  current = [] ∨ within_max current →
  Forall within_max (groups_from current count paragraphs).
Proof.
  revert current count.
  induction paragraphs as [|p ps IH]; intros current count -> Hcur; simpl.
  - destruct current; simpl; [constructor|].
    destruct Hcur as [?|?]; [done|]. constructor; [done | constructor].
  - set (k := length (tokenizer_encode p)).
    assert (Hp : weight [p] = k) by (unfold paragraph_tokens; simpl; lia).
    assert (Hone : within_max [p]) by (right; eauto).
    destruct ((max_tokens <? weight current + k) && truthy_list current) eqn:Hmax.
    + apply andb_prop in Hmax as [_ Hne].
      constructor; [destruct Hcur as [->|?]; done|].
      case_match.
      * constructor; [done|]. apply IH; [done | by left].
      * apply IH; [done | by right].
    + assert (Hsnoc : within_max (current ++ [p])).
      { apply andb_false_iff in Hmax as [Hle|Hnil].
        - left. rewrite paragraph_tokens_snoc. apply Nat.ltb_ge in Hle. lia.
        - destruct current; [right; by exists p | done]. }
      case_match.
      * constructor; [done|]. apply IH; [done | by left].
      * apply IH; [by rewrite paragraph_tokens_snoc | by right].
Qed.

(** A text the guard rejects has no paragraphs. *)
Lemma paragraphs_of_whitespace_only text :
  whitespace_only text = true → paragraphs_of (remove_cr text) = [].
Proof.
  intros Hws. unfold paragraphs_of, re_split_blank_lines.
  pose proof (re_split_scan_whitespace
                (String.length (remove_cr text)) EmptyString (remove_cr text)
                eq_refl (remove_cr_whitespace_only _ Hws)) as Hall.
  induction Hall as [|piece pieces Hpiece _ IH]; simpl; [done|].
  by rewrite strip_whitespace_only.
Qed.

Lemma split_text_into_chunks_at_whitespace_only text :
  whitespace_only text = true →
  split_text_into_chunks_at tokenizer_encode target_tokens max_tokens text = [].
Proof.
  intros Hws. unfold split_text_into_chunks_at.
  rewrite (strip_whitespace_only _ Hws). simpl. by rewrite orb_true_r.
Qed.

(** The chunks are the joined groups of the text's paragraphs, for every
    text. *)
Lemma split_text_into_chunks_at_groups text :
  split_text_into_chunks_at tokenizer_encode target_tokens max_tokens text
  = join " " <$> groups_from [] 0 (paragraphs_of (remove_cr text)).
Proof.
  unfold split_text_into_chunks_at.
  destruct (negb (truthy_str text) || negb (truthy_str (strip text))) eqn:Hguard.
  - rewrite paragraphs_of_whitespace_only; [done|].
    apply orb_prop in Hguard as [Hempty|Hstrip].
    + by destruct text.
    + apply strip_empty. by destruct (strip text).
  - apply aggregate_groups.
Qed.

End chunker_props.

(** ** The token-precise chunker *)
Section split_text_props.
Import Py embed_to_supabase.

(** Every chunk [split_text] emits carries the token count of its text,
    and that count is at most 450. *)
Lemma split_text_bound cl100k_base text c :
  c ∈ split_text cl100k_base text →
  token_count c = length (langchain.tk_encode cl100k_base (embed_to_supabase.text c))
  ∧ token_count c ≤ 450.
Proof.
  unfold split_text. destruct (negb (truthy_str text)); [by intros ?%elem_of_nil|].
  intros (chunk & _ & Hsome)%list_elem_of_omap. simpl in Hsome.
  destruct (_ <=? 450) eqn:Hle; [|done].
  injection Hsome as <-. simpl. split; [done|]. by apply Nat.leb_le.
Qed.

Lemma split_text_empty cl100k_base : split_text cl100k_base EmptyString = [].
Proof. done. Qed.

(** A tokenizer that encodes a single space as one token and decodes that
    token back makes [split_text] emit the space as a chunk. *)
Lemma split_text_single_space cl100k_base t :
  langchain.tk_encode cl100k_base " " = [t] →
  langchain.tk_decode cl100k_base [t] = " " →
  split_text cl100k_base " " = [{| text := " "; token_count := 1 |}].
Proof.
  intros Henc Hdec. unfold split_text, langchain.split_text. simpl.
  rewrite Henc. simpl. unfold slice. simpl. rewrite Hdec. simpl.
  by rewrite Henc.
Qed.

End split_text_props.

(** ** Claims about the chunkers *)
Section chunker_claims.
Import Py Spec generate_embeddings.

(** C9. With target 15 and maximum 25, a text whose paragraphs are exactly
    two, of 10 tokens each, yields exactly one chunk: the two paragraphs
    joined, with an accumulated token count of 20. *)
Theorem scenario_A_one_chunk_of_20
    (tokenizer_encode : string → list nat) (text p1 p2 : string) :
  paragraphs_of (remove_cr text) = [p1; p2] →
  length (tokenizer_encode p1) = 10 →
  length (tokenizer_encode p2) = 10 →
  split_text_into_chunks_at tokenizer_encode 15 25 text = [p1 +:+ " " +:+ p2]
  ∧ chunk_groups tokenizer_encode 15 25 [] 0 (paragraphs_of (remove_cr text))
    = [[p1; p2]]
  ∧ paragraph_tokens tokenizer_encode [p1; p2] = 20.
Proof.
  intros Hps H1 H2.
  rewrite split_text_into_chunks_at_groups, Hps.
  unfold paragraph_tokens. simpl. rewrite H1, H2. done.
Qed.

Lemma scenario_A_one_chunk_of_20_witness :
  let text := "a b c d e f g h i j" +:+ Fixtures.nl +:+ Fixtures.nl
              +:+ "k l m n o p q r s t" in
  split_text_into_chunks_at Fixtures.word_tokenizer 15 25 text
  = ["a b c d e f g h i j k l m n o p q r s t"].
Proof.
  intros text.
  exact (proj1 (scenario_A_one_chunk_of_20 Fixtures.word_tokenizer text
                  "a b c d e f g h i j" "k l m n o p q r s t"
                  eq_refl eq_refl eq_refl)).
Defined.

(** The paragraph-aggregating chunker yields no chunk on an empty or
    whitespace-only text. *)
Lemma split_text_into_chunks_whitespace_only
    (tokenizer_encode : string → list nat) (text : string) :
  whitespace_only text = true →
  split_text_into_chunks tokenizer_encode text = [].
Proof. apply split_text_into_chunks_at_whitespace_only. Qed.

(** C8 holds of the paragraph-aggregating chunker and fails on the
    token-precise one: on the whitespace-only text [" "], a text the claim
    sends to the empty list, [split_text] returns one chunk of one token,
    since its guard only rejects the empty text and the text reaches the
    splitter. *)
Theorem split_text_keeps_whitespace_only_text :
  whitespace_only " " = true
  ∧ embed_to_supabase.split_text Fixtures.char_tokenizer " "
    = [{| embed_to_supabase.text := " "; embed_to_supabase.token_count := 1 |}].
Proof.
  split; [done|]. by apply (split_text_single_space _ 32).
Qed.

End chunker_claims.

(** ** The table *)
Section store_props.
Import Store.

Lemma row_keys_fst {A} (f : chunk_row → A) (rows : list chunk_row) :
  ((λ r, (row_key r, f r)) <$> rows).*1 = row_key <$> rows.
Proof. by rewrite <- list_fmap_compose. Qed.

(** Writing rows with distinct keys overlays them on the table; [f] is
    any view of a row. *)
Lemma foldl_put_fmap {A} (f : chunk_row → A) (rows : list chunk_row) (t : table) :
  NoDup (row_key <$> rows) →
  f <$> foldl put t rows
  = list_to_map ((λ r, (row_key r, f r)) <$> rows) ∪ (f <$> t).
Proof.
  revert t. induction rows as [|r rows IH]; intros t Hnd; simpl.
  - by rewrite (left_id_L ∅ (∪)).
  - apply NoDup_cons in Hnd as [Hfresh Hnd].
    rewrite IH by done. unfold put. rewrite fmap_insert.
    rewrite <- insert_union_r.
    + by rewrite insert_union_l.
    + apply not_elem_of_list_to_map_1. by rewrite row_keys_fst.
Qed.

Lemma foldl_put_overlay (rows : list chunk_row) (t : table) :
  NoDup (row_key <$> rows) →
  foldl put t rows = list_to_map ((λ r, (row_key r, r)) <$> rows) ∪ t.
Proof.
  intros Hnd. pose proof (foldl_put_fmap id rows t Hnd) as H.
  by rewrite !map_fmap_id in H.
Qed.

Lemma foldl_put_twice (rows : list chunk_row) (t : table) :
  NoDup (row_key <$> rows) →
  foldl put (foldl put t rows) rows = foldl put t rows.
Proof.
  intros Hnd. rewrite !foldl_put_overlay by done.
  by rewrite (assoc_L (∪)), (idemp_L (∪)).
Qed.

Lemma foldl_put_stored (rows : list chunk_row) (t : table) r :
  NoDup (row_key <$> rows) → r ∈ rows →
  foldl put t rows !! row_key r = Some r.
Proof.
  intros Hnd Hin. rewrite foldl_put_overlay by done.
  apply lookup_union_Some_l, elem_of_list_to_map_1.
  - by rewrite row_keys_fst.
  - apply list_elem_of_fmap. by exists r.
Qed.

(** [upsert] keyed on [(url, chunk_idx)], called again with the same rows,
    returns the same counts and leaves the table as it is. *)
Lemma upsert_on_key_twice (rows : list chunk_row) (t : table) :
  let '(c1, t1) := embed_to_supabase.upsert_chunks t rows in
  embed_to_supabase.upsert_chunks t1 rows = (c1, t1).
Proof.
  unfold embed_to_supabase.upsert_chunks, upsert_on_key.
  destruct (negb (Py.truthy_list rows)) eqn:Hrows; [done|].
  case_bool_decide as Hnd; [|done].
  by rewrite foldl_put_twice.
Qed.

(** The [upsert] of [generate_embeddings.py], called again with the same
    rows, leaves the table as it is. *)
Lemma upsert_on_id_twice (rows : list chunk_row) (t : table) :
  let t1 := (generate_embeddings.upsert_chunks t rows).2 in
  (generate_embeddings.upsert_chunks t1 rows).2 = t1.
Proof.
  intros t1.
  assert (Hcases : t1 = t ∧ upsert_on_id rows t = None
                   ∨ rows = []
                   ∨ (rows ≠ [] ∧ NoDup (row_key <$> rows) ∧ t1 = foldl put t rows)).
  { subst t1. unfold generate_embeddings.upsert_chunks.
    destruct rows as [|r rows]; [by right; left|]. simpl.
    unfold upsert_on_id. case_bool_decide as Hok; simpl.
    - right; right. by destruct Hok.
    - left. done. }
  clearbody t1. unfold generate_embeddings.upsert_chunks.
  destruct Hcases as [[-> Hnone]|[->|(Hne & Hnd & ->)]].
  - destruct (negb _); [done|]. by rewrite Hnone.
  - done.
  - destruct rows as [|r rows]; [done|]. simpl.
    unfold upsert_on_id. rewrite bool_decide_false; [done|].
    intros [_ Hfresh]. apply Forall_cons in Hfresh as [Hr _].
    pose proof (foldl_put_stored (r :: rows) t r Hnd ltac:(left)) as Hs.
    simpl in Hs, Hr. congruence.
Qed.

(** The content view has as many entries as the table has rows. *)
Lemma stored_content_count (t : table) : size (Spec.stored_content t) = count t.
Proof. apply map_size_fmap. Qed.

End store_props.

(** ** Ranges and slices *)
Section range_props.
Import Py Spec.

Lemma ceil_div_0 b : 0 < b → ceil_div 0 b = 0.
Proof. intros Hb. unfold ceil_div. apply Nat.div_small. lia. Qed.

Lemma ceil_div_step n b : 0 < b → 0 < n → ceil_div n b = S (ceil_div (n - b) b).
Proof.
  intros Hb Hn. unfold ceil_div.
  destruct (decide (b ≤ n)) as [Hle|Hlt].
  - replace (n + (b - 1)) with ((n - b + (b - 1)) + 1 * b) by lia.
    rewrite Nat.div_add by lia. lia.
  - replace (n - b) with 0 by lia. simpl.
    rewrite (Nat.div_small (b - 1)) by lia.
    replace (n + (b - 1)) with ((n - 1) + 1 * b) by lia.
    rewrite Nat.div_add by lia. rewrite Nat.div_small by lia. done.
Qed.

(** With enough fuel, [range_scan] does not depend on the fuel. *)
Lemma range_scan_length fuel start stop step :
  0 < step → stop - start ≤ fuel →
  length (range_scan fuel start stop step) = ceil_div (stop - start) step.
Proof.
  intros Hstep. revert start.
  induction fuel as [|fuel IH]; intros start Hfuel; simpl.
  - replace (stop - start) with 0 by lia. by rewrite ceil_div_0.
  - destruct (start <? stop) eqn:Hlt.
    + apply Nat.ltb_lt in Hlt. simpl. rewrite IH by lia.
      rewrite (ceil_div_step (stop - start)) by lia.
      do 2 f_equal. lia.
    + apply Nat.ltb_ge in Hlt. replace (stop - start) with 0 by lia.
      by rewrite ceil_div_0.
Qed.

Lemma range_scan_bound fuel start stop step :
  Forall (λ j, start ≤ j < stop) (range_scan fuel start stop step).
Proof.
  revert start. induction fuel as [|fuel IH]; intros start; simpl; [done|].
  destruct (start <? stop) eqn:Hlt; [|done].
  apply Nat.ltb_lt in Hlt. constructor; [lia|].
  eapply Forall_impl; [apply IH|]. simpl. lia.
Qed.

Lemma length_slice {A} (l : list A) i j :
  length (slice l i j) = (j - i) `min` (length l - i).
Proof. unfold slice. by rewrite length_take, length_drop. Qed.

(** The slices at the indices of a range put the list back together. *)
Lemma concat_slices {A} (l : list A) fuel start step :
  0 < step → length l - start ≤ fuel →
  concat ((λ j, slice l j (j + step)) <$> range_scan fuel start (length l) step)
  = drop start l.
Proof.
  intros Hstep. revert start.
  induction fuel as [|fuel IH]; intros start Hfuel; simpl.
  - rewrite drop_ge; [done | lia].
  - destruct (start <? length l) eqn:Hlt.
    + simpl. rewrite IH by lia. unfold slice.
      replace (start + step - start) with step by lia.
      rewrite <- drop_drop. apply take_drop.
    + apply Nat.ltb_ge in Hlt. by rewrite drop_ge.
Qed.

End range_props.

(** ** The embedder *)
Section embedder_props.
Import Py Spec Store embed_to_supabase.
Context (svc : service).

(** A 200 ends the loop with the vectors of that response. *)
Lemma attempts_success texts retries remaining attempt w body :
  svc (length (posts w)) texts = Response 200 body →
  attempts svc texts retries (S remaining) attempt w = (Some body, post texts w).
Proof. intros H. simpl. by rewrite H. Qed.

(** A 429 sleeps [2 ^ attempt] seconds and goes to the next attempt. *)
Lemma attempts_rate_limited texts retries remaining attempt w body :
  svc (length (posts w)) texts = Response 429 body →
  attempts svc texts retries (S remaining) attempt w
  = attempts svc texts retries remaining (S attempt)
      (sleep (2 ^ attempt) (post texts w)).
Proof. intros H. simpl. by rewrite H. Qed.

(** A status below 500 other than 200 and 429 leaves the loop at once. *)
Lemma attempts_break texts retries remaining attempt w code body :
  svc (length (posts w)) texts = Response code body →
  code ≠ 200%Z → code ≠ 429%Z → (code < 500)%Z →
  attempts svc texts retries (S remaining) attempt w = (None, post texts w).
Proof.
  intros H H200 H429 H500. simpl. rewrite H.
  destruct (Z.eqb_spec code 200); [done|].
  destruct (Z.eqb_spec code 429); [done|].
  destruct (Z.leb_spec 500 code); [lia | done].
Qed.

(** Every attempt POSTs the same texts, and there are no more attempts
    than iterations. *)
Lemma attempts_posts texts retries remaining attempt w :
  ∃ k, k ≤ remaining ∧ (0 < remaining → 0 < k)
       ∧ posts (attempts svc texts retries remaining attempt w).2
         = posts w ++ replicate k texts.
Proof.
  revert attempt w. induction remaining as [|remaining IH]; intros attempt w.
  - exists 0. simpl. by rewrite app_nil_r.
  - simpl.
    assert (Hnext : ∀ w', posts w' = posts w ++ [texts] →
              ∃ k, k ≤ S remaining ∧ (0 < S remaining → 0 < k)
                ∧ posts (attempts svc texts retries remaining (S attempt) w').2
                  = posts w ++ replicate k texts).
    { intros w' Hw'. destruct (IH (S attempt) w') as (k & Hk & _ & Hposts).
      exists (S k). split; [lia|]. split; [lia|].
      rewrite Hposts, Hw', <- app_assoc. done. }
    assert (Hstop : ∀ res : option (list vec),
              ∃ k, k ≤ S remaining ∧ (0 < S remaining → 0 < k)
                ∧ posts (res, post texts w).2 = posts w ++ replicate k texts).
    { intros res. exists 1. split; [lia|]. split; [lia|]. done. }
    destruct (svc (length (posts w)) texts) as [code body|].
    + destruct (code =? 200)%Z; [apply Hstop|].
      destruct (code =? 429)%Z; [by apply Hnext|].
      destruct (500 <=? code)%Z; [|apply Hstop].
      apply Hnext. by destruct (attempt <? retries - 1).
    + apply Hnext. by destruct (attempt <? retries - 1).
Qed.

Lemma create_embedding_posts texts w :
  texts ≠ [] →
  ∃ k, 1 ≤ k ≤ 3
       ∧ posts (create_embedding svc texts 3 w).2 = posts w ++ replicate k texts.
Proof.
  intros Hne. unfold create_embedding.
  destruct texts as [|x texts]; [done|]. simpl negb. cbv iota.
  destruct (attempts_posts (x :: texts) 3 3 0 w) as (k & Hk & Hpos & Hposts).
  exists k. split; [lia | done].
Qed.

Lemma create_embedding_success texts w body :
  texts ≠ [] →
  svc (length (posts w)) texts = Response 200 body →
  create_embedding svc texts 3 w = (Some body, post texts w).
Proof.
  intros Hne H. unfold create_embedding.
  destruct texts as [|x texts]; [done|]. by apply attempts_success.
Qed.

(** *** The rows of a batch *)

Lemma chunks_data_of_keys url j cb tb embs :
  NoDup (row_key <$> chunks_data_of url j cb tb embs).
Proof.
  unfold chunks_data_of. apply NoDup_alt. intros i1 i2 key.
  rewrite !list_lookup_fmap, !list_lookup_imap.
  destruct (zip cb (zip tb embs) !! i1) as [[c1 [n1 e1]]|]; [|done].
  destruct (zip cb (zip tb embs) !! i2) as [[c2 [n2 e2]]|]; [|done].
  simpl. unfold row_key. simpl. intros [= <-] [= ?]. lia.
Qed.

Lemma upsert_chunks_distinct t rows :
  NoDup (row_key <$> rows) →
  upsert_chunks t rows
  = ({| success := length rows; error := 0 |}, foldl put t rows).
Proof.
  intros Hnd. unfold upsert_chunks, upsert_on_key.
  destruct rows as [|r rows]; [done|]. simpl negb. cbv iota.
  by rewrite bool_decide_true.
Qed.

Lemma chunks_data_of_lookup url j cb tb embs k :
  length tb = length cb → length embs = length cb → k < length cb →
  ∃ c n e, cb !! k = Some c ∧ tb !! k = Some n ∧ embs !! k = Some e
    ∧ chunks_data_of url j cb tb embs !! k
      = Some {| url := url; chunk_idx := j + k; content := c;
                tokens := Some n; embedding := e |}.
Proof.
  intros Htb Hembs Hk.
  destruct (lookup_lt_is_Some_2 cb k Hk) as [c Hc].
  destruct (lookup_lt_is_Some_2 tb k ltac:(lia)) as [n Hn].
  destruct (lookup_lt_is_Some_2 embs k ltac:(lia)) as [e He].
  exists c, n, e. repeat split; try done.
  unfold chunks_data_of. rewrite list_lookup_imap.
  rewrite !lookup_zip_with, Hc, Hn, He. done.
Qed.

End embedder_props.

(** ** The driver of [embed_to_supabase.py] *)
Section driver_props.
Import Py Spec Store embed_to_supabase.

(** What a batch writes, seen through [stored_content], does not depend
    on the vectors. *)
Lemma chunks_data_of_content url j cb tb embs :
  length embs = length cb →
  (λ r, (row_key r, (content r, tokens r))) <$> chunks_data_of url j cb tb embs
  = imap (λ k '(c, n), ((url, j + k), (c, Some n))) (zip cb tb).
Proof.
  intros Hlen. unfold chunks_data_of. apply list_eq. intros i.
  rewrite list_lookup_fmap, !list_lookup_imap, !lookup_zip_with.
  destruct (cb !! i) as [c|] eqn:Hc; simpl; [|done].
  destruct (tb !! i) as [n|] eqn:Hn; simpl; [|done].
  apply lookup_lt_Some in Hc.
  destruct (lookup_lt_is_Some_2 embs i ltac:(lia)) as [e He].
  by rewrite He.
Qed.

Lemma chunks_data_of_length url j cb tb embs :
  length embs = length cb →
  length (chunks_data_of url j cb tb embs) = length (zip cb tb).
Proof.
  intros Hlen. unfold chunks_data_of.
  rewrite length_imap, !length_zip_with. lia.
Qed.

(** The network side of a batch is that of its [create_embedding] call. *)
Lemma embed_batch_net svc B url chunks tcs st j :
  net (embed_batch svc B url chunks tcs st j).1
  = (create_embedding svc (slice chunks j (j + B)) 3 (net st.1)).2.
Proof.
  destruct st as [r n]. unfold embed_batch. simpl.
  destruct (create_embedding _ _ _ _) as [embeddings w].
  destruct (negb (truthy_embeddings embeddings)); [done|].
  by destruct (upsert_chunks _ _).
Qed.

(** A batch under a service that always serves. *)
Lemma embed_batch_served svc B url chunks tcs r n j :
  always_serves svc →
  let cb := slice chunks j (j + B) in
  let tb := slice tcs j (j + B) in
  ∃ body, length body = length cb ∧
    embed_batch svc B url chunks tcs (r, n) j
    = ({| net := if truthy_list cb then post cb (net r) else net r;
          pages_chunks := foldl put (pages_chunks r) (chunks_data_of url j cb tb body);
          total_pages_processed := total_pages_processed r;
          total_chunks_embedded := total_chunks_embedded r;
          total_tokens := total_tokens r;
          total_errors := total_errors r + 0 |},
       n + length (chunks_data_of url j cb tb body)).
Proof.
  intros Hsvc cb tb. unfold embed_batch. fold cb tb.
  destruct cb as [|c cb'] eqn:Hcb.
  - exists []. split; [done|]. simpl. f_equal. lia.
  - destruct (Hsvc (length (posts (net r))) (c :: cb')) as (body & Hresp & Hlen).
    exists body. split; [done|].
    rewrite (create_embedding_success svc _ _ body) by done.
    destruct body as [|e body']; [done|]. simpl negb. cbv iota.
    simpl default.
    by rewrite upsert_chunks_distinct by apply chunks_data_of_keys.
Qed.

(** A service that always serves makes the batches of a page overlay a
    fixed content on the table, embed a fixed number of chunks and record
    no error. *)
Lemma embed_batches_effect B url chunks tcs js :
  ∃ F N, ∀ svc st, always_serves svc →
    let st' := foldl (embed_batch svc B url chunks tcs) st js in
    stored_content (pages_chunks st'.1) = F ∪ stored_content (pages_chunks st.1)
    ∧ st'.2 = st.2 + N
    ∧ total_errors st'.1 = total_errors st.1
    ∧ total_pages_processed st'.1 = total_pages_processed st.1
    ∧ total_chunks_embedded st'.1 = total_chunks_embedded st.1
    ∧ total_tokens st'.1 = total_tokens st.1.
Proof.
  induction js as [|j js (F & N & IH)].
  - exists ∅, 0. intros svc st _. simpl.
    rewrite (left_id_L ∅ (∪)). repeat split; lia.
  - set (cb := slice chunks j (j + B)). set (tb := slice tcs j (j + B)).
    exists (F ∪ list_to_map (imap (λ k '(c, n), ((url, j + k), (c, Some n))) (zip cb tb))),
           (length (zip cb tb) + N).
    intros svc [r n] Hsvc. cbn [foldl].
    destruct (embed_batch_served svc B url chunks tcs r n j Hsvc)
      as (body & Hlen & ->). fold cb tb in Hlen |- *.
    destruct (IH svc ({|
            net := if truthy_list cb then post cb (net r) else net r;
            pages_chunks := foldl put (pages_chunks r) (chunks_data_of url j cb tb body);
            total_pages_processed := total_pages_processed r;
            total_chunks_embedded := total_chunks_embedded r;
            total_tokens := total_tokens r;
            total_errors := total_errors r + 0 |},
          n + length (chunks_data_of url j cb tb body)) Hsvc)
      as (Hc & Hn & He & Hp & Hce & Ht).
    simpl in *. rewrite Hc, Hn, He, Hp, Hce, Ht.
    unfold stored_content.
    rewrite foldl_put_fmap by apply chunks_data_of_keys.
    rewrite chunks_data_of_content, chunks_data_of_length by done.
    rewrite (assoc_L (∪)). repeat split; lia.
Qed.

(** The same for a whole page. *)
Lemma process_page_effect cl100k_base pg :
  ∃ F N, ∀ svc r, always_serves svc →
    let r' := process_page svc cl100k_base r pg in
    stored_content (pages_chunks r') = F ∪ stored_content (pages_chunks r)
    ∧ total_chunks_embedded r' = total_chunks_embedded r + N
    ∧ total_errors r' = total_errors r.
Proof.
  unfold process_page.
  destruct (page_url pg) as [url|], (markdown pg) as [md|];
    try (exists ∅, 0; intros svc r _; simpl;
         rewrite (left_id_L ∅ (∪)); repeat split; lia).
  destruct (negb (truthy_str url) || negb (truthy_str md));
    [exists ∅, 0; intros svc r _; simpl;
     rewrite (left_id_L ∅ (∪)); repeat split; lia|].
  destruct (negb (truthy_list (split_text cl100k_base md)));
    [exists ∅, 0; intros svc r _; simpl;
     rewrite (left_id_L ∅ (∪)); repeat split; lia|].
  destruct (embed_batches_effect BATCH_SIZE url
              (text <$> split_text cl100k_base md)
              (token_count <$> split_text cl100k_base md)
              (range 0 (length (text <$> split_text cl100k_base md)) BATCH_SIZE))
    as (F & N & Heff).
  exists F, N. intros svc r Hsvc.
  specialize (Heff svc (r, 0) Hsvc). unfold embed_chunks.
  destruct (foldl _ _ _) as [r' n'].
  simpl in *. destruct Heff as (Hc & Hn & He & _ & Hce & _).
  repeat split; [done | lia | done].
Qed.

End driver_props.

(** ** The requests of a page *)
Section requests_props.
Import Py Spec Store embed_to_supabase.
Context (svc : service) (B : nat) (url : string)
        (chunks : list string) (token_counts : list nat).

Local Abbreviation batch_at := (λ j, slice chunks j (j + B)).

Lemma batch_at_nonempty j : 0 < B → j < length chunks → batch_at j ≠ [].
Proof.
  intros HB Hj Hnil. apply (f_equal length) in Hnil.
  rewrite length_slice in Hnil. simpl in Hnil. lia.
Qed.

(** Whatever the service answers, every batch is POSTed between one and
    three times, and nothing else is. *)
Lemma embed_batches_posts js st :
  0 < B → Forall (λ j, j < length chunks) js →
  ∃ reps, length reps = length js ∧ Forall (λ k, 1 ≤ k ≤ 3) reps
    ∧ posts (net (foldl (embed_batch svc B url chunks token_counts) st js).1)
      = posts (net st.1) ++ concat (zip_with replicate reps (batch_at <$> js)).
Proof.
  intros HB. revert st. induction js as [|j js IH]; intros st Hjs.
  - exists []. simpl. by rewrite app_nil_r.
  - apply Forall_cons in Hjs as [Hj Hjs]. cbn [foldl].
    destruct (IH (embed_batch svc B url chunks token_counts st j) Hjs)
      as (reps & Hlen & Hreps & Hposts).
    destruct (create_embedding_posts svc (batch_at j) (net st.1)
                (batch_at_nonempty j HB Hj)) as (k & Hk & Hpost).
    exists (k :: reps). split; [simpl; lia|]. split; [by constructor|].
    rewrite Hposts, embed_batch_net, Hpost. simpl. by rewrite <- app_assoc.
Qed.

(** When the service always serves, every batch is POSTed once. *)
Lemma embed_batches_posts_served js st :
  always_serves svc → 0 < B → Forall (λ j, j < length chunks) js →
  posts (net (foldl (embed_batch svc B url chunks token_counts) st js).1)
  = posts (net st.1) ++ (batch_at <$> js).
Proof.
  intros Hsvc HB. revert st. induction js as [|j js IH]; intros st Hjs.
  - simpl. by rewrite app_nil_r.
  - apply Forall_cons in Hjs as [Hj Hjs]. cbn [foldl].
    rewrite IH, embed_batch_net by done.
    destruct (Hsvc (length (posts (net st.1))) (batch_at j)) as (body & Hresp & _).
    rewrite (create_embedding_success svc _ _ body)
      by eauto using batch_at_nonempty.
    simpl. by rewrite <- app_assoc.
Qed.

End requests_props.

(** ** Claims about the embedder and the store *)
Section embedder_claims.
Import Py Spec Store embed_to_supabase.

(** C4, as stated, fails: after a 429 on attempt 0 the call sleeps
    [2 ^ 0 = 1] second, not 2 or more. *)
Lemma rate_limit_backoff_is_one_second :
  ¬ (∀ (svc : service) (texts : list string) (w : world) (body : list vec),
       texts ≠ [] →
       svc (length (posts w)) texts = Response 429 [] →
       svc (S (length (posts w))) texts = Response 200 body →
       ∃ wait, slept (create_embedding svc texts 3 w).2 = slept w ++ [wait]
               ∧ 2 ≤ wait).
Proof.
  intros Hclaim.
  destruct (Hclaim (Fixtures.limited_once []) ["x"]
              {| posts := []; slept := [] |} [[]])
    as (wait & Hslept & Hwait); [done..|].
  vm_compute in Hslept. injection Hslept as <-. lia.
Qed.

(** C4, amended. A batch call that gets a 429 on attempt 0 and a 200 on
    attempt 1 sleeps [2 ^ 0 = 1] second between its two POSTs and returns
    the vectors of the second response; when these are not empty, the
    driver records no error for the batch. *)
Theorem retry_after_rate_limit (svc : service) (B : nat) (url : string)
    (chunks : list string) (token_counts : list nat) (r : run) (n j : nat)
    (body0 body : list vec) :
  let texts := slice chunks j (j + B) in
  let w := net r in
  texts ≠ [] →
  svc (length (posts w)) texts = Response 429 body0 →
  svc (S (length (posts w))) texts = Response 200 body →
  create_embedding svc texts 3 w
  = (Some body, {| posts := posts w ++ [texts; texts];
                   slept := slept w ++ [1] |})
  ∧ (body ≠ [] →
     total_errors (embed_batch svc B url chunks token_counts (r, n) j).1
     = total_errors r).
Proof.
  intros texts w Hne H429 H200.
  assert (Hcall : create_embedding svc texts 3 w
                  = (Some body, {| posts := posts w ++ [texts; texts];
                                   slept := slept w ++ [1] |})).
  { unfold create_embedding. destruct texts as [|x xs] eqn:Htexts; [done|].
    simpl negb. cbv iota.
    rewrite (attempts_rate_limited svc _ _ _ _ _ body0) by done.
    rewrite (attempts_success svc _ _ _ _ _ body).
    - unfold post, sleep. simpl. by rewrite <- app_assoc.
    - simpl. rewrite length_app. simpl.
      by replace (length (posts w) + 1) with (S (length (posts w))) by lia. }
  split; [done|].
  intros Hbody. unfold embed_batch. fold texts w. rewrite Hcall.
  destruct body as [|e body']; [done|]. simpl negb. cbv iota. simpl default.
  rewrite upsert_chunks_distinct by apply chunks_data_of_keys.
  simpl. lia.
Qed.

Lemma retry_after_rate_limit_witness :
  create_embedding (Fixtures.limited_once []) ["a"; "b"] 3
    {| posts := []; slept := [] |}
  = (Some [[]; []], {| posts := [["a"; "b"]; ["a"; "b"]]; slept := [1] |}).
Proof.
  refine (proj1 (retry_after_rate_limit (Fixtures.limited_once []) 2 "u"
                   ["a"; "b"] [1; 1] Fixtures.empty_run 0 0 [] [[]; []] _ _ _)).
  - simpl. discriminate.
  - reflexivity.
  - reflexivity.
Defined.

(** C6. When a POST of a batch is answered with a 4xx other than 429, the
    call makes no further attempt: it returns [None] with that one POST
    and no sleep added, at whatever attempt the answer comes. When it is
    the answer to the batch's first POST, the driver adds the size of the
    batch to [total_errors], leaves the table and the other counters as
    they are, and goes on with the remaining batches from that state. *)
Theorem client_error_is_not_retried (svc : service) (texts : list string)
    (retries remaining attempt : nat) (w : world) (code : Z) (body : list vec) :
  svc (length (posts w)) texts = Response code body →
  (400 ≤ code < 500)%Z → code ≠ 429%Z →
  attempts svc texts retries (S remaining) attempt w = (None, post texts w)
  ∧ (∀ B url chunks token_counts r n j js,
       net r = w → slice chunks j (j + B) = texts → texts ≠ [] →
       let failed :=
         ({| net := post texts w; pages_chunks := pages_chunks r;
             total_pages_processed := total_pages_processed r;
             total_chunks_embedded := total_chunks_embedded r;
             total_tokens := total_tokens r;
             total_errors := total_errors r + length texts |}, n) in
       embed_batch svc B url chunks token_counts (r, n) j = failed
       ∧ foldl (embed_batch svc B url chunks token_counts) (r, n) (j :: js)
         = foldl (embed_batch svc B url chunks token_counts) failed js).
Proof.
  intros Hresp Hcode H429.
  assert (Hstop : ∀ remaining attempt,
            attempts svc texts retries (S remaining) attempt w
            = (None, post texts w)).
  { intros. eapply attempts_break; [done | lia | done | lia]. }
  split; [apply Hstop|].
  intros B url chunks token_counts r n j js Hw Hslice Hne failed.
  assert (Hbatch : embed_batch svc B url chunks token_counts (r, n) j = failed).
  { unfold embed_batch. rewrite Hslice, Hw. unfold create_embedding.
    destruct texts as [|x xs] eqn:Htexts; [done|]. simpl negb. cbv iota.
    pose proof (attempts_break svc (x :: xs) 3 2 0 w code body Hresp) as ->;
      [done | lia | done | lia]. }
  split; [done|]. cbn [foldl]. by rewrite Hbatch.
Qed.

Lemma client_error_is_not_retried_witness :
  embed_batch (Fixtures.rejects_once []) 2 "u" ["a"; "b"; "c"] [1; 1; 1]
    (Fixtures.empty_run, 0) 0
  = ({| net := {| posts := [["a"; "b"]]; slept := [] |};
        pages_chunks := ∅;
        total_pages_processed := 0; total_chunks_embedded := 0;
        total_tokens := 0; total_errors := 2 |}, 0).
Proof.
  refine (proj1 (proj2 (client_error_is_not_retried (Fixtures.rejects_once [])
                   ["a"; "b"] 3 2 0 {| posts := []; slept := [] |} 400 [] _ _ _)
                 2 "u" ["a"; "b"; "c"] [1; 1; 1] Fixtures.empty_run 0 0 [] _ _ _)).
  - reflexivity.
  - lia.
  - discriminate.
  - reflexivity.
  - reflexivity.
  - discriminate.
Defined.

End embedder_claims.

(** ** The extractor *)
Section extractor_props.
Import Py Spec bs4 crawl_hotchkiss.

(** Induction on a node with the property known of its children. *)
Lemma node_children_ind (P : node → Prop) :
  (∀ s, P (NavigableString s)) →
  (∀ name attrs cs, Forall P cs → P (Tag name attrs cs)) →
  ∀ n, P n.
Proof.
  intros Hstring Htag. fix IH 1. intros [s|name attrs cs]; [apply Hstring|].
  apply Htag. induction cs as [|c cs IHcs]; constructor; [apply IH | exact IHcs].
Qed.

Lemma head_filter_app {A} (p : A → bool) (l k : list A) :
  head (List.filter p (l ++ k))
  = match head (List.filter p l) with
    | Some x => Some x
    | None => head (List.filter p k)
    end.
Proof.
  induction l as [|x l IH]; simpl; [done|]. by destruct (p x).
Qed.

Lemma first_among_children (p : node → bool) (cs : list node) :
  Forall (λ c, first_in p c = head (List.filter p (subtree c))) cs →
  foldr (λ c later, match first_in p c with
                    | Some hit => Some hit
                    | None => later
                    end) None cs
  = head (List.filter p (foldr (λ c rest, subtree c ++ rest) [] cs)).
Proof.
  induction 1 as [|c cs Hc _ IH]; simpl; [done|].
  by rewrite head_filter_app, Hc, IH.
Qed.

(** [first_in] finds the first node of the subtree that passes the filter. *)
Lemma first_in_subtree (p : node → bool) (n : node) :
  first_in p n = head (List.filter p (subtree n)).
Proof.
  induction n as [s|name attrs cs IH] using node_children_ind; simpl.
  - by destruct (p _).
  - destruct (p _); [done|]. by apply first_among_children.
Qed.

(** [find] returns the first descendant, in document order, that passes
    the filter, and [None] exactly when no descendant does. *)
Lemma find_descendants (p : node → bool) (n : node) :
  find p n = head (List.filter p (descendants n)).
Proof.
  unfold find, descendants. apply first_among_children.
  apply Forall_forall. intros c _. apply first_in_subtree.
Qed.

Lemma find_none (p : node → bool) (n : node) :
  find p n = None ↔ ∀ m, m ∈ descendants n → p m = false.
Proof.
  rewrite find_descendants. split.
  - intros Hnone m Hm. destruct (p m) eqn:Hp; [|done].
    assert (Hin : In m (List.filter p (descendants n))).
    { apply filter_In. split; [by apply list_elem_of_In | done]. }
    by destruct (List.filter p (descendants n)).
  - intros Hall. destruct (List.filter p (descendants n)) as [|m l] eqn:Hf; [done|].
    assert (Hin : In m (List.filter p (descendants n))) by (rewrite Hf; by left).
    apply filter_In in Hin as [Hin Hp].
    rewrite Hall in Hp; [done | by apply list_elem_of_In].
Qed.

Lemma find_some (p : node → bool) (n m : node) :
  find p n = Some m → m ∈ descendants n ∧ p m = true.
Proof.
  rewrite find_descendants. intros Hhead.
  assert (Hin : In m (List.filter p (descendants n))).
  { destruct (List.filter p (descendants n)); [done|].
    injection Hhead as ->. by left. }
  apply filter_In in Hin as [Hin Hp]. split; [by apply list_elem_of_In | done].
Qed.

(** The navigation of the code and the notions of the specification. *)
Lemma subtree_below (n : node) : subtree n = n :: below n.
Proof.
  induction n as [s|name attrs cs IH] using node_children_ind; [done|].
  simpl. f_equal. induction IH as [|c cs Hc _ IHcs]; [done|].
  simpl. by rewrite Hc, IHcs.
Qed.

Lemma descendants_below (n : node) : descendants n = below n.
Proof.
  destruct n as [s|name attrs cs]; [done|]. unfold descendants. simpl.
  induction cs as [|c cs IH]; [done|]. simpl. by rewrite subtree_below, IH.
Qed.

Lemma find_first_matching (p : node → bool) (n : node) :
  find p n = first_matching p n.
Proof. unfold first_matching. by rewrite find_descendants, descendants_below. Qed.

Lemma first_matching_ext (p q : node → bool) (Hpq : ∀ m, p m = q m) (n : node) :
  first_matching p n = first_matching q n.
Proof.
  unfold first_matching. f_equal. induction (below n) as [|m l IH]; [done|].
  simpl. by rewrite Hpq, IH.
Qed.

Lemma named_element (name : string) (m : node) :
  named name m = element name m.
Proof.
  destruct m as [s|nm attrs cs]; [done|]. simpl.
  destruct (String.eqb_spec nm name) as [->|Hne];
    [by rewrite bool_decide_true | by rewrite bool_decide_false].
Qed.

Lemma named_with_id_element (name value : string) (m : node) :
  named_with_id name value m = element_with_id name value m.
Proof.
  destruct m as [s|nm attrs cs]; [done|]. simpl.
  destruct (String.eqb_spec nm name) as [->|Hne]; simpl;
    [|rewrite bool_decide_false; [done | by intros [? _]]].
  destruct (attrs !! "id") as [v|];
    [|rewrite bool_decide_false; [done | by intros [_ ?]]].
  destruct (String.eqb_spec v value) as [->|Hne];
    [by rewrite bool_decide_true|].
  rewrite bool_decide_false; [done|]. intros [_ [= ?]]. done.
Qed.

Lemma has_class_carries_class (cls : string) (m : node) :
  has_class cls m = carries_class cls m.
Proof.
  destruct m as [s|nm attrs cs]; [done|]. simpl.
  destruct (attrs !! "class") as [v|]; [|done].
  induction (Py.split v) as [|w ws IH]; [done|]. simpl. rewrite <- IH.
  destruct (String.eqb_spec cls w) as [->|Hne].
  - rewrite bool_decide_true; [done | apply list_elem_of_here].
  - simpl. apply bool_decide_ext. rewrite elem_of_cons.
    split; [by intros [?|?] | by right].
Qed.

Lemma decompose_class_without_class (cls : string) (n : node) :
  decompose_class cls n = without_class cls n.
Proof.
  induction n as [s|name attrs cs IH] using node_children_ind; [done|].
  simpl. f_equal. induction IH as [|c cs Hc _ IHcs]; [done|].
  csimpl. rewrite has_class_carries_class, Hc, IHcs.
  by destruct (carries_class cls c).
Qed.

Lemma join_inner_html (str : node → string) (container : node) :
  Py.join "" (str <$> contents_of container) = inner_html str container.
Proof.
  unfold inner_html. destruct container as [s|name attrs cs]; [done|]. simpl.
  induction cs as [|c cs IH]; [done|]. csimpl. rewrite <- IH.
  destruct cs as [|c' cs]; csimpl; [by rewrite string_app_nil_r | done].
Qed.

End extractor_props.

(** ** Claims about the extractor *)
Section extractor_claims.
Import Py Spec bs4 crawl_hotchkiss.

(** C7, as stated, fails: [main_html] has no handler, so when the tree
    builder rejects the markup (as [html.parser] does on [<![foo]>]) the
    exception of the constructor reaches the caller. *)
Lemma main_html_raises_on_rejected_markup :
  ¬ (∀ (BeautifulSoup : string → option node) (str : node → string)
       (html : string),
       ∃ out, main_html BeautifulSoup str html = Some out).
Proof.
  intros Hclaim.
  destruct (Hclaim Fixtures.strict_parser (λ _, EmptyString) "<![foo]>")
    as [out Hout].
  vm_compute in Hout. discriminate.
Qed.

(** C7, amended. [main_html] raises exactly when the parser rejects the
    markup. Otherwise, on the document without the elements of class
    [fsNavigation], it returns the inner HTML of the first that exists of:
    the first [<main id="fsPageContent">] in document order, the first
    [<div id="fsPageContent">], the first [<body>]; and the raw input when
    none of them exists. *)
Theorem main_html_fallback_chain
    (BeautifulSoup : string → option node) (str : node → string)
    (html : string) :
  match BeautifulSoup html with
  | None => main_html BeautifulSoup str html = None
  | Some document =>
      let doc := without_class "fsNavigation" document in
      let candidates :=
        [first_matching (element_with_id "main" "fsPageContent") doc;
         first_matching (element_with_id "div" "fsPageContent") doc;
         first_matching (element "body") doc] in
      main_html BeautifulSoup str html
      = Some match first_existing candidates with
             | Some container => inner_html str container
             | None => html
             end
  end.
Proof.
  unfold main_html. destruct (BeautifulSoup html) as [document|]; [|done].
  cbv zeta. cbn [foldl]. rewrite decompose_class_without_class.
  set (doc := without_class "fsNavigation" document).
  rewrite !find_first_matching.
  rewrite (first_matching_ext _ _ (named_with_id_element "main" "fsPageContent")).
  rewrite (first_matching_ext _ _ (named_with_id_element "div" "fsPageContent")).
  rewrite (first_matching_ext _ _ (named_element "body")).
  unfold or_else. simpl first_existing.
  destruct (first_matching (element_with_id "main" "fsPageContent") doc)
    as [container|]; [by rewrite join_inner_html|].
  destruct (first_matching (element_with_id "div" "fsPageContent") doc)
    as [container|]; [by rewrite join_inner_html|].
  destruct (first_matching (element "body") doc) as [container|];
    [by rewrite join_inner_html | done].
Qed.

End extractor_claims.

(** ** The driver of [generate_embeddings.py] *)
Section generate_props.
Import Py Spec Store generate_embeddings.
Context (tokenizer_encode : string → list nat).

Lemma generate_embedding_raised (c : client) n text :
  c n text = Raised → generate_embedding c n text = zero_vector.
Proof. intros H. unfold generate_embedding. by rewrite H. Qed.

(** The keys and the contents of the records of a page, and the number of
    calls made, do not depend on the client. *)
Lemma process_page_keys (c c' : client) pg calls :
  row_key <$> (process_page tokenizer_encode c pg calls).1
  = row_key <$> (process_page tokenizer_encode c' pg calls).1
  ∧ (process_page tokenizer_encode c pg calls).2
    = (process_page tokenizer_encode c' pg calls).2.
Proof.
  unfold process_page. destruct (markdown pg) as [md|]; [|done].
  destruct (negb (truthy_str md) || negb (truthy_str (strip md))); [done|].
  simpl. split; [|done]. by rewrite !fmap_imap.
Qed.

Lemma process_batch_keys (c c' : client) batch calls :
  row_key <$> (process_batch tokenizer_encode c batch calls).1
  = row_key <$> (process_batch tokenizer_encode c' batch calls).1
  ∧ (process_batch tokenizer_encode c batch calls).2
    = (process_batch tokenizer_encode c' batch calls).2.
Proof.
  unfold process_batch.
  assert (Hgen : ∀ acc acc' n,
    row_key <$> acc = row_key <$> acc' →
    let step := λ (c : client) '(all_chunks, n) pg,
      let '(page_chunks, n') := process_page tokenizer_encode c pg n in
      (all_chunks ++ page_chunks, n') in
    row_key <$> (foldl (step c) (acc, n) batch).1
    = row_key <$> (foldl (step c') (acc', n) batch).1
    ∧ (foldl (step c) (acc, n) batch).2 = (foldl (step c') (acc', n) batch).2).
  { induction batch as [|pg batch IH]; intros acc acc' n Hacc; [done|].
    cbn [foldl].
    destruct (process_page_keys c c' pg n) as [Hk Hn].
    destruct (process_page tokenizer_encode c pg n) as [rows m].
    destruct (process_page tokenizer_encode c' pg n) as [rows' m'].
    simpl in Hk, Hn. subst m'. apply IH.
    by rewrite !fmap_app, Hacc, Hk. }
  by apply Hgen.
Qed.

(** Whether [upsert] succeeds, and which keys the table then holds, depends
    on the keys of the rows and of the table only. *)
Lemma upsert_chunks_keys (t t' : table) (rows rows' : list chunk_row) :
  dom t = dom t' → row_key <$> rows = row_key <$> rows' →
  (upsert_chunks t rows).1 = (upsert_chunks t' rows').1
  ∧ dom (upsert_chunks t rows).2 = dom (upsert_chunks t' rows').2.
Proof.
  intros Hdom Hkeys.
  assert (Hlen : length rows = length rows').
  { apply (f_equal length) in Hkeys. by rewrite !length_fmap in Hkeys. }
  assert (Hput : ∀ rows rows' (t t' : table),
            dom t = dom t' → row_key <$> rows = row_key <$> rows' →
            dom (foldl put t rows) = dom (foldl put t' rows')).
  { clear. induction rows as [|r rows IH]; intros [|r' rows'] t t' Hd Hk;
      try done. csimpl in *.
    assert (Hr : row_key r = row_key r') by congruence.
    apply IH; [|congruence].
    unfold put. by rewrite !dom_insert_L, Hr, Hd. }
  assert (Hfresh : ∀ (t : table) rows,
            Forall (λ r, t !! row_key r = None) rows
            ↔ Forall (λ k, k ∉ dom t) (row_key <$> rows)).
  { clear. intros t rows. rewrite Forall_fmap. apply Forall_iff. intros r.
    simpl. by rewrite not_elem_of_dom. }
  unfold upsert_chunks, upsert_on_id.
  destruct rows as [|r rows], rows' as [|r' rows']; try done.
  simpl negb. cbv iota.
  destruct (decide (NoDup (row_key <$> r :: rows)
                    ∧ Forall (λ k, k ∉ dom t) (row_key <$> r :: rows))) as [Hok|Hko].
  - rewrite !bool_decide_true.
    + simpl in Hlen. simpl. split; [by rewrite Hlen|].
      by apply (Hput (r :: rows) (r' :: rows')).
    + rewrite Hfresh, <- Hkeys, <- Hdom. done.
    + by rewrite Hfresh.
  - rewrite !bool_decide_false.
    + simpl in Hlen. simpl. split; [by rewrite Hlen | done].
    + by rewrite Hfresh, <- Hkeys, <- Hdom.
    + by rewrite Hfresh.
Qed.

(** Two runs that differ in the client only stay in step: same number of
    calls, same keys in the table, same counters. *)
Lemma main_step_in_step (c c' : client) pages r r' i :
  calls r = calls r' → dom (pages_chunks r) = dom (pages_chunks r') →
  total_chunks_success r = total_chunks_success r' →
  total_chunks_error r = total_chunks_error r' →
  let a := main_step tokenizer_encode c pages r i in
  let b := main_step tokenizer_encode c' pages r' i in
  calls a = calls b ∧ dom (pages_chunks a) = dom (pages_chunks b)
  ∧ total_chunks_success a = total_chunks_success b
  ∧ total_chunks_error a = total_chunks_error b.
Proof.
  intros Hcalls Hdom Hs He. unfold main_step. rewrite <- Hcalls.
  destruct (process_batch_keys c c' (slice pages i (i + BATCH_SIZE)) (calls r))
    as [Hk Hn].
  destruct (process_batch tokenizer_encode c _ _) as [rows n].
  destruct (process_batch tokenizer_encode c' _ _) as [rows' n'].
  simpl in Hk, Hn. subst n'.
  assert (Hne : truthy_list rows = truthy_list rows').
  { apply (f_equal length) in Hk. rewrite !length_fmap in Hk.
    by destruct rows, rows'. }
  rewrite <- Hne. destruct (truthy_list rows); [|done].
  destruct (upsert_chunks_keys (pages_chunks r) (pages_chunks r') rows rows'
              Hdom Hk) as [Hc Hd].
  destruct (upsert_chunks (pages_chunks r) rows) as [res t1].
  destruct (upsert_chunks (pages_chunks r') rows') as [res' t1'].
  simpl in Hc, Hd. subst res'. simpl. repeat split; congruence.
Qed.

(** The counters of a run do not depend on the client. *)
Lemma main_counters (c c' : client) pages t :
  total_chunks_success (main tokenizer_encode c pages t)
  = total_chunks_success (main tokenizer_encode c' pages t)
  ∧ total_chunks_error (main tokenizer_encode c pages t)
    = total_chunks_error (main tokenizer_encode c' pages t).
Proof.
  unfold main.
  assert (Hgen : ∀ js r r',
    calls r = calls r' → dom (pages_chunks r) = dom (pages_chunks r') →
    total_chunks_success r = total_chunks_success r' →
    total_chunks_error r = total_chunks_error r' →
    total_chunks_success (foldl (main_step tokenizer_encode c pages) r js)
    = total_chunks_success (foldl (main_step tokenizer_encode c' pages) r' js)
    ∧ total_chunks_error (foldl (main_step tokenizer_encode c pages) r js)
      = total_chunks_error (foldl (main_step tokenizer_encode c' pages) r' js)).
  { induction js as [|i js IH]; intros r r' Hcalls Hdom Hs He; [done|].
    cbn [foldl].
    destruct (main_step_in_step c c' pages r r' i Hcalls Hdom Hs He)
      as (? & ? & ? & ?).
    by apply IH. }
  by apply Hgen.
Qed.

End generate_props.

(** ** Claims about [generate_embeddings.py] *)
Section generate_claims.
Import Py Spec Store generate_embeddings.

(** C10. When the call to the embedding service raises,
    [generate_embedding] returns the vector of 1536 zeros; [process_page]
    puts that vector in the record of the chunk and still emits one record
    per chunk; and the success and error counters of a run are the same
    whatever the client does, so a failed embedding is counted nowhere. *)
Theorem embedding_failure_is_silent
    (tokenizer_encode : string → list nat) (c : client) :
  (∀ n text, c n text = Raised →
     generate_embedding c n text = replicate 1536 0%float)
  ∧ (∀ pg calls i row,
       (process_page tokenizer_encode c pg calls).1 !! i = Some row →
       c (calls + i) (content row) = Raised →
       embedding row = replicate 1536 0%float)
  ∧ (∀ pg calls md,
       markdown pg = Some md → whitespace_only md = false →
       (process_page tokenizer_encode Fixtures.always_raises pg calls).1
       = imap (λ i chunk,
                 {| url := page_url pg; chunk_idx := i; content := chunk;
                    tokens := None; embedding := replicate 1536 0%float |})
              (split_text_into_chunks tokenizer_encode md))
  ∧ (∀ c' pages t,
       total_chunks_success (main tokenizer_encode c pages t)
       = total_chunks_success (main tokenizer_encode c' pages t)
       ∧ total_chunks_error (main tokenizer_encode c pages t)
         = total_chunks_error (main tokenizer_encode c' pages t)).
Proof.
  split; [intros n text; apply generate_embedding_raised|].
  split; [|split].
  - intros pg calls i row. unfold process_page.
    destruct (markdown pg) as [md|]; [|done].
    destruct (negb (truthy_str md) || negb (truthy_str (strip md))); [done|].
    simpl. rewrite list_lookup_imap.
    destruct (split_text_into_chunks tokenizer_encode md !! i) as [chunk|]; [|done].
    simpl. intros [= <-]. simpl. apply generate_embedding_raised.
  - intros pg calls md Hmd Hws. unfold process_page. rewrite Hmd.
    destruct (negb (truthy_str md) || negb (truthy_str (strip md))) eqn:Hguard.
    + apply orb_prop in Hguard as [Hempty|Hstrip].
      * by destruct md.
      * rewrite strip_empty in Hws; [done|]. by destruct (strip md).
    + done.
  - intros c' pages t. apply main_counters.
Qed.

End generate_claims.

(** ** Concrete runs *)
Section examples.
Import Py Fixtures.

Example re_split_blank_line :
  re_split_blank_lines ("a" +:+ nl +:+ nl +:+ "b") = ["a"; "b"].
Proof. reflexivity. Qed.

(** The match ends with the last newline of the whitespace run: the
    spaces that follow stay with the next piece. *)
Example re_split_greedy :
  re_split_blank_lines ("a" +:+ nl +:+ " " +:+ nl +:+ " b") = ["a"; " b"].
Proof. reflexivity. Qed.

Example re_split_single_newline :
  re_split_blank_lines ("a" +:+ nl +:+ " b") = ["a" +:+ nl +:+ " b"].
Proof. reflexivity. Qed.

Example re_split_leading_and_trailing :
  re_split_blank_lines (nl +:+ nl +:+ nl +:+ "b" +:+ nl +:+ nl) = [""; "b"; ""].
Proof. reflexivity. Qed.

Example strip_both_ends : strip ("  a b " +:+ nl) = "a b".
Proof. reflexivity. Qed.

Example range_by_hundreds : range 0 250 100 = [0; 100; 200].
Proof. reflexivity. Qed.

Example slice_past_the_end : slice ["a"; "b"; "c"] 2 4 = ["c"].
Proof. reflexivity. Qed.

(** Carriage returns go before the split, so Windows blank lines split. *)
Example paragraphs_of_crlf :
  generate_embeddings.paragraphs_of
    (remove_cr ("a b" +:+ String "013" nl +:+ String "013" nl +:+ " c "))
  = ["a b"; "c"].
Proof. reflexivity. Qed.

(** Three paragraphs of 2 tokens, target 100, maximum 5: the third would
    make 6, so the first two are flushed before it is appended. *)
Example flush_before_append :
  generate_embeddings.split_text_into_chunks_at word_tokenizer 100 5
    ("a b" +:+ nl +:+ nl +:+ "c d" +:+ nl +:+ nl +:+ "e f")
  = ["a b c d"; "e f"].
Proof. reflexivity. Qed.

(** Target 3, maximum 5: the second paragraph brings the count to 4, at
    or above the target, so the chunk is flushed after it is appended. *)
Example flush_after_append :
  generate_embeddings.split_text_into_chunks_at word_tokenizer 3 5
    ("a b" +:+ nl +:+ nl +:+ "c d" +:+ nl +:+ nl +:+ "e f")
  = ["a b c d"; "e f"].
Proof. reflexivity. Qed.

Example sliding_window :
  langchain.split_text
    {| langchain._tokenizer := char_tokenizer;
       langchain.chunk_size := 4; langchain.chunk_overlap := 1 |}
    "abcdefghij"
  = ["abcd"; "defg"; "ghij"].
Proof. reflexivity. Qed.

(** Three rate-limit answers: three POSTs, sleeps of 1, 2 and 4 seconds
    (the last one before giving up), and no vectors. *)
Example rate_limited_three_times :
  embed_to_supabase.create_embedding
    (λ _ _, embed_to_supabase.Response 429 []) ["x"] 3
    {| embed_to_supabase.posts := []; embed_to_supabase.slept := [] |}
  = (None, {| embed_to_supabase.posts := [["x"]; ["x"]; ["x"]];
              embed_to_supabase.slept := [1; 2; 4] |}).
Proof. reflexivity. Qed.

(** Three server errors: three POSTs, sleeps of 1 and 2 seconds only. *)
Example server_error_three_times :
  embed_to_supabase.create_embedding
    (λ _ _, embed_to_supabase.Response 503 []) ["x"] 3
    {| embed_to_supabase.posts := []; embed_to_supabase.slept := [] |}
  = (None, {| embed_to_supabase.posts := [["x"]; ["x"]; ["x"]];
              embed_to_supabase.slept := [1; 2] |}).
Proof. reflexivity. Qed.

(** The navigation goes first; the [div] is found although it comes
    after the body's first child. *)
Example main_html_picks_the_container :
  let text := bs4.NavigableString in
  let doc :=
    bs4.Tag "[document]" ∅
      [bs4.Tag "body" ∅
         [bs4.Tag "nav" {["class" := "top fsNavigation"]} [text "menu"];
          bs4.Tag "div" {["id" := "fsPageContent"]} [text "hello"; text " world"]]] in
  crawl_hotchkiss.main_html (λ _, Some doc)
    (λ n, match n with bs4.NavigableString s => s | _ => "<tag>" end)
    "raw"
  = Some "hello world".
Proof. vm_compute. reflexivity. Qed.

Example main_html_without_body :
  crawl_hotchkiss.main_html strict_parser (λ _, "") "raw" = Some "raw".
Proof. reflexivity. Qed.

(** January 5, 2026: the text is [01052026] and the column keeps the
    number 1052026. *)
Example crawled_at_loses_the_leading_zero :
  let today := {| crawl_hotchkiss.tm_year := 2026;
                  crawl_hotchkiss.tm_mon := 1;
                  crawl_hotchkiss.tm_mday := 5 |} in
  crawl_hotchkiss.strftime_mdY today = "01052026"
  ∧ crawl_hotchkiss.integer_affinity (crawl_hotchkiss.strftime_mdY today)
    = 1052026%N.
Proof. vm_compute. done. Qed.

(** A run of [generate_embeddings.py] whose every embedding call raises:
    the chunk is stored with the zero vector and counted as a success. *)
Example silent_failure_run :
  let r := generate_embeddings.main word_tokenizer always_raises one_page ∅ in
  (generate_embeddings.total_chunks_success r,
   generate_embeddings.total_chunks_error r,
   Store.count (generate_embeddings.pages_chunks r),
   Store.embedding <$> generate_embeddings.pages_chunks r !! ("u", 0))
  = (1, 0, 1, Some generate_embeddings.zero_vector).
Proof. vm_compute. reflexivity. Qed.

(** A second run of [generate_embeddings.py] over the same page: the
    insert is rejected, the chunk is counted as an error and the table
    keeps its one row. *)
Example second_run_reports_errors :
  let r1 := generate_embeddings.main word_tokenizer always_raises one_page ∅ in
  let r2 := generate_embeddings.main word_tokenizer always_raises one_page
              (generate_embeddings.pages_chunks r1) in
  (generate_embeddings.total_chunks_success r2,
   generate_embeddings.total_chunks_error r2,
   Store.count (generate_embeddings.pages_chunks r2))
  = (0, 1, 1).
Proof. vm_compute. reflexivity. Qed.

End examples.


(** ** More on whitespace: what stripping and splitting keep *)
Section visible_props.
Import Py Spec.

Lemma string_app_assoc a b c : (a +:+ b) +:+ c = a +:+ b +:+ c.
Proof.
  induction a as [|x a IH]; [done|].
  change (String x ((a +:+ b) +:+ c) = String x (a +:+ b +:+ c)). by rewrite IH.
Qed.

Lemma visible_app a b : visible (a +:+ b) = visible a +:+ visible b.
Proof.
  induction a as [|c a IH]; [done|].
  change (visible (String c (a +:+ b)) = visible (String c a) +:+ visible b).
  simpl. rewrite IH. by destruct (isspace c).
Qed.

Lemma visible_whitespace_only s : whitespace_only s = true → visible s = EmptyString.
Proof.
  induction s as [|c s IH]; simpl; [done|].
  intros [Hc Hs]%andb_prop. rewrite Hc. by apply IH.
Qed.

Lemma visible_empty s : visible s = EmptyString → whitespace_only s = true.
Proof.
  induction s as [|c s IH]; simpl; [done|].
  destruct (isspace c); [exact IH | done].
Qed.

Lemma visible_lstrip s : visible (lstrip s) = visible s.
Proof.
  induction s as [|c s IH]; simpl; [done|].
  destruct (isspace c) eqn:Hc; simpl; [done | by rewrite Hc].
Qed.

Lemma visible_rstrip s : visible (rstrip s) = visible s.
Proof.
  induction s as [|c s IH]; simpl; [done|].
  destruct (rstrip s) as [|c' r] eqn:Hr.
  - simpl in IH. destruct (isspace c) eqn:Hc; simpl; rewrite ?Hc; by rewrite <- IH.
  - change (visible (String c (String c' r)) = visible (String c s)).
    simpl in *. by rewrite IH.
Qed.

Lemma visible_strip s : visible (strip s) = visible s.
Proof. unfold strip. by rewrite visible_rstrip, visible_lstrip. Qed.

Lemma is_cr_isspace c : is_cr c = true → isspace c = true.
Proof.
  unfold is_cr, isspace. intros ->%N.eqb_eq. reflexivity.
Qed.

Lemma is_newline_isspace c : is_newline c = true → isspace c = true.
Proof.
  unfold is_newline, isspace. intros ->%N.eqb_eq. reflexivity.
Qed.

Lemma visible_remove_cr s : visible (remove_cr s) = visible s.
Proof.
  induction s as [|c s IH]; simpl; [done|].
  destruct (is_cr c) eqn:Hc; simpl.
  - by rewrite (is_cr_isspace c Hc).
  - by rewrite IH.
Qed.

Lemma span_space_app s w r : span_space s = (w, r) → s = w +:+ r.
Proof.
  revert w r. induction s as [|c s IH]; simpl; intros w r.
  - by intros [= <- <-].
  - destruct (isspace c).
    + destruct (span_space s) as [w' r'] eqn:Es. intros [= <- <-].
      change (String c s = String c (w' +:+ r')). by rewrite (IH w' r').
    + by intros [= <- <-].
Qed.

(** A match of the blank-line pattern holds whitespace only. *)
Lemma visible_match_blank_line s rest :
  match_blank_line s = Some rest → visible rest = visible s.
Proof.
  destruct s as [|c s]; simpl; [done|].
  destruct (is_newline c) eqn:Hc; [|done].
  destruct (span_space s) as [w r] eqn:Es.
  destruct (after_last_newline w) as [t|] eqn:Et; [|done].
  intros [= <-]. rewrite (is_newline_isspace c Hc).
  rewrite (span_space_app s w r Es), !visible_app.
  pose proof (span_space_prefix s w r Es) as Hw.
  rewrite (visible_whitespace_only w Hw).
  by rewrite (visible_whitespace_only t (after_last_newline_whitespace w t Et Hw)).
Qed.

Lemma visible_join_cons p parts :
  visible (join EmptyString (p :: parts))
  = visible p +:+ visible (join EmptyString parts).
Proof.
  destruct parts as [|q parts].
  - simpl. by rewrite string_app_nil_r.
  - change (visible (p +:+ EmptyString +:+ join EmptyString (q :: parts))
            = visible p +:+ visible (join EmptyString (q :: parts))).
    by rewrite !visible_app.
Qed.

(** The pieces of [re.split] hold every visible character of the text,
    in order, whatever the fuel. *)
Lemma visible_re_split_scan fuel piece s :
  visible (join EmptyString (re_split_scan fuel piece s))
  = visible piece +:+ visible s.
Proof.
  revert piece s. induction fuel as [|fuel IH]; intros piece s.
  - simpl. apply visible_app.
  - cbn [re_split_scan]. destruct s as [|c s].
    + simpl. by rewrite string_app_nil_r.
    + destruct (match_blank_line (String c s)) as [rest|] eqn:Em.
      * rewrite visible_join_cons, IH.
        by rewrite <- (visible_match_blank_line _ _ Em).
      * rewrite IH, visible_app, string_app_assoc.
        by rewrite <- visible_app.
Qed.

(** Joining with a whitespace separator adds no visible character. *)
Lemma visible_join sep parts :
  whitespace_only sep = true →
  visible (join sep parts) = visible (join EmptyString parts).
Proof.
  intros Hsep. induction parts as [|p parts IH]; [done|].
  destruct parts as [|q parts]; [done|].
  change (visible (p +:+ sep +:+ join sep (q :: parts))
          = visible (p +:+ EmptyString +:+ join EmptyString (q :: parts))).
  rewrite !visible_app, IH. by rewrite (visible_whitespace_only sep Hsep).
Qed.

(** Stripping the pieces and dropping the empty ones loses nothing
    visible. *)
Lemma visible_stripped_pieces pieces :
  visible (join EmptyString (List.filter truthy_str (strip <$> pieces)))
  = visible (join EmptyString pieces).
Proof.
  induction pieces as [|p pieces IH]; [done|].
  rewrite fmap_cons. cbn [List.filter].
  rewrite (visible_join_cons p pieces), <- IH, <- (visible_strip p).
  destruct (strip p) as [|c q] eqn:Hp; cbn [truthy_str].
  - done.
  - by rewrite visible_join_cons.
Qed.

Lemma visible_concat_groups (groups : list (list string)) :
  visible (join EmptyString (join " " <$> groups))
  = visible (join EmptyString (concat groups)).
Proof.
  induction groups as [|g groups IH]; [done|].
  rewrite fmap_cons, visible_join_cons, IH, (visible_join " " g) by done.
  simpl concat. clear IH.
  induction g as [|p g IHg]; [done|].
  change ((p :: g) ++ concat groups) with (p :: (g ++ concat groups)).
  by rewrite !visible_join_cons, <- IHg, string_app_assoc.
Qed.

End visible_props.

(** ** More on stripping: what a stripped text looks like *)
Section strip_props.
Import Py Spec.

Lemma lstrip_length s : String.length (lstrip s) ≤ String.length s.
Proof.
  induction s as [|c s IH]; simpl; [done|].
  destruct (isspace c); simpl; lia.
Qed.

(** A non-empty text that [lstrip] leaves alone starts with a visible
    character. *)
Lemma lstrip_fixed_head s :
  s ≠ EmptyString → lstrip s = s →
  ∃ c s', s = String c s' ∧ isspace c = false.
Proof.
  destruct s as [|c s]; [done|]. intros _. simpl.
  destruct (isspace c) eqn:Hc; [|by eauto].
  intros H. pose proof (lstrip_length s) as Hlen. rewrite H in Hlen.
  simpl in Hlen. lia.
Qed.

Lemma lstrip_idemp s : lstrip (lstrip s) = lstrip s.
Proof.
  induction s as [|c s IH]; simpl; [done|].
  destruct (isspace c) eqn:Hc; simpl; [done | by rewrite Hc].
Qed.

Lemma rstrip_idemp s : rstrip (rstrip s) = rstrip s.
Proof.
  induction s as [|c s IH]; simpl; [done|].
  destruct (rstrip s) as [|c' r] eqn:Hr.
  - destruct (isspace c) eqn:Hc; simpl; [done | by rewrite Hc].
  - change (rstrip (String c (String c' r)) = String c (String c' r)).
    cbn [rstrip]. cbn [rstrip] in IH. by rewrite IH.
Qed.

Lemma rstrip_app a b :
  rstrip b ≠ EmptyString → rstrip (a +:+ b) = a +:+ rstrip b.
Proof.
  intros Hb. induction a as [|c a IH]; [done|].
  change (rstrip (String c (a +:+ b)) = String c (a +:+ rstrip b)).
  cbn [rstrip]. rewrite IH.
  destruct (a +:+ rstrip b) as [|c' r] eqn:Happ; [|done].
  destruct a; [|done]. by destruct (rstrip b).
Qed.

Lemma lstrip_rstrip s :
  lstrip s = s → lstrip (rstrip s) = rstrip s.
Proof.
  intros Hs. destruct (decide (rstrip s = EmptyString)) as [->|Hne]; [done|].
  destruct (lstrip_fixed_head s) as (c & s' & -> & Hc); [by intros ->| done |].
  cbn [rstrip]. destruct (rstrip s'); rewrite ?Hc; simpl; by rewrite Hc.
Qed.

(** What [strip] returns is left alone by [lstrip] and by [rstrip]. *)
Lemma strip_lstrip s : lstrip (strip s) = strip s.
Proof. unfold strip. apply lstrip_rstrip, lstrip_idemp. Qed.

Lemma strip_rstrip s : rstrip (strip s) = strip s.
Proof. unfold strip. apply rstrip_idemp. Qed.

(** A join by a space of non-empty stripped texts is non-empty and
    stripped. *)
Lemma join_stripped (g : list string) :
  g ≠ [] →
  Forall (λ p, p ≠ EmptyString ∧ lstrip p = p ∧ rstrip p = p) g →
  join " " g ≠ EmptyString
  ∧ lstrip (join " " g) = join " " g ∧ rstrip (join " " g) = join " " g.
Proof.
  intros Hne Hall. induction Hall as [|p g (Hp & Hl & Hr) Hg IH]; [done|].
  destruct g as [|q g]; [done|].
  destruct IH as (IHne & _ & IHr); [done|].
  destruct (lstrip_fixed_head p Hp Hl) as (c & p' & -> & Hc).
  change (join " " (String c p' :: q :: g))
    with (String c (p' +:+ " " +:+ join " " (q :: g))).
  split; [done|]. split; [simpl; by rewrite Hc|].
  change (String c (p' +:+ " " +:+ join " " (q :: g)))
    with (String c p' +:+ " " +:+ join " " (q :: g)).
  rewrite rstrip_app.
  - rewrite rstrip_app; by rewrite IHr.
  - rewrite rstrip_app; rewrite IHr; [|done]. by destruct (join " " (q :: g)).
Qed.

End strip_props.

(** ** More on the paragraph-aggregating chunker *)
Section chunker_more.
Import Py Spec generate_embeddings.
Context (tokenizer_encode : string → list nat) (target_tokens max_tokens : nat).

Local Abbreviation groups_from := (chunk_groups tokenizer_encode target_tokens max_tokens).
Local Abbreviation weight := (paragraph_tokens tokenizer_encode).
Local Abbreviation chunker := (split_text_into_chunks_at tokenizer_encode target_tokens max_tokens).

(** The chunks hold the visible characters of the text, all of them and
    in order. *)
Lemma visible_chunks text :
  visible (join EmptyString (chunker text)) = visible text.
Proof.
  rewrite split_text_into_chunks_at_groups, visible_concat_groups,
    concat_chunk_groups.
  simpl app. unfold paragraphs_of, re_split_blank_lines.
  rewrite visible_stripped_pieces, visible_re_split_scan.
  apply visible_remove_cr.
Qed.

(** Every paragraph is non-empty and stripped. *)
Lemma paragraphs_of_stripped text :
  Forall (λ p, p ≠ EmptyString ∧ lstrip p = p ∧ rstrip p = p) (paragraphs_of text).
Proof.
  unfold paragraphs_of. apply Forall_forall. intros p Hin.
  apply list_elem_of_In, filter_In in Hin as [Hin Hp].
  apply list_elem_of_In, list_elem_of_fmap in Hin as (piece & -> & _).
  split; [by destruct (strip piece)|].
  split; [apply strip_lstrip | apply strip_rstrip].
Qed.

(** A group that follows another starts with a paragraph; the open chunk,
    when there is one, is a prefix of the first group. *)
Lemma chunk_groups_head paragraphs current count p0 rest0 :
  current = p0 :: rest0 →
  ∃ g more, groups_from current count paragraphs = (p0 :: g) :: more.
Proof.
  revert current count rest0.
  induction paragraphs as [|p ps IH]; intros current count rest0 ->; simpl.
  - eauto.
  - destruct ((max_tokens <? _) && true); [eauto|].
    destruct (target_tokens <=? _); [eauto|]. by eapply IH.
Qed.

(** Greedy packing: a chunk is closed only when it has reached the target
    or when the next paragraph would take it over the maximum. *)
Lemma chunk_groups_packed paragraphs current count i g g' :
  count = weight current →
  groups_from current count paragraphs !! i = Some g →
  groups_from current count paragraphs !! S i = Some g' →
  target_tokens ≤ weight g
  ∨ ∃ p rest, g' = p :: rest
      ∧ max_tokens < weight g + length (tokenizer_encode p).
Proof.
  revert current count i.
  induction paragraphs as [|p ps IH]; intros current count i ->;
    cbn [chunk_groups].
  - destruct current; destruct i; done.
  - set (k := length (tokenizer_encode p)).
    assert (Hp : weight [p] = k) by (unfold paragraph_tokens; simpl; lia).
    destruct ((max_tokens <? weight current + k) && truthy_list current) eqn:Hmax.
    + apply andb_prop in Hmax as [Hover%Nat.ltb_lt _].
      destruct (target_tokens <=? k) eqn:Htarget.
      * destruct i as [|[|i]]; intros Hg Hg'; simpl in Hg, Hg'.
        -- injection Hg as <-. injection Hg' as <-. right. eauto.
        -- injection Hg as <-. left. rewrite Hp. by apply Nat.leb_le.
        -- by eapply (IH [] 0 i).
      * destruct i as [|i]; intros Hg Hg'; simpl in Hg, Hg'.
        -- injection Hg as <-. right.
           destruct (chunk_groups_head ps [p] k p [] eq_refl) as (x & more & Hhead).
           rewrite Hhead in Hg'. injection Hg' as <-. eauto.
        -- by eapply (IH [p] k i).
    + destruct (target_tokens <=? weight current + k) eqn:Htarget.
      * destruct i as [|i]; intros Hg Hg'; simpl in Hg, Hg'.
        -- injection Hg as <-. left. rewrite paragraph_tokens_snoc.
           by apply Nat.leb_le in Htarget.
        -- by eapply (IH [] 0 i).
      * apply (IH (current ++ [p])). by rewrite paragraph_tokens_snoc.
Qed.

(** Paragraphs that stay under the target and within the maximum all go
    to one chunk. *)
Lemma chunk_groups_small paragraphs current count :
  count = weight current →
  current ++ paragraphs ≠ [] →
  weight (current ++ paragraphs) < target_tokens →
  weight (current ++ paragraphs) ≤ max_tokens →
  groups_from current count paragraphs = [current ++ paragraphs].
Proof.
  revert current count.
  induction paragraphs as [|p ps IH]; intros current count -> Hne Hlt Hle; simpl.
  - rewrite app_nil_r in *. by destruct current.
  - set (k := length (tokenizer_encode p)).
    assert (Hw : weight current + k ≤ weight (current ++ p :: ps)).
    { unfold paragraph_tokens. rewrite sum_list_with_app. simpl. fold k. lia. }
    rewrite (proj2 (Nat.ltb_ge max_tokens (weight current + k))) by lia.
    rewrite (proj2 (Nat.leb_gt target_tokens (weight current + k))) by lia.
    simpl. rewrite (IH (current ++ [p])).
    + by rewrite <- app_assoc.
    + by rewrite paragraph_tokens_snoc.
    + by destruct current.
    + by rewrite <- app_assoc.
    + by rewrite <- app_assoc.
Qed.

End chunker_more.

(** ** Paragraphs: the pattern of the code and the blank lines of the
    specification *)
Section paragraph_props.
Import Py Spec generate_embeddings.

Local Abbreviation nl := (String "010" EmptyString).
Local Abbreviation blank l := (whitespace_only l = true).
Local Abbreviation para := (λ block : list string, strip (join nl block)).

Lemma is_newline_eq c : is_newline c = true → c = "010"%char.
Proof.
  unfold is_newline. intros H%N.eqb_eq.
  rewrite <- (ascii_N_embedding c), H. reflexivity.
Qed.

Lemma lstrip_blank_app ws x : blank ws → lstrip (ws +:+ x) = lstrip x.
Proof.
  induction ws as [|c ws IH]; [done|]. simpl. intros [Hc Hws]%andb_prop.
  change (lstrip (String c (ws +:+ x)) = lstrip x). simpl. rewrite Hc. auto.
Qed.

Lemma strip_blank_l ws x : blank ws → strip (ws +:+ x) = strip x.
Proof. intros H. unfold strip. by rewrite lstrip_blank_app. Qed.

Lemma lstrip_app_visible x y :
  whitespace_only x = false → lstrip (x +:+ y) = lstrip x +:+ y.
Proof.
  induction x as [|c x IH]; [done|]. simpl.
  change (String c x +:+ y) with (String c (x +:+ y)). simpl.
  destruct (isspace c); simpl; [auto | done].
Qed.

Lemma rstrip_blank ws : blank ws → rstrip ws = EmptyString.
Proof.
  induction ws as [|c ws IH]; [done|]. simpl. intros [Hc Hws]%andb_prop.
  by rewrite IH, Hc.
Qed.

Lemma rstrip_blank_app x ws : blank ws → rstrip (x +:+ ws) = rstrip x.
Proof.
  intros Hws. induction x as [|c x IH]; [by apply rstrip_blank|].
  change (rstrip (String c (x +:+ ws)) = rstrip (String c x)).
  cbn [rstrip]. by rewrite IH.
Qed.

Lemma strip_blank_r x ws : blank ws → strip (x +:+ ws) = strip x.
Proof.
  intros Hws. destruct (whitespace_only x) eqn:Hx.
  - rewrite !strip_whitespace_only; [done | done |].
    by rewrite whitespace_only_app, Hx, Hws.
  - unfold strip. rewrite lstrip_app_visible by done.
    by apply rstrip_blank_app.
Qed.

Lemma strip_visible x : whitespace_only x = false → truthy_str (strip x) = true.
Proof.
  intros Hx. destruct (strip x) eqn:Hs; [|done].
  apply strip_empty in Hs. congruence.
Qed.

Lemma join_cons sep x y l :
  join sep (x :: y :: l) = x +:+ sep +:+ join sep (y :: l).
Proof. done. Qed.

Lemma join_snoc sep l x :
  l ≠ [] → join sep (l ++ [x]) = join sep l +:+ sep +:+ x.
Proof.
  induction l as [|a l IH]; [done|]. intros _.
  destruct l as [|b l]; [done|]. specialize (IH ltac:(done)).
  change ((a :: b :: l) ++ [x]) with (a :: b :: (l ++ [x])).
  rewrite (join_cons sep a b (l ++ [x])), (join_cons sep a b l).
  change (b :: l ++ [x]) with ((b :: l) ++ [x]).
  rewrite IH. by rewrite !string_app_assoc.
Qed.

Lemma join_snoc_app sep l x y :
  join sep (l ++ [x]) +:+ y = join sep (l ++ [x +:+ y]).
Proof.
  destruct (decide (l = [])) as [->|Hl]; [done|].
  rewrite !join_snoc by done. by rewrite !string_app_assoc.
Qed.

Lemma whitespace_only_join l :
  whitespace_only (join nl l) = forallb whitespace_only l.
Proof.
  induction l as [|x l IH]; [done|]. destruct l as [|y l].
  - simpl. by rewrite andb_true_r.
  - rewrite join_cons, !whitespace_only_app, IH. done.
Qed.

Lemma join_visible l :
  Exists (λ x, whitespace_only x = false) l →
  whitespace_only (join nl l) = false.
Proof.
  intros H. rewrite whitespace_only_join.
  induction H as [x l Hx|x l _ IH]; simpl; [by rewrite Hx|].
  rewrite IH. apply andb_false_r.
Qed.

(** What follows the last newline of a text that has one. *)
Lemma after_last_newline_split w t :
  after_last_newline w = Some t → ∃ w1, w = w1 +:+ String "010" t.
Proof.
  revert t. induction w as [|c w IH]; intros t; simpl; [done|].
  destruct (after_last_newline w) as [t'|].
  - intros [= <-]. destruct (IH t' eq_refl) as [w1 ->].
    by exists (String c w1).
  - destruct (is_newline c) eqn:Hc; [|done]. intros [= <-].
    apply is_newline_eq in Hc as ->. by exists EmptyString.
Qed.

Lemma after_last_newline_head c w :
  is_newline c = true → after_last_newline (String c w) ≠ None.
Proof. intros Hc. simpl. rewrite Hc. by destruct (after_last_newline w). Qed.

Lemma after_last_newline_tail c w :
  after_last_newline (String c w) = None → after_last_newline w = None.
Proof. simpl. by destruct (after_last_newline w). Qed.

(** The lines of a blank text that a newline ends are blank. *)
Lemma lines_scan_blank w line rest :
  blank line → blank w →
  ∃ bl, bl ≠ [] ∧ Forall (λ l, blank l) bl
        ∧ lines_scan line (w +:+ String "010" rest)
          = bl ++ lines_scan EmptyString rest.
Proof.
  revert line. induction w as [|c w IH]; intros line Hline Hw.
  - exists [line]. split; [done|]. split; [by constructor | done].
  - simpl in Hw. apply andb_prop in Hw as [Hc Hw].
    change (String c w +:+ String "010" rest)
      with (String c (w +:+ String "010" rest)).
    cbn [lines_scan]. destruct (is_newline c).
    + destruct (IH EmptyString eq_refl Hw) as (bl & _ & Hbl & ->).
      exists (line :: bl). split; [done|]. split; [by constructor | done].
    + apply IH; [|done]. by rewrite whitespace_only_app, Hline; simpl; rewrite Hc.
Qed.

Lemma blocks_blank bl ls :
  Forall (λ l, blank l) bl → blocks [] (bl ++ ls) = blocks [] ls.
Proof. induction 1 as [|l bl Hl _ IH]; [done|]. simpl. by rewrite Hl. Qed.

Lemma blocks_close block bl ls :
  block ≠ [] → bl ≠ [] → Forall (λ l, blank l) bl →
  blocks block (bl ++ ls) = block :: blocks [] ls.
Proof.
  intros Hblock Hne Hbl. destruct Hbl as [|l bl Hl Hbl]; [done|].
  simpl. rewrite Hl. destruct block; [done|]. simpl.
  by rewrite blocks_blank.
Qed.

Lemma in_step_newline piece block line c s :
  in_step piece block line (String c s) → is_newline c = true →
  blank line → block = [].
Proof.
  intros (_ & _ & Hnext) Hc Hline.
  destruct (decide (block = [])) as [|Hne]; [done|]. exfalso.
  specialize (Hnext Hne Hline). simpl in Hnext.
  rewrite (is_newline_isspace c Hc) in Hnext.
  destruct (span_space s) as [w r]. simpl in Hnext.
  by apply (after_last_newline_head c w Hc).
Qed.

Lemma strip_piece piece block line s :
  in_step piece block line s → whitespace_only line = false →
  strip piece = para (block ++ [line])
  ∧ truthy_str (strip piece) = true.
Proof.
  intros ((ws & Hws & ->) & _ & _) Hline.
  rewrite strip_blank_l by done. split; [done|].
  apply strip_visible, join_visible, Exists_app. right. by constructor.
Qed.

(** At the end of the text. *)
Lemma in_step_end piece block line :
  in_step piece block line EmptyString →
  List.filter truthy_str (strip <$> [piece])
  = para <$> blocks block [line].
Proof.
  intros Hstep.
  change (List.filter truthy_str (strip <$> [piece]))
    with (if truthy_str (strip piece) then [strip piece] else []).
  simpl blocks. destruct (whitespace_only line) eqn:Hline.
  - destruct Hstep as ((ws & Hws & ->) & Hblock & _).
    destruct block as [|l block]; simpl truthy_list; cbv iota.
    + rewrite strip_whitespace_only; [done|]. simpl app. simpl join.
      by rewrite whitespace_only_app, Hws, Hline.
    + rewrite join_snoc by done.
      rewrite strip_blank_l by done.
      rewrite strip_blank_r
        by (rewrite whitespace_only_app; simpl; by rewrite Hline).
      rewrite strip_visible; [done|].
      apply join_visible. apply Forall_cons in Hblock as [Hl _].
      by constructor.
  - destruct (strip_piece _ _ _ _ Hstep Hline) as [Hstrip Htruthy].
    rewrite Htruthy, Hstrip. by destruct block.
Qed.

(** The two scans give the same paragraphs. *)
Lemma scans_agree fuel s piece block line :
  String.length s ≤ fuel → in_step piece block line s →
  List.filter truthy_str (strip <$> re_split_scan fuel piece s)
  = para <$> blocks block (lines_scan line s).
Proof.
  revert s piece block line.
  induction fuel as [|fuel IH]; intros s piece block line Hfuel Hstep.
  { destruct s; [|simpl in Hfuel; lia]. simpl re_split_scan.
    rewrite string_app_nil_r. by apply in_step_end. }
  destruct s as [|c s]; [by apply in_step_end|].
  cbn [re_split_scan]. destruct (match_blank_line (String c s)) as [rest|] eqn:Hm.
  - (* a blank line: the piece ends here *)
    pose proof (match_blank_line_shorter _ _ Hm) as Hshort.
    simpl in Hm. destruct (is_newline c) eqn:Hc; [|done].
    destruct (span_space s) as [w r] eqn:Hspan.
    destruct (after_last_newline w) as [t|] eqn:Ht; [|done].
    injection Hm as <-.
    destruct (after_last_newline_split w t Ht) as [w1 Hw].
    assert (Hw1 : blank w1).
    { pose proof (span_space_prefix s w r Hspan) as Hblank.
      rewrite Hw, whitespace_only_app in Hblank.
      by apply andb_prop in Hblank as [? _]. }
    destruct (lines_scan_blank w1 EmptyString (t +:+ r) eq_refl Hw1)
      as (bl & Hne & Hbl & Hlines).
    assert (Hs : s = w1 +:+ String "010" (t +:+ r)).
    { rewrite (span_space_app s w r Hspan), Hw, string_app_assoc. done. }
    cbn [lines_scan]. rewrite Hc, Hs, Hlines.
    assert (Hrest : List.filter truthy_str
                      (strip <$> re_split_scan fuel EmptyString (t +:+ r))
                    = para <$> blocks [] (lines_scan EmptyString (t +:+ r))).
    { apply IH; [simpl in Hshort, Hfuel; lia|].
      split; [by exists EmptyString|]. split; [constructor | done]. }
    csimpl. cbn [blocks]. destruct (whitespace_only line) eqn:Hline.
    + pose proof (in_step_newline _ _ _ _ _ Hstep Hc Hline) as Hb. subst block.
      destruct Hstep as ((ws & Hws & ->) & _ & _).
      simpl truthy_list. cbv iota. rewrite blocks_blank by done.
      cbn [app join]. rewrite strip_whitespace_only
        by (by rewrite whitespace_only_app, Hws, Hline).
      simpl. exact Hrest.
    + destruct (strip_piece _ _ _ _ Hstep Hline) as [Hstrip Htruthy].
      rewrite blocks_close; [|by destruct block | done | done].
      rewrite Htruthy. csimpl. by rewrite Hstrip, Hrest.
  - (* no blank line here: the character joins the piece *)
    cbn [lines_scan]. destruct (is_newline c) eqn:Hc.
    + (* a newline that the next visible line follows *)
      assert (Hnext : after_last_newline (span_space s).1 = None).
      { simpl in Hm. rewrite Hc in Hm. destruct (span_space s) as [w r].
        simpl. by destruct (after_last_newline w). }
      apply is_newline_eq in Hc as Hceq. subst c.
      cbn [blocks]. destruct (whitespace_only line) eqn:Hline.
      * pose proof (in_step_newline _ _ _ _ _ Hstep Hc Hline) as Hb. subst block.
        simpl truthy_list. cbv iota.
        apply IH; [simpl in Hfuel; lia|].
        destruct Hstep as ((ws & Hws & ->) & _ & _).
        split; [|split; [constructor | done]].
        exists (ws +:+ line +:+ nl). split.
        -- by rewrite !whitespace_only_app, Hws, Hline.
        -- simpl. by rewrite string_app_nil_r, !string_app_assoc.
      * apply IH; [simpl in Hfuel; lia|].
        destruct Hstep as ((ws & Hws & ->) & Hblock & _).
        split; [|split].
        -- exists ws. split; [done|].
           rewrite (join_snoc nl (block ++ [line])) by (by destruct block).
           by rewrite string_app_nil_r, !string_app_assoc.
        -- apply Forall_app. split; [done | by constructor].
        -- intros _ _. exact Hnext.
    + (* a character of the open line *)
      apply IH; [simpl in Hfuel; lia|].
      destruct Hstep as ((ws & Hws & ->) & Hblock & Hnext).
      split; [|split; [done|]].
      * exists ws. split; [done|].
        by rewrite string_app_assoc, join_snoc_app.
      * intros Hne Hline. rewrite whitespace_only_app in Hline.
        apply andb_prop in Hline as [Hline Hcs]. simpl in Hcs.
        rewrite andb_true_r in Hcs.
        specialize (Hnext Hne Hline). simpl in Hnext. rewrite Hcs in Hnext.
        destruct (span_space s) as [w r]. simpl in *.
        by apply (after_last_newline_tail c w).
Qed.

(** The paragraphs the code splits a text into are the paragraphs that
    blank lines delimit. *)
Lemma paragraphs_of_paragraphs (text : string) :
  paragraphs_of text = paragraphs text.
Proof.
  unfold paragraphs_of, paragraphs, re_split_blank_lines, lines.
  apply scans_agree; [done|].
  split; [by exists EmptyString|]. split; [constructor | done].
Qed.

End paragraph_props.

(** ** Claims about paragraphs *)
Section paragraph_claims.
Import Py Spec generate_embeddings.

(** A paragraph on its own is a group, whatever its token count. *)
Lemma chunk_groups_single (tokenizer_encode : string → list nat)
    (target_tokens max_tokens : nat) (p : string) :
  chunk_groups tokenizer_encode target_tokens max_tokens [] 0 [p] = [[p]].
Proof.
  simpl. rewrite andb_false_r.
  by destruct (target_tokens <=? length (tokenizer_encode p)).
Qed.

(** C5. For every text, tokenizer, target and maximum, the chunks of the
    paragraph-aggregating chunker are the joins of consecutive groups of
    whole paragraphs: the paragraphs of the text, as its blank lines
    delimit them (the text being read without its carriage returns), are
    cut into non-empty groups, in order, and every chunk is one group
    joined by single spaces. So every paragraph lies whole in exactly one
    chunk, whatever its token count. *)
Theorem paragraphs_are_never_split
    (tokenizer_encode : string → list nat) (target_tokens max_tokens : nat)
    (text : string) :
  ∃ groups : list (list string),
    concat groups = paragraphs (remove_cr text)
    ∧ Forall (λ g, g ≠ []) groups
    ∧ split_text_into_chunks_at tokenizer_encode target_tokens max_tokens text
      = join " " <$> groups.
Proof.
  exists (chunk_groups tokenizer_encode target_tokens max_tokens [] 0
            (paragraphs_of (remove_cr text))).
  split; [|split].
  - rewrite <- paragraphs_of_paragraphs. apply concat_chunk_groups.
  - apply chunk_groups_nonempty.
  - apply split_text_into_chunks_at_groups.
Qed.

Lemma paragraphs_are_never_split_witness :
  let text := "a b c d e" +:+ Fixtures.nl +:+ " " +:+ Fixtures.nl
              +:+ "f g" +:+ Fixtures.nl +:+ "h" in
  paragraphs (remove_cr text) = ["a b c d e"; "f g" +:+ Fixtures.nl +:+ "h"]
  ∧ split_text_into_chunks_at Fixtures.word_tokenizer 3 4 text
    = ["a b c d e"; "f g" +:+ Fixtures.nl +:+ "h"]
  ∧ ∃ groups : list (list string),
      concat groups = ["a b c d e"; "f g" +:+ Fixtures.nl +:+ "h"]
      ∧ Forall (λ g, g ≠ []) groups
      ∧ split_text_into_chunks_at Fixtures.word_tokenizer 3 4 text
        = join " " <$> groups.
Proof.
  intros text. split; [reflexivity|]. split; [reflexivity|].
  exact (paragraphs_are_never_split Fixtures.word_tokenizer 3 4 text).
Defined.

(** C1 fails in [split_text_into_chunks], whose constant of 500 is
    commented as the maximum of tokens per chunk: a text of one paragraph
    comes back as that paragraph, whatever its token count, so a paragraph
    of 501 one-token words is a chunk of 501 tokens; and since the chunker
    adds up the counts of the paragraphs and never counts the tokens of
    the chunk it joins, two paragraphs of 250 tokens can make a chunk of
    501. The sibling [split_text] drops every chunk above its maximum of
    450. *)
Theorem lone_paragraph_exceeds_maximum :
  (∀ (tokenizer_encode : string → list nat) (text p : string),
     paragraphs (remove_cr text) = [p] →
     split_text_into_chunks tokenizer_encode text = [p])
  ∧ (let text := repeat_str "a " 501 in
     paragraphs (remove_cr text) = [strip text]
     ∧ split_text_into_chunks Fixtures.word_tokenizer text = [strip text]
     ∧ length (Fixtures.word_tokenizer (strip text)) = 501
     ∧ MAX_TOKENS_PER_CHUNK < 501)
  ∧ (let encode := langchain.tk_encode Fixtures.char_tokenizer in
     let text := repeat_str "a" 250 +:+ Fixtures.nl +:+ Fixtures.nl
                 +:+ repeat_str "b" 250 in
     let chunk := repeat_str "a" 250 +:+ " " +:+ repeat_str "b" 250 in
     paragraphs (remove_cr text) = [repeat_str "a" 250; repeat_str "b" 250]
     ∧ split_text_into_chunks encode text = [chunk]
     ∧ length (encode (repeat_str "a" 250))
       + length (encode (repeat_str "b" 250)) = 500
     ∧ length (encode chunk) = 501)
  ∧ (∀ (cl100k_base : langchain.tokenizer) (text : string) c,
       c ∈ embed_to_supabase.split_text cl100k_base text →
       embed_to_supabase.token_count c
       = length (langchain.tk_encode cl100k_base (embed_to_supabase.text c))
       ∧ embed_to_supabase.token_count c ≤ 450).
Proof.
  split; [|split; [|split]].
  - intros tokenizer_encode text p Hp. unfold split_text_into_chunks.
    rewrite split_text_into_chunks_at_groups, paragraphs_of_paragraphs, Hp.
    by rewrite chunk_groups_single.
  - vm_compute. repeat split; lia.
  - vm_compute. repeat split; lia.
  - intros cl100k_base text c. apply split_text_bound.
Qed.

End paragraph_claims.

(** ** Further properties of the paragraph-aggregating chunker *)
Section chunker_theorems.
Import Py Spec generate_embeddings.

(** X1. The chunker loses and invents no text: the characters of the
    chunks that are not whitespace are those of the input, all of them and
    in the same order. *)
Theorem chunks_keep_every_visible_character
    (tokenizer_encode : string → list nat) (text : string) :
  visible (join EmptyString (split_text_into_chunks tokenizer_encode text))
  = visible text.
Proof. apply visible_chunks. Qed.

(** X2. The chunker returns no chunk exactly when the text is empty or
    whitespace-only: any text with a visible character yields a chunk. *)
Theorem no_chunk_iff_whitespace_only
    (tokenizer_encode : string → list nat) (text : string) :
  split_text_into_chunks tokenizer_encode text = [] ↔ whitespace_only text = true.
Proof.
  split.
  - intros Hnil. apply visible_empty.
    rewrite <- (visible_chunks tokenizer_encode TARGET_TOKENS_PER_CHUNK
                  MAX_TOKENS_PER_CHUNK text).
    unfold split_text_into_chunks in Hnil. by rewrite Hnil.
  - apply split_text_into_chunks_at_whitespace_only.
Qed.

(** X3. Every chunk is a non-empty text without leading or trailing
    whitespace. *)
Theorem chunks_are_nonempty_and_stripped
    (tokenizer_encode : string → list nat) (text : string) :
  Forall (λ chunk, chunk ≠ EmptyString ∧ strip chunk = chunk)
         (split_text_into_chunks tokenizer_encode text).
Proof.
  unfold split_text_into_chunks.
  rewrite split_text_into_chunks_at_groups. apply Forall_fmap.
  pose proof (chunk_groups_nonempty tokenizer_encode TARGET_TOKENS_PER_CHUNK
                MAX_TOKENS_PER_CHUNK (paragraphs_of (remove_cr text)) [] 0) as Hne.
  pose proof (concat_chunk_groups tokenizer_encode TARGET_TOKENS_PER_CHUNK
                MAX_TOKENS_PER_CHUNK (paragraphs_of (remove_cr text)) [] 0) as Hcat.
  pose proof (paragraphs_of_stripped (remove_cr text)) as Hps.
  simpl app in Hcat. rewrite <- Hcat in Hps.
  revert Hne Hps. generalize (chunk_groups tokenizer_encode TARGET_TOKENS_PER_CHUNK
                                MAX_TOKENS_PER_CHUNK [] 0 (paragraphs_of (remove_cr text))).
  intros groups Hne. induction Hne as [|g groups Hg _ IH]; intros Hps; [done|].
  simpl in Hps. apply Forall_app in Hps as [Hgp Hrest].
  constructor; [|by apply IH].
  destruct (join_stripped g Hg Hgp) as (Hj & Hl & Hr).
  simpl. split; [done|]. unfold strip. by rewrite Hl, Hr.
Qed.

(** X4. Chunks are packed greedily: a chunk that is followed by another
    has reached the target of 400 tokens, or the first paragraph of the
    next chunk would have taken it above the maximum of 500 (token counts
    being the sums of paragraph counts that the chunker keeps). *)
Theorem chunks_are_packed
    (tokenizer_encode : string → list nat) (text : string) :
  let groups :=
    chunk_groups tokenizer_encode TARGET_TOKENS_PER_CHUNK MAX_TOKENS_PER_CHUNK
      [] 0 (paragraphs_of (remove_cr text)) in
  split_text_into_chunks tokenizer_encode text = join " " <$> groups
  ∧ ∀ i g g',
      groups !! i = Some g → groups !! S i = Some g' →
      400 ≤ paragraph_tokens tokenizer_encode g
      ∨ ∃ p rest, g' = p :: rest
          ∧ 500 < paragraph_tokens tokenizer_encode g + length (tokenizer_encode p).
Proof.
  intros groups. split; [apply split_text_into_chunks_at_groups|].
  intros i g g'.
  by apply (chunk_groups_packed tokenizer_encode TARGET_TOKENS_PER_CHUNK
              MAX_TOKENS_PER_CHUNK).
Qed.

(** X5. A text whose paragraphs add up to fewer than 400 tokens comes back
    as a single chunk: all its paragraphs joined by single spaces. *)
Theorem short_text_is_one_chunk
    (tokenizer_encode : string → list nat) (text : string) :
  paragraphs_of (remove_cr text) ≠ [] →
  paragraph_tokens tokenizer_encode (paragraphs_of (remove_cr text)) < 400 →
  split_text_into_chunks tokenizer_encode text
  = [join " " (paragraphs_of (remove_cr text))].
Proof.
  intros Hne Hlt. unfold split_text_into_chunks.
  rewrite split_text_into_chunks_at_groups.
  rewrite (chunk_groups_small tokenizer_encode TARGET_TOKENS_PER_CHUNK
             MAX_TOKENS_PER_CHUNK); try done.
  simpl app. unfold MAX_TOKENS_PER_CHUNK. lia.
Qed.

Lemma short_text_is_one_chunk_witness :
  split_text_into_chunks Fixtures.word_tokenizer
    ("a b" +:+ Fixtures.nl +:+ Fixtures.nl +:+ " c d ")
  = ["a b c d"].
Proof.
  refine (short_text_is_one_chunk Fixtures.word_tokenizer
            ("a b" +:+ Fixtures.nl +:+ Fixtures.nl +:+ " c d ") _ _).
  - discriminate.
  - vm_compute. lia.
Defined.

End chunker_theorems.

(** ** More on the retry loop *)
Section retry_props.
Import Py Spec embed_to_supabase.
Context (svc : service) (texts : list string) (retries : nat).

(** The sleeps of the loop are powers of two from [2 ^ attempt] up; they
    add up to less than the next power. *)
Lemma attempts_sleep_bound remaining attempt w :
  ∃ sl, slept (attempts svc texts retries remaining attempt w).2 = slept w ++ sl
        ∧ sum_list sl + 2 ^ attempt ≤ 2 ^ (attempt + remaining).
Proof.
  revert attempt w. induction remaining as [|remaining IH]; intros attempt w.
  - exists []. simpl. rewrite app_nil_r, Nat.add_0_r. split; [done | lia].
  - assert (Hpow : 2 ^ attempt + 2 ^ attempt = 2 ^ S attempt) by (simpl; lia).
    assert (Hmono : 2 ^ attempt ≤ 2 ^ (attempt + S remaining))
      by (apply Nat.pow_le_mono_r; lia).
    assert (Hnext : ∀ w' pre, slept w' = slept w ++ pre →
              sum_list pre ≤ 2 ^ attempt →
              ∃ sl, slept (attempts svc texts retries remaining (S attempt) w').2
                    = slept w ++ sl
                    ∧ sum_list sl + 2 ^ attempt ≤ 2 ^ (attempt + S remaining)).
    { intros w' pre Hw' Hpre. destruct (IH (S attempt) w') as (sl & Hsl & Hsum).
      exists (pre ++ sl). rewrite Hsl, Hw', <- app_assoc. split; [done|].
      rewrite sum_list_with_app.
      replace (attempt + S remaining) with (S attempt + remaining) by lia. lia. }
    assert (Hstop : ∀ res : option (list vec),
              ∃ sl, slept (res, post texts w).2 = slept w ++ sl
                    ∧ sum_list sl + 2 ^ attempt ≤ 2 ^ (attempt + S remaining)).
    { intros res. exists []. simpl. by rewrite app_nil_r. }
    assert (Hslept : ∀ w' pre, slept w' = slept w ++ pre →
              sum_list pre ≤ 2 ^ attempt →
              ∃ pre', slept (if attempt <? retries - 1
                             then sleep (2 ^ attempt) w' else w')
                      = slept w ++ pre' ∧ sum_list pre' ≤ 2 ^ attempt + sum_list pre).
    { intros w' pre Hw' _. destruct (attempt <? retries - 1).
      - exists (pre ++ [2 ^ attempt]). simpl. rewrite Hw', <- app_assoc.
        split; [done|]. rewrite sum_list_with_app. simpl. lia.
      - exists pre. split; [done | lia]. }
    cbn [attempts].
    destruct (svc (length (posts w)) texts) as [code body|].
    + destruct (code =? 200)%Z; [apply Hstop|].
      destruct (code =? 429)%Z.
      { apply (Hnext _ [2 ^ attempt]); simpl; [done | lia]. }
      destruct (500 <=? code)%Z; [|apply Hstop].
      destruct (Hslept (post texts w) [] ltac:(by rewrite app_nil_r) ltac:(simpl; lia))
        as (pre' & Hpre' & Hsum).
      apply (Hnext _ pre'); [done | simpl in Hsum; lia].
    + destruct (Hslept (post texts w) [] ltac:(by rewrite app_nil_r) ltac:(simpl; lia))
        as (pre' & Hpre' & Hsum).
      apply (Hnext _ pre'); [done | simpl in Hsum; lia].
Qed.

(** What the loop returns is what the first 200 carries; without a 200 it
    returns [None]. *)
Lemma attempts_outcome remaining attempt w :
  match (attempts svc texts retries remaining attempt w).1 with
  | Some body =>
      ∃ k, k < remaining
        ∧ posts (attempts svc texts retries remaining attempt w).2
          = posts w ++ replicate (S k) texts
        ∧ svc (length (posts w) + k) texts = Response 200 body
        ∧ ∀ i b, i < k → svc (length (posts w) + i) texts ≠ Response 200 b
  | None =>
      ∃ k, k ≤ remaining
        ∧ posts (attempts svc texts retries remaining attempt w).2
          = posts w ++ replicate k texts
        ∧ ∀ i b, i < k → svc (length (posts w) + i) texts ≠ Response 200 b
  end.
Proof.
  revert attempt w. induction remaining as [|remaining IH]; intros attempt w.
  - simpl. exists 0. rewrite app_nil_r. repeat split; [lia|]. intros; lia.
  - set (n0 := length (posts w)).
    assert (Hnext : ∀ w', posts w' = posts w ++ [texts] →
              (∀ b, svc n0 texts ≠ Response 200 b) →
              match (attempts svc texts retries remaining (S attempt) w').1 with
              | Some body =>
                  ∃ k, k < S remaining
                    ∧ posts (attempts svc texts retries remaining (S attempt) w').2
                      = posts w ++ replicate (S k) texts
                    ∧ svc (n0 + k) texts = Response 200 body
                    ∧ ∀ i b, i < k → svc (n0 + i) texts ≠ Response 200 b
              | None =>
                  ∃ k, k ≤ S remaining
                    ∧ posts (attempts svc texts retries remaining (S attempt) w').2
                      = posts w ++ replicate k texts
                    ∧ ∀ i b, i < k → svc (n0 + i) texts ≠ Response 200 b
              end).
    { intros w' Hw' Hfirst. specialize (IH (S attempt) w').
      assert (Hlen : length (posts w') = S n0)
        by (rewrite Hw', length_app; simpl; unfold n0; lia).
      rewrite Hlen in IH.
      assert (Hearlier : ∀ k, (∀ i b, i < k → svc (S n0 + i) texts ≠ Response 200 b) →
                ∀ i b, i < S k → svc (n0 + i) texts ≠ Response 200 b).
      { intros k Hk i b Hi. destruct i as [|i].
        - rewrite Nat.add_0_r. apply Hfirst.
        - replace (n0 + S i) with (S n0 + i) by lia. apply Hk. lia. }
      destruct (attempts svc texts retries remaining (S attempt) w').1 as [body|].
      - destruct IH as (k & Hk & Hposts & Hok & Hnot).
        exists (S k). split; [lia|]. split.
        { rewrite Hposts, Hw', <- app_assoc. done. }
        split; [by replace (n0 + S k) with (S n0 + k) by lia|].
        by apply Hearlier.
      - destruct IH as (k & Hk & Hposts & Hnot).
        exists (S k). split; [lia|]. split.
        { rewrite Hposts, Hw', <- app_assoc. done. }
        by apply Hearlier. }
    cbn [attempts]. fold n0.
    destruct (svc n0 texts) as [code body|] eqn:Hresp.
    + destruct (Z.eqb_spec code 200) as [->|Hne].
      * simpl. exists 0. split; [lia|]. split; [done|].
        split; [by rewrite Nat.add_0_r|]. intros; lia.
      * assert (Hfirst : ∀ b, Response code body ≠ Response 200 b) by congruence.
        destruct (code =? 429)%Z; [by apply Hnext|].
        destruct (500 <=? code)%Z.
        -- apply Hnext; [by destruct (attempt <? retries - 1) | done].
        -- simpl. exists 1. split; [lia|]. split; [done|].
           intros i b Hi. replace i with 0 by lia.
           rewrite Nat.add_0_r, Hresp. apply Hfirst.
    + apply Hnext; [by destruct (attempt <? retries - 1) | done].
Qed.

(** Nothing but 429: every iteration POSTs and sleeps, the last one
    included. *)
Lemma attempts_always_limited remaining attempt w :
  (∀ n, ∃ body, svc n texts = Response 429 body) →
  attempts svc texts retries remaining attempt w
  = (None, {| posts := posts w ++ replicate remaining texts;
              slept := slept w ++ ((λ a, 2 ^ a) <$> seq attempt remaining) |}).
Proof.
  intros Hsvc. revert attempt w.
  induction remaining as [|remaining IH]; intros attempt w.
  - simpl. rewrite !app_nil_r. by destruct w.
  - cbn [attempts]. destruct (Hsvc (length (posts w))) as [body ->].
    simpl Z.eqb. cbv iota. rewrite IH. simpl. by rewrite <- !app_assoc.
Qed.

(** Nothing but server errors and connection failures: every iteration
    POSTs, and every one but the last sleeps. *)
Lemma attempts_always_failing remaining attempt w :
  (∀ n, svc n texts = RequestException
        ∨ ∃ code body, svc n texts = Response code body ∧ (500 ≤ code)%Z) →
  attempt + remaining = retries →
  attempts svc texts retries remaining attempt w
  = (None, {| posts := posts w ++ replicate remaining texts;
              slept := slept w ++ ((λ a, 2 ^ a) <$> seq attempt (remaining - 1)) |}).
Proof.
  intros Hsvc. revert attempt w.
  induction remaining as [|remaining IH]; intros attempt w Hsum.
  - simpl. rewrite !app_nil_r. by destruct w.
  - cbn [attempts].
    assert (Hnext : attempts svc texts retries remaining (S attempt)
                      (if attempt <? retries - 1
                       then sleep (2 ^ attempt) (post texts w) else post texts w)
                    = (None, {| posts := posts w ++ replicate (S remaining) texts;
                                slept := slept w
                                  ++ ((λ a, 2 ^ a) <$> seq attempt (S remaining - 1)) |})).
    { rewrite IH by lia. destruct remaining as [|remaining].
      - rewrite (proj2 (Nat.ltb_ge attempt (retries - 1))) by lia.
        simpl. by rewrite !app_nil_r.
      - rewrite (proj2 (Nat.ltb_lt attempt (retries - 1))) by lia.
        simpl. rewrite Nat.sub_0_r. by rewrite <- !app_assoc. }
    destruct (Hsvc (length (posts w))) as [->|(code & body & -> & Hcode)];
      [exact Hnext|].
    destruct (Z.eqb_spec code 200); [lia|].
    destruct (Z.eqb_spec code 429); [lia|].
    destruct (Z.leb_spec 500 code); [exact Hnext | lia].
Qed.

End retry_props.

(** ** Further properties of [create_embedding] *)
Section create_embedding_theorems.
Import Py Spec embed_to_supabase.

(** X6. Whatever the service does, a call of [create_embedding] makes at
    most [retries] POSTs, all of them with the texts it was given, and
    sleeps less than [2 ^ retries] seconds in all (at most 3 POSTs and 7
    seconds with the default of 3). *)
Theorem create_embedding_is_bounded (svc : service) (texts : list string)
    (retries : nat) (w : world) :
  ∃ k sl,
    k ≤ retries
    ∧ posts (create_embedding svc texts retries w).2 = posts w ++ replicate k texts
    ∧ slept (create_embedding svc texts retries w).2 = slept w ++ sl
    ∧ sum_list sl < 2 ^ retries.
Proof.
  unfold create_embedding. destruct texts as [|x texts]; simpl negb; cbv iota.
  - exists 0, []. simpl. rewrite !app_nil_r. repeat split; [lia|].
    pose proof (Nat.pow_nonzero 2 retries). lia.
  - destruct (attempts_posts svc (x :: texts) retries retries 0 w)
      as (k & Hk & _ & Hposts).
    destruct (attempts_sleep_bound svc (x :: texts) retries retries 0 w)
      as (sl & Hsl & Hsum).
    exists k, sl. simpl in Hsum. repeat split; [done..|lia].
Qed.

(** X7. [create_embedding] returns vectors only from a 200: on texts that
    are not empty, a result [Some body] is the body of the first POST of
    the call that was answered 200, no POST follows it, and a result
    [None] means that none of the POSTs made was answered 200. On no text
    at all it returns the empty list without a POST. *)
Theorem create_embedding_returns_first_success (svc : service)
    (texts : list string) (retries : nat) (w : world) :
  match (create_embedding svc texts retries w).1 with
  | Some body =>
      (texts = [] ∧ body = [] ∧ (create_embedding svc texts retries w).2 = w)
      ∨ ∃ k, k < retries
          ∧ posts (create_embedding svc texts retries w).2
            = posts w ++ replicate (S k) texts
          ∧ svc (length (posts w) + k) texts = Response 200 body
          ∧ ∀ i b, i < k → svc (length (posts w) + i) texts ≠ Response 200 b
  | None =>
      texts ≠ []
      ∧ ∃ k, k ≤ retries
          ∧ posts (create_embedding svc texts retries w).2
            = posts w ++ replicate k texts
          ∧ ∀ i b, i < k → svc (length (posts w) + i) texts ≠ Response 200 b
  end.
Proof.
  unfold create_embedding. destruct texts as [|x texts]; simpl negb; cbv iota.
  - simpl. by left.
  - pose proof (attempts_outcome svc (x :: texts) retries retries 0 w) as H.
    destruct (attempts svc (x :: texts) retries retries 0 w).1; [by right | done].
Qed.

(** X8. When every POST is rate-limited, the call gives up after
    [retries] POSTs and has slept 1, 2, ..., [2 ^ (retries - 1)] seconds:
    it sleeps after the last attempt too, before it returns [None]. *)
Theorem rate_limit_exhaustion (svc : service) (texts : list string)
    (retries : nat) (w : world) :
  texts ≠ [] →
  (∀ n, ∃ body, svc n texts = Response 429 body) →
  create_embedding svc texts retries w
  = (None, {| posts := posts w ++ replicate retries texts;
              slept := slept w ++ ((λ a, 2 ^ a) <$> seq 0 retries) |}).
Proof.
  intros Hne Hsvc. unfold create_embedding.
  destruct texts as [|x texts]; [done|]. simpl negb. cbv iota.
  by apply attempts_always_limited.
Qed.

Lemma rate_limit_exhaustion_witness :
  create_embedding (λ _ _, Response 429 []) ["a"] 3 {| posts := []; slept := [] |}
  = (None, {| posts := [["a"]; ["a"]; ["a"]]; slept := [1; 2; 4] |}).
Proof.
  refine (rate_limit_exhaustion (λ _ _, Response 429 []) ["a"] 3
            {| posts := []; slept := [] |} _ _).
  - discriminate.
  - intros n. by exists [].
Defined.

(** X9. When every POST fails with a server error (a status of 500 or
    more) or a connection error, the call gives up after [retries] POSTs
    and has slept 1, 2, ..., [2 ^ (retries - 2)] seconds: there is no sleep
    after the last attempt. *)
Theorem server_error_exhaustion (svc : service) (texts : list string)
    (retries : nat) (w : world) :
  texts ≠ [] →
  (∀ n, svc n texts = RequestException
        ∨ ∃ code body, svc n texts = Response code body ∧ (500 ≤ code)%Z) →
  create_embedding svc texts retries w
  = (None, {| posts := posts w ++ replicate retries texts;
              slept := slept w ++ ((λ a, 2 ^ a) <$> seq 0 (retries - 1)) |}).
Proof.
  intros Hne Hsvc. unfold create_embedding.
  destruct texts as [|x texts]; [done|]. simpl negb. cbv iota.
  by apply attempts_always_failing.
Qed.

Lemma server_error_exhaustion_witness :
  create_embedding (λ n _, if n =? 1 then RequestException else Response 502 [])
    ["a"] 3 {| posts := []; slept := [] |}
  = (None, {| posts := [["a"]; ["a"]; ["a"]]; slept := [1; 2] |}).
Proof.
  refine (server_error_exhaustion
            (λ n _, if n =? 1 then RequestException else Response 502 [])
            ["a"] 3 {| posts := []; slept := [] |} _ _).
  - discriminate.
  - intros n. destruct (n =? 1); [by left|]. right. exists 502%Z, []. split; [done | lia].
Defined.

End create_embedding_theorems.

(** ** The outcome of [create_embedding], for the driver *)
Section create_embedding_outcome.
Import Py Spec embed_to_supabase.

Lemma create_embedding_outcome_cases (svc : service)
    (texts : list string) (retries : nat) (w : world) :
  match (create_embedding svc texts retries w).1 with
  | Some body =>
      (texts = [] ∧ body = [] ∧ (create_embedding svc texts retries w).2 = w)
      ∨ ∃ k, k < retries
          ∧ posts (create_embedding svc texts retries w).2
            = posts w ++ replicate (S k) texts
          ∧ svc (length (posts w) + k) texts = Response 200 body
          ∧ ∀ i b, i < k → svc (length (posts w) + i) texts ≠ Response 200 b
  | None => True
  end.
Proof.
  unfold create_embedding. destruct texts as [|x texts]; simpl negb; cbv iota.
  - simpl. by left.
  - pose proof (attempts_outcome svc (x :: texts) retries retries 0 w) as H.
    destruct (attempts svc (x :: texts) retries retries 0 w).1; [by right | done].
Qed.

End create_embedding_outcome.

(** ** More on the driver of [embed_to_supabase.py] *)
Section driver_more.
Import Py Spec Store embed_to_supabase.

Lemma sum_slices {A} (l : list A) fuel start step :
  0 < step → length l - start ≤ fuel →
  sum_list_with (λ j, length (slice l j (j + step)))
    (range_scan fuel start (length l) step)
  = length l - start.
Proof.
  intros Hstep. revert start.
  induction fuel as [|fuel IH]; intros start Hfuel; simpl; [lia|].
  destruct (start <? length l) eqn:Hlt.
  - apply Nat.ltb_lt in Hlt. simpl. rewrite IH by lia. rewrite length_slice. lia.
  - apply Nat.ltb_ge in Hlt. simpl. lia.
Qed.

Lemma lookup_slice {A} (l : list A) j B k :
  k < B → slice l j (j + B) !! k = l !! (j + k).
Proof.
  intros Hk. unfold slice. rewrite lookup_take_lt by lia. apply lookup_drop.
Qed.

Lemma foldl_put_other (rows : list chunk_row) (t : table) key :
  key ∉ row_key <$> rows → foldl put t rows !! key = t !! key.
Proof.
  revert t. induction rows as [|r rows IH]; intros t Hkey; [done|].
  rewrite fmap_cons in Hkey. apply not_elem_of_cons in Hkey as [Hne Hkey].
  simpl. rewrite IH by done. unfold put. by rewrite lookup_insert_ne.
Qed.

Lemma chunks_data_of_key url j cb tb embs r :
  r ∈ chunks_data_of url j cb tb embs →
  ∃ k, k < length cb ∧ row_key r = (url, j + k).
Proof.
  unfold chunks_data_of. intros (k & Hk)%list_elem_of_lookup_1.
  rewrite list_lookup_imap in Hk.
  destruct (zip cb (zip tb embs) !! k) as [[c [n e]]|] eqn:Hz; [|done].
  simpl in Hk. injection Hk as <-. exists k. split; [|done].
  apply lookup_lt_Some in Hz. rewrite length_zip_with in Hz. lia.
Qed.

Lemma chunks_data_of_short url j cb tb embs :
  length (chunks_data_of url j cb tb embs) ≤ length cb.
Proof.
  unfold chunks_data_of. rewrite length_imap, length_zip_with. lia.
Qed.

(** The two ways a batch can go, for any service: it is counted as
    failed and the table stays as it is, or its rows are written and
    counted as embedded. The other counters never move. *)
Lemma embed_batch_cases svc B url chunks tcs r n j :
  let cb := slice chunks j (j + B) in
  let tb := slice tcs j (j + B) in
  let st' := embed_batch svc B url chunks tcs (r, n) j in
  total_tokens st'.1 = total_tokens r
  ∧ total_pages_processed st'.1 = total_pages_processed r
  ∧ total_chunks_embedded st'.1 = total_chunks_embedded r
  ∧ ((pages_chunks st'.1 = pages_chunks r ∧ st'.2 = n
      ∧ total_errors st'.1 = total_errors r + length cb)
     ∨ ∃ body,
         (create_embedding svc cb 3 (net r)).1 = Some body ∧ body ≠ []
         ∧ pages_chunks st'.1
           = foldl put (pages_chunks r) (chunks_data_of url j cb tb body)
         ∧ st'.2 = n + length (chunks_data_of url j cb tb body)
         ∧ total_errors st'.1 = total_errors r).
Proof.
  intros cb tb. unfold embed_batch. fold cb tb.
  destruct (create_embedding svc cb 3 (net r)) as [embeddings w].
  destruct embeddings as [[|e body]|]; simpl negb; cbv iota;
    [by do 3 (split; [done|]); left | | by do 3 (split; [done|]); left].
  simpl default.
  rewrite upsert_chunks_distinct by apply chunks_data_of_keys.
  do 3 (split; [done|]). right. exists (e :: body).
  simpl. repeat split; try done; lia.
Qed.

(** A batch writes under its own indices only. *)
Lemma embed_batch_frame svc B url chunks tcs st j u i :
  u ≠ url ∨ i < j ∨ j + length (slice chunks j (j + B)) ≤ i →
  pages_chunks (embed_batch svc B url chunks tcs st j).1 !! (u, i)
  = pages_chunks st.1 !! (u, i).
Proof.
  intros Hout. destruct st as [r n].
  destruct (embed_batch_cases svc B url chunks tcs r n j)
    as (_ & _ & _ & [(-> & _)|(body & _ & _ & -> & _)]); [done|].
  apply foldl_put_other. intros (row & Hkey & Hin)%list_elem_of_fmap.
  apply chunks_data_of_key in Hin as (k & Hk & Hrow).
  rewrite Hrow in Hkey. injection Hkey as -> ->.
  destruct Hout as [?|?]; [done | lia].
Qed.

(** The batches of a page write under [(url, i)] for [start <= i < N]
    only. *)
Lemma embed_range_frame svc B url chunks tcs fuel start st u i :
  u ≠ url ∨ i < start ∨ length chunks ≤ i →
  pages_chunks (foldl (embed_batch svc B url chunks tcs) st
                  (range_scan fuel start (length chunks) B)).1 !! (u, i)
  = pages_chunks st.1 !! (u, i).
Proof.
  revert start st. induction fuel as [|fuel IH]; intros start st Hout; [done|].
  simpl. destruct (start <? length chunks) eqn:Hlt; [|done].
  apply Nat.ltb_lt in Hlt. cbn [foldl].
  rewrite IH by (destruct Hout as [?|?]; [by left | right; lia]).
  apply embed_batch_frame. rewrite length_slice.
  destruct Hout as [?|?]; [by left | right; lia].
Qed.

(** A served batch can be read back, row by row. *)
Lemma embed_batch_written svc B url chunks tcs r n j k :
  always_serves svc → length tcs = length chunks →
  k < length (slice chunks j (j + B)) →
  ∃ c m e,
    chunks !! (j + k) = Some c ∧ tcs !! (j + k) = Some m
    ∧ pages_chunks (embed_batch svc B url chunks tcs (r, n) j).1 !! (url, j + k)
      = Some {| Store.url := url; chunk_idx := j + k; content := c;
                tokens := Some m; embedding := e |}.
Proof.
  intros Hsvc Hlen Hk.
  destruct (embed_batch_served svc B url chunks tcs r n j Hsvc)
    as (body & Hbody & ->). simpl.
  assert (Htb : length (slice tcs j (j + B)) = length (slice chunks j (j + B)))
    by (rewrite !length_slice; lia).
  destruct (chunks_data_of_lookup url j _ _ body k Htb Hbody Hk)
    as (c & m & e & Hc & Hm & _ & Hrow).
  assert (HkB : k < B) by (rewrite length_slice in Hk; lia).
  rewrite lookup_slice in Hc by done. rewrite lookup_slice in Hm by done.
  exists c, m, e. split; [done|]. split; [done|].
  apply (foldl_put_stored _ _ {| Store.url := url; chunk_idx := j + k; content := c;
                                 tokens := Some m; embedding := e |}).
  - apply chunks_data_of_keys.
  - by eapply list_elem_of_lookup_2.
Qed.

(** The served batches of a page can be read back under [(url, i)] for
    every [start <= i < N]. *)
Lemma embed_range_written svc B url chunks tcs fuel start st i :
  always_serves svc → length tcs = length chunks → 0 < B →
  length chunks - start ≤ fuel → start ≤ i < length chunks →
  ∃ c m e,
    chunks !! i = Some c ∧ tcs !! i = Some m
    ∧ pages_chunks (foldl (embed_batch svc B url chunks tcs) st
                      (range_scan fuel start (length chunks) B)).1 !! (url, i)
      = Some {| Store.url := url; chunk_idx := i; content := c;
                tokens := Some m; embedding := e |}.
Proof.
  intros Hsvc Hlen HB. revert start st.
  induction fuel as [|fuel IH]; intros start st Hfuel Hi; [lia|].
  simpl. rewrite (proj2 (Nat.ltb_lt start (length chunks))) by lia.
  cbn [foldl]. destruct (decide (i < start + B)) as [Hin|Hout].
  - rewrite embed_range_frame by (right; lia).
    destruct st as [r n].
    destruct (embed_batch_written svc B url chunks tcs r n start (i - start)
                Hsvc Hlen) as (c & m & e & Hc & Hm & Hrow).
    { rewrite length_slice. lia. }
    replace (start + (i - start)) with i in * by lia. by exists c, m, e.
  - apply IH; lia.
Qed.

(** The counters of the batches of a page, for any service: embedded and
    failed chunks together never exceed the chunks of the batches, and
    make them up exactly when the service is well-formed. *)
Lemma embed_batches_account svc B url chunks tcs js st :
  let st' := foldl (embed_batch svc B url chunks tcs) st js in
  let sent := sum_list_with (λ j, length (slice chunks j (j + B))) js in
  total_tokens st'.1 = total_tokens st.1
  ∧ total_pages_processed st'.1 = total_pages_processed st.1
  ∧ total_chunks_embedded st'.1 = total_chunks_embedded st.1
  ∧ st.2 ≤ st'.2 ∧ total_errors st.1 ≤ total_errors st'.1
  ∧ st'.2 + total_errors st'.1 ≤ st.2 + total_errors st.1 + sent
  ∧ (well_formed svc → length tcs = length chunks →
     st'.2 + total_errors st'.1 = st.2 + total_errors st.1 + sent).
Proof.
  revert st. induction js as [|j js IH]; intros [r n].
  - simpl. repeat split; lia.
  - cbn [foldl sum_list_with].
    pose proof (embed_batch_cases svc B url chunks tcs r n j) as Hcases.
    cbv zeta in Hcases.
    set (st1 := embed_batch svc B url chunks tcs (r, n) j) in *.
    specialize (IH st1). cbv zeta in IH.
    set (st' := foldl (embed_batch svc B url chunks tcs) st1 js) in *.
    set (sent := sum_list_with (λ j, length (slice chunks j (j + B))) js) in *.
    set (cb := slice chunks j (j + B)) in *.
    set (tb := slice tcs j (j + B)) in *.
    destruct IH as (Ht & Hp & Hc & Hn & He & Hle & Heq).
    destruct Hcases as (Ht1 & Hp1 & Hc1 & Hcase).
    cbn [fst snd]. rewrite Ht, Hp, Hc, Ht1, Hp1, Hc1.
    do 3 (split; [done|]).
    assert (Hstep : n ≤ st1.2 ∧ total_errors r ≤ total_errors st1.1
                    ∧ st1.2 + total_errors st1.1 ≤ n + total_errors r + length cb).
    { destruct Hcase as [(_ & -> & ->)|(body & _ & _ & _ & -> & ->)]; [lia|].
      pose proof (chunks_data_of_short url j cb tb body). lia. }
    split; [lia|]. split; [lia|]. split; [lia|].
    intros Hwf Hlen. specialize (Heq Hwf Hlen).
    enough (st1.2 + total_errors st1.1 = n + total_errors r + length cb) by lia.
    destruct Hcase as [(_ & -> & ->)|(body & Hres & Hne & _ & -> & ->)]; [lia|].
    enough (length (chunks_data_of url j cb tb body) = length cb) by lia.
    assert (Hbody : length cb ≤ length body).
    { pose proof (create_embedding_outcome_cases svc cb 3 (net r)) as Hfirst.
      rewrite Hres in Hfirst.
      destruct Hfirst as [(_ & -> & _)|(k & _ & _ & H200 & _)]; [done|].
      by eapply Hwf. }
    unfold chunks_data_of. rewrite length_imap, !length_zip_with.
    assert (length tb = length cb) by (unfold tb, cb; rewrite !length_slice; lia).
    lia.
Qed.

(** Batches of a list, folded over one after the other, are the list
    folded over. *)
Lemma foldl_slices {S A} (f : S → A → S) (l : list A) B fuel start s :
  0 < B → length l - start ≤ fuel →
  foldl (λ r i, foldl f r (slice l i (i + B))) s
        (range_scan fuel start (length l) B)
  = foldl f s (drop start l).
Proof.
  intros HB. revert start s.
  induction fuel as [|fuel IH]; intros start s Hfuel; simpl.
  - rewrite drop_ge; [done | lia].
  - destruct (start <? length l) eqn:Hlt.
    + cbn [foldl]. rewrite IH by lia. unfold slice.
      replace (start + B - start) with B by lia.
      rewrite <- (take_drop B (drop start l)) at 2.
      rewrite foldl_app. by rewrite drop_drop.
    + apply Nat.ltb_ge in Hlt. by rewrite drop_ge.
Qed.

(** The counters of one page, for any service. *)
Lemma process_page_account svc tk r pg :
  let r' := process_page svc tk r pg in
  let cs := page_chunks tk pg in
  total_pages_processed r'
  = total_pages_processed r + (if truthy_list cs then 1 else 0)
  ∧ total_tokens r' = total_tokens r + sum_list (token_count <$> cs)
  ∧ total_chunks_embedded r ≤ total_chunks_embedded r'
  ∧ total_errors r ≤ total_errors r'
  ∧ total_chunks_embedded r' + total_errors r'
    ≤ total_chunks_embedded r + total_errors r + length cs
  ∧ (well_formed svc →
     total_chunks_embedded r' + total_errors r'
     = total_chunks_embedded r + total_errors r + length cs).
Proof.
  unfold process_page, page_chunks.
  destruct (page_url pg) as [url|], (markdown pg) as [md|];
    try (simpl; repeat split; lia).
  destruct (negb (truthy_str url) || negb (truthy_str md));
    [simpl; repeat split; lia|].
  set (cs := split_text tk md).
  destruct (truthy_list cs) eqn:Hcs; simpl negb; cbv iota;
    [|destruct cs; [simpl; repeat split; lia | done]].
  unfold embed_chunks, range.
  pose proof (embed_batches_account svc BATCH_SIZE url (text <$> cs)
                (token_count <$> cs)
                (range_scan (length (text <$> cs) - 0) 0 (length (text <$> cs))
                   BATCH_SIZE) (r, 0)) as Hacc.
  cbv zeta in Hacc. rewrite sum_slices in Hacc by (unfold BATCH_SIZE; lia).
  destruct (foldl _ _ _) as [r' n]. cbn [fst snd] in Hacc.
  destruct Hacc as (Ht & Hp & Hc & Hn & He & Hle & Heq).
  rewrite !length_fmap in *. cbn -[sum_list].
  repeat split; try lia.
  intros Hwf. specialize (Heq Hwf eq_refl). lia.
Qed.

(** The pages of a run, processed one after the other. *)
Lemma main_as_fold svc tk delete pages t :
  main svc tk delete pages t
  = foldl (process_page svc tk)
      {| net := {| posts := []; slept := [] |};
         pages_chunks := (clear_pages_chunks_table delete t).2;
         total_pages_processed := 0; total_chunks_embedded := 0;
         total_tokens := 0; total_errors := 0 |} pages.
Proof.
  unfold main, range.
  rewrite (foldl_slices (process_page svc tk) pages BATCH_SIZE)
    by (unfold BATCH_SIZE; lia).
  done.
Qed.

(** The counters of a sequence of pages, for any service. *)
Lemma pages_account svc tk pages r :
  let r' := foldl (process_page svc tk) r pages in
  total_pages_processed r'
  = total_pages_processed r
    + length (List.filter (λ pg, truthy_list (page_chunks tk pg)) pages)
  ∧ total_tokens r'
    = total_tokens r
      + sum_list_with (λ pg, sum_list (token_count <$> page_chunks tk pg)) pages
  ∧ total_chunks_embedded r ≤ total_chunks_embedded r'
  ∧ total_errors r ≤ total_errors r'
  ∧ total_chunks_embedded r' + total_errors r'
    ≤ total_chunks_embedded r + total_errors r
      + sum_list_with (λ pg, length (page_chunks tk pg)) pages
  ∧ (well_formed svc →
     total_chunks_embedded r' + total_errors r'
     = total_chunks_embedded r + total_errors r
       + sum_list_with (λ pg, length (page_chunks tk pg)) pages).
Proof.
  revert r. induction pages as [|pg pages IH]; intros r.
  - simpl. repeat split; lia.
  - cbn [foldl]. specialize (IH (process_page svc tk r pg)). cbv zeta in IH.
    pose proof (process_page_account svc tk r pg) as Hpg. cbv zeta in Hpg.
    set (r1 := process_page svc tk r pg) in *.
    set (r' := foldl (process_page svc tk) r1 pages) in *.
    destruct IH as (Hp & Ht & Hc & He & Hle & Heq).
    destruct Hpg as (Hp1 & Ht1 & Hc1 & He1 & Hle1 & Heq1).
    cbn [List.filter sum_list_with].
    split.
    { rewrite Hp, Hp1. destruct (truthy_list (page_chunks tk pg)); simpl; lia. }
    split; [lia|]. split; [lia|]. split; [lia|]. split; [lia|].
    intros Hwf. specialize (Heq Hwf). specialize (Heq1 Hwf). lia.
Qed.

End driver_more.

(** ** The rows of a batch *)
Section batch_rows.
Import Py Spec Store embed_to_supabase.
Context (svc : service) (B : nat) (url : string)
        (chunks : list string) (token_counts : list nat).

Lemma chunks_data_of_row j cb tb body k c m e :
  cb !! k = Some c → tb !! k = Some m → body !! k = Some e →
  chunks_data_of url j cb tb body !! k
  = Some {| Store.url := url; chunk_idx := j + k; content := c;
            tokens := Some m; embedding := e |}.
Proof.
  intros Hc Hm He. unfold chunks_data_of.
  rewrite list_lookup_imap.
  assert (Hz : zip cb (zip tb body) !! k = Some (c, (m, e))).
  { apply lookup_zip_with_Some. exists c, (m, e). split; [done|].
    split; [done|]. apply lookup_zip_with_Some. by exists m, e. }
  by rewrite Hz.
Qed.

(** What a batch leaves under the index of its [k]-th text: the row of
    that text with the [k]-th vector the call returned, and the row that
    was there when the call returned none. *)
Lemma embed_batch_rows r n j k c m :
  slice chunks j (j + B) !! k = Some c →
  slice token_counts j (j + B) !! k = Some m →
  pages_chunks (embed_batch svc B url chunks token_counts (r, n) j).1
    !! (url, j + k)
  = match (create_embedding svc (slice chunks j (j + B)) 3 (net r)).1 with
    | Some body =>
        match body !! k with
        | Some e => Some {| Store.url := url; chunk_idx := j + k; content := c;
                            tokens := Some m; embedding := e |}
        | None => pages_chunks r !! (url, j + k)
        end
    | None => pages_chunks r !! (url, j + k)
    end.
Proof.
  intros Hc Hm. unfold embed_batch.
  set (cb := slice chunks j (j + B)) in *.
  set (tb := slice token_counts j (j + B)) in *.
  destruct (create_embedding svc cb 3 (net r)) as [embeddings w].
  destruct embeddings as [[|e0 body]|]; simpl negb; cbv iota; [done| |done].
  simpl default. rewrite upsert_chunks_distinct by apply chunks_data_of_keys.
  cbn [fst snd pages_chunks].
  destruct ((e0 :: body) !! k) as [e|] eqn:He.
  - apply (foldl_put_stored _ _
             {| Store.url := url; chunk_idx := j + k; content := c;
                tokens := Some m; embedding := e |});
      [apply chunks_data_of_keys|].
    eapply list_elem_of_lookup_2. by apply chunks_data_of_row.
  - apply foldl_put_other.
    intros (row & Hkey & Hin)%list_elem_of_fmap.
    apply list_elem_of_lookup_1 in Hin as (i & Hi).
    unfold chunks_data_of in Hi. rewrite list_lookup_imap in Hi.
    destruct (zip cb (zip tb (e0 :: body)) !! i) as [[c' [m' v]]|] eqn:Hz;
      [|done].
    simpl in Hi. injection Hi as <-. unfold row_key in Hkey. simpl in Hkey.
    apply lookup_lt_Some in Hz. rewrite !length_zip_with in Hz.
    apply lookup_ge_None in He. injection Hkey as Hkey. lia.
Qed.

(** The vectors a call returns are those of a 200 given to its texts. *)
Lemma create_embedding_from_service texts w body :
  (create_embedding svc texts 3 w).1 = Some body → body ≠ [] →
  ∃ n, svc n texts = Response 200 body.
Proof.
  intros Hres Hne.
  pose proof (create_embedding_outcome_cases svc texts 3 w) as Hfirst.
  rewrite Hres in Hfirst.
  destruct Hfirst as [(_ & -> & _)|(k & _ & _ & H200 & _)]; [done|].
  by eexists.
Qed.

(** What a page leaves under the index of each of its texts: the row that
    was there, or the row of the text with the vector that a 200 given to
    the texts of its batch holds at the place of the text in the batch. *)
Lemma embed_range_rows fuel start st i c m :
  0 < B → length chunks - start ≤ fuel → start ≤ i →
  chunks !! i = Some c → token_counts !! i = Some m →
  let js := range_scan fuel start (length chunks) B in
  let t' := pages_chunks
              (foldl (embed_batch svc B url chunks token_counts) st js).1 in
  t' !! (url, i) = pages_chunks st.1 !! (url, i)
  ∨ ∃ j n body e,
      j ∈ js ∧ j ≤ i < j + B
      ∧ svc n (slice chunks j (j + B)) = Response 200 body
      ∧ body !! (i - j) = Some e
      ∧ t' !! (url, i)
        = Some {| Store.url := url; chunk_idx := i; content := c;
                  tokens := Some m; embedding := e |}.
Proof.
  intros HB. revert start st.
  induction fuel as [|fuel IH]; intros start st Hfuel Hi Hc Hm;
    [apply lookup_lt_Some in Hc; lia|].
  assert (Hlt : start < length chunks) by (apply lookup_lt_Some in Hc; lia).
  simpl. rewrite (proj2 (Nat.ltb_lt start (length chunks))) by done.
  cbn [foldl]. destruct (decide (i < start + B)) as [Hin|Hout].
  - rewrite embed_range_frame by (right; left; lia).
    destruct st as [r n].
    pose proof (embed_batch_rows r n start (i - start) c m) as Hrow.
    replace (start + (i - start)) with i in Hrow by lia.
    rewrite !lookup_slice in Hrow by lia.
    replace (start + (i - start)) with i in Hrow by lia.
    specialize (Hrow Hc Hm).
    destruct (create_embedding svc (slice chunks start (start + B)) 3 (net r)).1
      as [body|] eqn:Hres; [|by left].
    destruct (body !! (i - start)) as [e|] eqn:He; [|by left].
    destruct (create_embedding_from_service _ _ body Hres) as [n0 H200].
    { by intros ->. }
    right. exists start, n0, body, e.
    split; [apply list_elem_of_here|]. split; [lia|]. done.
  - destruct (IH (start + B)
                (embed_batch svc B url chunks token_counts st start))
      as [Hsame|(j & n0 & body & e & Hj & Hij & H200 & He & Hrow)];
      [lia | lia | done | done | |].
    + left. rewrite Hsame. apply embed_batch_frame.
      rewrite length_slice. right. right. lia.
    + right. exists j, n0, body, e. split; [by apply list_elem_of_further|].
      done.
Qed.

End batch_rows.

(** ** Batching *)
Section batching_claims.
Import Py Spec Store embed_to_supabase.

(** C3, as stated, fails: a batch whose POST is rate-limited is posted
    again, so three texts in batches of two take three POSTs, not
    [⌈3/2⌉ = 2]. *)
Lemma retried_batch_is_posted_again :
  ¬ (∀ (svc : service) (B : nat) (url : string) (chunks : list string)
       (token_counts : list nat) (r : run),
       0 < B →
       length (posts (net (embed_chunks svc B url chunks token_counts r).1))
       = length (posts (net r)) + ceil_div (length chunks) B).
Proof.
  intros Hclaim.
  assert (Hrun : 3 = 2); [|discriminate].
  apply (Hclaim Fixtures.numbered_after_limit 2 "u" ["a"; "b"; "c"]
           [1; 1; 1] Fixtures.empty_run). lia.
Qed.

(** C3, amended. For [N] chunk texts and a batch size [B > 0], the driver
    cuts the texts into [⌈N/B⌉] consecutive batches of 1 to [B] texts,
    whose concatenation is the input, and calls [create_embedding] once
    per batch, in that order. Each call POSTs its batch one to three
    times, so the log of POSTs is the list of batches with each batch
    repeated once per attempt, and exactly the list of batches when every
    POST is served. A batch leaves, under the index [j + k] of its [k]-th
    text, the row of that text with the [k]-th vector its call returned;
    and after the page every text has, under its index, either the row
    that was there before or its own row with the vector that a 200 given
    to the texts of its batch holds at the place of the text. *)
Theorem batching_is_correct (svc : service) (B : nat) (url : string)
    (chunks : list string) (token_counts : list nat) (r : run) :
  0 < B →
  let js := range 0 (length chunks) B in
  let batches := (λ j, slice chunks j (j + B)) <$> js in
  let r' := (embed_chunks svc B url chunks token_counts r).1 in
  length batches = ceil_div (length chunks) B
  ∧ Forall (λ b, 0 < length b ≤ B) batches
  ∧ concat batches = chunks
  ∧ (∃ reps, length reps = length batches ∧ Forall (λ k, 1 ≤ k ≤ 3) reps
       ∧ posts (net r')
         = posts (net r) ++ concat (zip_with replicate reps batches))
  ∧ (always_serves svc → posts (net r') = posts (net r) ++ batches)
  ∧ (∀ r0 n j k c m,
       slice chunks j (j + B) !! k = Some c →
       slice token_counts j (j + B) !! k = Some m →
       pages_chunks (embed_batch svc B url chunks token_counts (r0, n) j).1
         !! (url, j + k)
       = match (create_embedding svc (slice chunks j (j + B)) 3 (net r0)).1 with
         | Some body =>
             match body !! k with
             | Some e =>
                 Some {| Store.url := url; chunk_idx := j + k; content := c;
                         tokens := Some m; embedding := e |}
             | None => pages_chunks r0 !! (url, j + k)
             end
         | None => pages_chunks r0 !! (url, j + k)
         end)
  ∧ (∀ texts w body,
       (create_embedding svc texts 3 w).1 = Some body → body ≠ [] →
       ∃ n, svc n texts = Response 200 body)
  ∧ (∀ i c m,
       chunks !! i = Some c → token_counts !! i = Some m →
       pages_chunks r' !! (url, i) = pages_chunks r !! (url, i)
       ∨ ∃ j n body e,
           j ∈ js ∧ j ≤ i < j + B
           ∧ svc n (slice chunks j (j + B)) = Response 200 body
           ∧ body !! (i - j) = Some e
           ∧ pages_chunks r' !! (url, i)
             = Some {| Store.url := url; chunk_idx := i; content := c;
                       tokens := Some m; embedding := e |}).
Proof.
  intros HB js batches r'.
  assert (Hjs : Forall (λ j, j < length chunks) js).
  { eapply Forall_impl; [apply range_scan_bound|]. simpl. lia. }
  split; [|split; [|split; [|split; [|split; [|split; [|split]]]]]].
  - subst batches js. rewrite length_fmap. unfold range.
    rewrite range_scan_length by lia. by rewrite Nat.sub_0_r.
  - subst batches. apply Forall_fmap. eapply Forall_impl; [exact Hjs|].
    intros j Hj. simpl in *. rewrite length_slice. lia.
  - subst batches js. unfold range. rewrite concat_slices by lia. apply drop_0.
  - subst batches r'. unfold embed_chunks.
    destruct (embed_batches_posts svc B url chunks token_counts _ (r, 0) HB Hjs)
      as (reps & Hlen & Hreps & Hposts).
    exists reps. by rewrite length_fmap.
  - intros Hsvc. subst batches r'. unfold embed_chunks.
    by rewrite embed_batches_posts_served.
  - intros r0 n j k c m. apply embed_batch_rows.
  - intros texts w body. apply create_embedding_from_service.
  - intros i c m Hc Hm. subst r' js. unfold embed_chunks, range.
    apply (embed_range_rows svc B url chunks token_counts
             (length chunks - 0) 0 (r, 0) i c m); try done; lia.
Qed.

Lemma batching_is_correct_witness :
  pages_chunks
    (embed_batch Fixtures.numbered_after_limit 2 "u" ["a"; "b"; "c"] [1; 1; 1]
       (Fixtures.empty_run, 0) 0).1 !! ("u", 1)
  = Some {| Store.url := "u"; chunk_idx := 1; content := "b";
            tokens := Some 1; embedding := [0%float; 0%float] |}.
Proof.
  refine (eq_trans
            (proj1 (proj2 (proj2 (proj2 (proj2 (proj2
               (batching_is_correct Fixtures.numbered_after_limit 2 "u"
                  ["a"; "b"; "c"] [1; 1; 1] Fixtures.empty_run _))))))
               Fixtures.empty_run 0 0 1 "b" 1 eq_refl eq_refl) _).
  - lia.
  - vm_compute. reflexivity.
Defined.

End batching_claims.

(** ** The driver of [embed_to_supabase.py], for any service *)
Section driver_theorems.
Import Py Spec Store embed_to_supabase.

(** X10. Cutting the pages into batches of 100 changes nothing: a run of
    [main] is the pages processed one after the other, in the order of
    the list, from the cleared table and zeroed counters. *)
Theorem main_ignores_page_batching (svc : service)
    (cl100k_base : langchain.tokenizer) (delete : delete_result)
    (pages : list page) (t : table) :
  main svc cl100k_base delete pages t
  = foldl (process_page svc cl100k_base)
      {| net := {| posts := []; slept := [] |};
         pages_chunks := (clear_pages_chunks_table delete t).2;
         total_pages_processed := 0; total_chunks_embedded := 0;
         total_tokens := 0; total_errors := 0 |} pages.
Proof. apply main_as_fold. Qed.

(** X11. Whatever the embedding service does, a run counts as processed
    every page that has at least one chunk, counts the tokens of all
    their chunks, and never counts more embedded and failed chunks
    together than there are chunks. *)
Theorem main_counters_for_any_service (svc : service)
    (cl100k_base : langchain.tokenizer) (delete : delete_result)
    (pages : list page) (t : table) :
  let m := main svc cl100k_base delete pages t in
  total_pages_processed m
  = length (List.filter (λ pg, truthy_list (page_chunks cl100k_base pg)) pages)
  ∧ total_tokens m
    = sum_list_with
        (λ pg, sum_list (token_count <$> page_chunks cl100k_base pg)) pages
  ∧ total_chunks_embedded m + total_errors m
    ≤ sum_list_with (λ pg, length (page_chunks cl100k_base pg)) pages.
Proof.
  intros m. subst m. rewrite main_as_fold.
  destruct (pages_account svc cl100k_base pages
              {| net := {| posts := []; slept := [] |};
                 pages_chunks := (clear_pages_chunks_table delete t).2;
                 total_pages_processed := 0; total_chunks_embedded := 0;
                 total_tokens := 0; total_errors := 0 |})
    as (Hp & Ht & _ & _ & Hle & _).
  simpl in Hp, Ht, Hle. by repeat split.
Qed.

(** X12. When every 200 of the service carries at least one vector per
    text, every chunk of every page is counted exactly once, as embedded
    or as failed. *)
Theorem main_accounts_for_every_chunk (svc : service)
    (cl100k_base : langchain.tokenizer) (delete : delete_result)
    (pages : list page) (t : table) :
  well_formed svc →
  let m := main svc cl100k_base delete pages t in
  total_chunks_embedded m + total_errors m
  = sum_list_with (λ pg, length (page_chunks cl100k_base pg)) pages.
Proof.
  intros Hwf m. subst m. rewrite main_as_fold.
  destruct (pages_account svc cl100k_base pages
              {| net := {| posts := []; slept := [] |};
                 pages_chunks := (clear_pages_chunks_table delete t).2;
                 total_pages_processed := 0; total_chunks_embedded := 0;
                 total_tokens := 0; total_errors := 0 |})
    as (_ & _ & _ & _ & _ & Heq).
  by specialize (Heq Hwf).
Qed.

Lemma main_accounts_for_every_chunk_witness :
  let pages := [{| page_url := Some "u"; markdown := Some "ab" |}] in
  let m := main (Fixtures.limited_once []) Fixtures.char_tokenizer Deleted
             pages ∅ in
  total_chunks_embedded m + total_errors m
  = sum_list_with (λ pg, length (page_chunks Fixtures.char_tokenizer pg)) pages.
Proof.
  refine (main_accounts_for_every_chunk (Fixtures.limited_once [])
            Fixtures.char_tokenizer Deleted
            [{| page_url := Some "u"; markdown := Some "ab" |}] ∅ _).
  intros n texts body. unfold Fixtures.limited_once.
  destruct (n =? 0); intros [= <-]. by rewrite length_fmap.
Defined.

(** X13. When the service serves every request, every chunk of a page can
    be read back from the table under the page's URL and the chunk's
    index, with its text and its token count. *)
Theorem stored_page_is_readable (svc : service)
    (cl100k_base : langchain.tokenizer) (r : run) (pg : page)
    (url : string) (i : nat) (c : chunk_obj) :
  always_serves svc → page_url pg = Some url →
  page_chunks cl100k_base pg !! i = Some c →
  ∃ e, pages_chunks (process_page svc cl100k_base r pg) !! (url, i)
       = Some {| Store.url := url; chunk_idx := i; content := text c;
                 tokens := Some (token_count c); embedding := e |}.
Proof.
  intros Hsvc Hurl Hc. unfold process_page, page_chunks in *. rewrite Hurl in *.
  destruct (markdown pg) as [md|]; [|done].
  destruct (negb (truthy_str url) || negb (truthy_str md)); [done|].
  set (cs := split_text cl100k_base md) in *.
  destruct (truthy_list cs) eqn:Hcs; simpl negb; cbv iota;
    [|by destruct cs].
  unfold embed_chunks, range.
  destruct (embed_range_written svc BATCH_SIZE url (text <$> cs)
              (token_count <$> cs) (length (text <$> cs) - 0) 0 (r, 0) i)
    as (c' & m & e & Hc' & Hm & Hrow); try done.
  { by rewrite !length_fmap. }
  { unfold BATCH_SIZE; lia. }
  { rewrite length_fmap. apply lookup_lt_Some in Hc. lia. }
  rewrite list_lookup_fmap, Hc in Hc'. rewrite list_lookup_fmap, Hc in Hm.
  simpl in Hc', Hm.
  injection Hc' as <-. injection Hm as <-.
  destruct (foldl _ _ _) as [r' n]. simpl in *. by exists e.
Qed.

Lemma stored_page_is_readable_witness :
  ∃ e, pages_chunks
         (process_page (Fixtures.always_up []) Fixtures.char_tokenizer
            Fixtures.empty_run {| page_url := Some "u"; markdown := Some "ab" |})
       !! ("u", 0)
       = Some {| Store.url := "u"; chunk_idx := 0; content := "ab";
                 tokens := Some 2; embedding := e |}.
Proof.
  refine (stored_page_is_readable (Fixtures.always_up [])
            Fixtures.char_tokenizer Fixtures.empty_run
            {| page_url := Some "u"; markdown := Some "ab" |} "u" 0
            {| text := "ab"; token_count := 2 |} _ _ _).
  - intros n texts. eexists. split; [reflexivity | apply length_fmap].
  - reflexivity.
  - vm_compute. reflexivity.
Defined.

(** X14. Whatever the service does, a page writes only under its own URL
    and under indices below its number of chunks: every other row of the
    table, a row of an earlier and longer version of the page included,
    stays as it was. *)
Theorem process_page_writes_own_rows_only (svc : service)
    (cl100k_base : langchain.tokenizer) (r : run) (pg : page)
    (u : string) (i : nat) :
  (page_url pg = Some u → length (page_chunks cl100k_base pg) ≤ i) →
  pages_chunks (process_page svc cl100k_base r pg) !! (u, i)
  = pages_chunks r !! (u, i).
Proof.
  intros Hout. unfold process_page, page_chunks in *.
  destruct (page_url pg) as [url|]; [|done].
  destruct (markdown pg) as [md|]; [|done].
  destruct (negb (truthy_str url) || negb (truthy_str md)); [done|].
  set (cs := split_text cl100k_base md) in *.
  destruct (truthy_list cs) eqn:Hcs; simpl negb; cbv iota; [|done].
  unfold embed_chunks, range.
  pose proof (embed_range_frame svc BATCH_SIZE url (text <$> cs)
                (token_count <$> cs) (length (text <$> cs) - 0) 0 (r, 0) u i)
    as Hframe.
  destruct (foldl _ _ _) as [r' n]. simpl in *. apply Hframe.
  destruct (decide (u = url)) as [->|Hne]; [|by left].
  right. right. rewrite length_fmap. by apply Hout.
Qed.

Lemma process_page_writes_own_rows_only_witness :
  let pg := {| page_url := Some "u"; markdown := Some "ab" |} in
  let r' := process_page (Fixtures.always_up [0%float]) Fixtures.char_tokenizer
              Fixtures.stale_run pg in
  pages_chunks Fixtures.stale_run !! ("u", 3) = Some Fixtures.stale_row
  ∧ content <$> pages_chunks r' !! ("u", 0) = Some "ab"
  ∧ pages_chunks r' !! ("u", 3) = pages_chunks Fixtures.stale_run !! ("u", 3).
Proof.
  intros pg r'. split; [reflexivity|]. split; [vm_compute; reflexivity|].
  refine (process_page_writes_own_rows_only (Fixtures.always_up [0%float])
            Fixtures.char_tokenizer Fixtures.stale_run pg "u" 3 _).
  intros _. vm_compute. lia.
Defined.

End driver_theorems.


(** ** More on the driver of [generate_embeddings.py] *)
Section generate_more.
Import Py Spec Store generate_embeddings.
Context (tokenizer_encode : string → list nat).

Local Abbreviation chunks_in pg := (length (chunks_of_page tokenizer_encode pg)).

(** One record and one call per chunk of the page. *)
Lemma process_page_length (c : client) pg calls :
  length (process_page tokenizer_encode c pg calls).1 = chunks_in pg
  ∧ (process_page tokenizer_encode c pg calls).2 = calls + chunks_in pg.
Proof.
  unfold process_page, chunks_of_page. destruct (markdown pg) as [md|]; [|simpl; lia].
  destruct (negb (truthy_str md) || negb (truthy_str (strip md))) eqn:Hguard.
  - unfold split_text_into_chunks, split_text_into_chunks_at.
    rewrite Hguard. simpl. lia.
  - simpl. by rewrite length_imap.
Qed.

Lemma process_batch_length (c : client) batch calls :
  length (process_batch tokenizer_encode c batch calls).1
  = sum_list_with (λ pg, chunks_in pg) batch
  ∧ (process_batch tokenizer_encode c batch calls).2
    = calls + sum_list_with (λ pg, chunks_in pg) batch.
Proof.
  unfold process_batch.
  assert (Hgen : ∀ acc n,
    let step := λ '(all_chunks, n) pg,
      let '(page_chunks, n') := process_page tokenizer_encode c pg n in
      (all_chunks ++ page_chunks, n') in
    length (foldl step (acc, n) batch).1
    = length acc + sum_list_with (λ pg, chunks_in pg) batch
    ∧ (foldl step (acc, n) batch).2
      = n + sum_list_with (λ pg, chunks_in pg) batch).
  { induction batch as [|pg batch IH]; intros acc n; [simpl; lia|].
    cbn [foldl sum_list_with].
    destruct (process_page_length c pg n) as [Hl Hn].
    destruct (process_page tokenizer_encode c pg n) as [rows m].
    simpl in Hl, Hn. destruct (IH (acc ++ rows) m) as [IH1 IH2].
    cbv zeta in IH1, IH2. rewrite IH1, IH2, length_app. lia. }
  destruct (Hgen [] calls) as [H1 H2]. cbv zeta in H1, H2. by rewrite H1, H2.
Qed.

(** A statement that goes through only adds rows under fresh keys. *)
Lemma upsert_on_id_extends (rows : list chunk_row) (t t' : table) :
  upsert_on_id rows t = Some t' → t ⊆ t'.
Proof.
  unfold upsert_on_id. case_bool_decide as Hok; [|done]. intros [= <-].
  destruct Hok as [_ Hfresh]. apply map_subseteq_spec. intros k v Hk.
  rewrite foldl_put_other; [done|].
  intros (r & -> & Hin)%list_elem_of_fmap.
  rewrite Forall_forall in Hfresh. specialize (Hfresh r Hin). congruence.
Qed.

Lemma upsert_chunks_extends (rows : list chunk_row) (t : table) :
  t ⊆ (upsert_chunks t rows).2
  ∧ success (upsert_chunks t rows).1 + error (upsert_chunks t rows).1
    = length rows.
Proof.
  unfold upsert_chunks. destruct rows as [|r rows]; [done|].
  simpl negb. cbv iota.
  destruct (upsert_on_id (r :: rows) t) as [t'|] eqn:Hup; simpl.
  - split; [by eapply upsert_on_id_extends | lia].
  - done.
Qed.

(** One batch of pages: a call and a counted record per chunk, and no
    stored row touched. *)
Lemma main_step_account (c : client) pages r i :
  let r' := main_step tokenizer_encode c pages r i in
  let n := sum_list_with (λ pg, chunks_in pg) (slice pages i (i + BATCH_SIZE)) in
  calls r' = calls r + n
  ∧ total_chunks_success r' + total_chunks_error r'
    = total_chunks_success r + total_chunks_error r + n
  ∧ pages_chunks r ⊆ pages_chunks r'.
Proof.
  unfold main_step.
  destruct (process_batch_length c (slice pages i (i + BATCH_SIZE)) (calls r))
    as [Hl Hn].
  destruct (process_batch tokenizer_encode c _ (calls r)) as [rows m].
  simpl in Hl, Hn. rewrite <- Hl.
  destruct (truthy_list rows) eqn:Hrows.
  - destruct (upsert_chunks_extends rows (pages_chunks r)) as [Hsub Hcnt].
    destruct (upsert_chunks (pages_chunks r) rows) as [res t'].
    simpl in *. repeat split; [lia | lia | done].
  - destruct rows; [|done]. simpl in *. repeat split; lia || done.
Qed.

Lemma sum_slice_drop {A} (f : A → nat) (l : list A) start B :
  sum_list_with f (slice l start (start + B))
  + sum_list_with f (drop (start + B) l)
  = sum_list_with f (drop start l).
Proof.
  unfold slice. replace (start + B - start) with B by lia.
  rewrite <- drop_drop, <- sum_list_with_app. by rewrite take_drop.
Qed.

Lemma main_steps_account (c : client) pages fuel start r :
  0 < BATCH_SIZE → length pages - start ≤ fuel →
  let r' := foldl (main_step tokenizer_encode c pages) r
              (range_scan fuel start (length pages) BATCH_SIZE) in
  let n := sum_list_with (λ pg, chunks_in pg) (drop start pages) in
  calls r' = calls r + n
  ∧ total_chunks_success r' + total_chunks_error r'
    = total_chunks_success r + total_chunks_error r + n
  ∧ pages_chunks r ⊆ pages_chunks r'.
Proof.
  intros HB. revert start r.
  induction fuel as [|fuel IH]; intros start r Hfuel; simpl.
  - rewrite drop_ge by lia. simpl. repeat split; lia || done.
  - destruct (start <? length pages) eqn:Hlt.
    + cbn [foldl].
      destruct (main_step_account c pages r start) as (Hc & Hs & Hsub).
      destruct (IH (start + BATCH_SIZE)
                  (main_step tokenizer_encode c pages r start)) as (Hc' & Hs' & Hsub');
        [lia|].
      rewrite Hc', Hs', Hc, Hs.
      pose proof (sum_slice_drop (λ pg, chunks_in pg) pages start BATCH_SIZE).
      repeat split; [lia | lia | by etrans].
    + apply Nat.ltb_ge in Hlt. rewrite drop_ge by lia. simpl.
      repeat split; lia || done.
Qed.

(** What a batch of pages does to the table and to the success counter. *)
Lemma main_step_table (c : client) pages r i :
  let rows := (process_batch tokenizer_encode c
                 (slice pages i (i + BATCH_SIZE)) (calls r)).1 in
  pages_chunks (main_step tokenizer_encode c pages r i)
  = (upsert_chunks (pages_chunks r) rows).2
  ∧ total_chunks_success (main_step tokenizer_encode c pages r i)
    = total_chunks_success r + success (upsert_chunks (pages_chunks r) rows).1.
Proof.
  unfold main_step.
  destruct (process_batch tokenizer_encode c _ (calls r)) as [rows m]. simpl.
  destruct rows as [|row rows]; [simpl; split; [done | lia]|].
  simpl truthy_list. cbv iota.
  by destruct (upsert_chunks (pages_chunks r) (row :: rows)) as [res t'].
Qed.

Lemma main_steps_extend (c : client) pages js r :
  pages_chunks r ⊆ pages_chunks (foldl (main_step tokenizer_encode c pages) r js).
Proof.
  revert r. induction js as [|i js IH]; intros r; [done|].
  cbn [foldl]. etrans; [|apply IH].
  by destruct (main_step_account c pages r i) as (_ & _ & ?).
Qed.

(** Rows whose keys were sent before are rejected: the keys are stored,
    or the earlier statement was rejected for a reason that still holds. *)
Lemma upsert_on_id_rejected (rows rows' : list chunk_row) (t T : table) :
  row_key <$> rows = row_key <$> rows' → rows' ≠ [] →
  t ⊆ T → (upsert_chunks t rows).2 ⊆ T →
  upsert_on_id rows' T = None.
Proof.
  intros Hkeys Hne Hsub Hsub'. unfold upsert_on_id.
  rewrite bool_decide_false; [done|]. intros [Hnd Hfresh].
  destruct rows' as [|r' rows']; [done|].
  destruct rows as [|r rows]; [done|].
  assert (Hfresh_t : Forall (λ r, t !! row_key r = None) (r :: rows)).
  { assert (Hk : Forall (λ k, t !! k = None) (row_key <$> r :: rows)).
    { rewrite Hkeys, Forall_fmap.
      eapply Forall_impl; [exact Hfresh|]. intros x Hx. simpl in *.
      by eapply lookup_weaken_None. }
    rewrite Forall_fmap in Hk. exact Hk. }
  rewrite <- Hkeys in Hnd.
  unfold upsert_chunks, upsert_on_id in Hsub'. simpl negb in Hsub'. cbv iota in Hsub'.
  rewrite bool_decide_true in Hsub' by done. simpl in Hsub'.
  assert (Hin : foldl put (put t r) rows !! row_key r = Some r).
  { apply (foldl_put_stored (r :: rows) t r); [done | apply list_elem_of_here]. }
  eapply lookup_weaken in Hin; [|exact Hsub'].
  apply Forall_cons in Hfresh as [Hr' _].
  assert (row_key r = row_key r') by (csimpl in Hkeys; congruence).
  congruence.
Qed.

(** A second run over the table the first one left, step by step. *)
Lemma rerun_steps (c c' : client) pages js r1 r2 :
  calls r1 = calls r2 →
  pages_chunks (foldl (main_step tokenizer_encode c pages) r1 js)
    ⊆ pages_chunks r2 →
  let r2' := foldl (main_step tokenizer_encode c' pages) r2 js in
  pages_chunks r2' = pages_chunks r2
  ∧ total_chunks_success r2' = total_chunks_success r2.
Proof.
  revert r1 r2. induction js as [|i js IH]; intros r1 r2 Hcalls Hsub; [done|].
  cbn [foldl] in *.
  set (batch := slice pages i (i + BATCH_SIZE)).
  destruct (main_step_table c pages r1 i) as [Ht1 _].
  destruct (main_step_table c' pages r2 i) as [Ht2 Hs2].
  destruct (main_step_account c pages r1 i) as (Hc1 & _ & Hsub1).
  destruct (main_step_account c' pages r2 i) as (Hc2 & _ & _).
  cbv zeta in Ht1, Ht2, Hs2. fold batch in Ht1, Ht2, Hs2.
  destruct (process_batch_keys tokenizer_encode c c' batch (calls r1)) as [Hkeys _].
  rewrite Hcalls in Hkeys at 2.
  set (rows1 := (process_batch tokenizer_encode c batch (calls r1)).1) in *.
  set (rows2 := (process_batch tokenizer_encode c' batch (calls r2)).1) in *.
  pose proof (main_steps_extend c pages js
                (main_step tokenizer_encode c pages r1 i)) as Hext.
  assert (Hsame : upsert_chunks (pages_chunks r2) rows2
                  = ({| success := 0; error := length rows2 |}, pages_chunks r2)).
  { unfold upsert_chunks. destruct rows2 as [|row2 rows2'] eqn:Hrows2; [done|].
    simpl negb. cbv iota.
    rewrite (upsert_on_id_rejected rows1 (row2 :: rows2') (pages_chunks r1));
      [done | done | done | by do 2 (etrans; [eassumption|]) | ].
    rewrite <- Ht1. by etrans. }
  rewrite Hsame in Ht2, Hs2. simpl in Ht2, Hs2.
  destruct (IH (main_step tokenizer_encode c pages r1 i)
              (main_step tokenizer_encode c' pages r2 i)) as [IHt IHs].
  - lia.
  - by rewrite Ht2.
  - cbv zeta. rewrite IHt, IHs, Ht2, Hs2. split; [done | lia].
Qed.

Lemma generate_main_counts (c : client) pages t :
  let m := main tokenizer_encode c pages t in
  let n := sum_list_with (λ pg, chunks_in pg) pages in
  calls m = n ∧ total_chunks_success m + total_chunks_error m = n.
Proof.
  destruct (main_steps_account c pages (length pages - 0) 0
              {| calls := 0; pages_chunks := t;
                 total_chunks_success := 0; total_chunks_error := 0 |})
    as (Hc & Hs & _); [unfold BATCH_SIZE; lia | lia |].
  simpl. unfold main, range. by rewrite Hc, Hs.
Qed.

End generate_more.

(** ** The upsert called again *)
Section upsert_claims.
Import Py Spec Store.

(** C2 fails in [generate_embeddings.py]. Its [upsert_chunks], whose comment
    reads "insert if not exists, update if exists", names no conflict
    target: rows under fresh keys go in and are counted as successes, and
    the same call made again, with the same rows or with new content under
    the same keys, is rejected as a whole: every row is counted as an
    error and the table keeps what the first call stored. The
    [upsert_chunks] of [embed_to_supabase.py], keyed on [(url, chunk_idx)],
    returns the same counts and the same table when it is called again. *)
Theorem repeated_upsert_is_rejected (t : table) (rows rows' : list chunk_row) :
  rows ≠ [] → NoDup (row_key <$> rows) →
  Forall (λ r, t !! row_key r = None) rows →
  row_key <$> rows' = row_key <$> rows →
  let t1 := foldl put t rows in
  generate_embeddings.upsert_chunks t rows
  = ({| generate_embeddings.success := length rows;
        generate_embeddings.error := 0 |}, t1)
  ∧ generate_embeddings.upsert_chunks t1 rows'
    = ({| generate_embeddings.success := 0;
          generate_embeddings.error := length rows |}, t1)
  ∧ embed_to_supabase.upsert_chunks t rows
    = ({| embed_to_supabase.success := length rows;
          embed_to_supabase.error := 0 |}, t1)
  ∧ embed_to_supabase.upsert_chunks t1 rows
    = ({| embed_to_supabase.success := length rows;
          embed_to_supabase.error := 0 |}, t1).
Proof.
  intros Hne Hnd Hfresh Hkeys t1.
  assert (Hfirst : generate_embeddings.upsert_chunks t rows
                   = ({| generate_embeddings.success := length rows;
                         generate_embeddings.error := 0 |}, t1)).
  { unfold generate_embeddings.upsert_chunks, upsert_on_id.
    destruct rows as [|r rows]; [done|]. simpl negb. cbv iota.
    by rewrite bool_decide_true. }
  assert (Hlen : length rows' = length rows).
  { apply (f_equal length) in Hkeys. by rewrite !length_fmap in Hkeys. }
  assert (Hne' : rows' ≠ []) by (destruct rows', rows; done).
  split; [exact Hfirst|]. split; [|split].
  - unfold generate_embeddings.upsert_chunks.
    destruct rows' as [|r' rest]; [done|]. simpl negb. cbv iota.
    rewrite (upsert_on_id_rejected rows (r' :: rest) t t1);
      [by rewrite Hlen | done | done | |].
    + apply map_subseteq_spec. intros k v Hk. unfold t1.
      rewrite foldl_put_other; [done|].
      intros (r & -> & Hin)%list_elem_of_fmap.
      rewrite Forall_forall in Hfresh. specialize (Hfresh r Hin). congruence.
    + by rewrite Hfirst.
  - by apply upsert_chunks_distinct.
  - rewrite upsert_chunks_distinct by done. unfold t1.
    by rewrite foldl_put_twice.
Qed.

Lemma repeated_upsert_is_rejected_witness :
  let row := {| url := "u"; chunk_idx := 0; content := "a b";
                tokens := None; embedding := [0%float] |} in
  generate_embeddings.upsert_chunks ∅ [row]
  = ({| generate_embeddings.success := 1; generate_embeddings.error := 0 |},
     {[ ("u", 0) := row ]})
  ∧ generate_embeddings.upsert_chunks {[ ("u", 0) := row ]} [row]
    = ({| generate_embeddings.success := 0; generate_embeddings.error := 1 |},
       {[ ("u", 0) := row ]}).
Proof.
  intros row.
  destruct (repeated_upsert_is_rejected ∅ [row] [row])
    as (Hfirst & Hsecond & _); [done | | | done |].
  - apply NoDup_singleton.
  - by repeat constructor.
  - split; [exact Hfirst | exact Hsecond].
Defined.

End upsert_claims.

(** ** The driver of [generate_embeddings.py], for any client and table *)
Section generate_theorems.
Import Py Spec Store generate_embeddings.

(** X15. Whatever the client and the table do, a run makes one call to
    the client per chunk, and counts every chunk of every page exactly
    once, as upserted or as failed. *)
Theorem generate_main_counts_every_chunk
    (tokenizer_encode : string → list nat) (c : client)
    (pages : list page) (t : table) :
  let m := main tokenizer_encode c pages t in
  let n := sum_list_with
             (λ pg, length (chunks_of_page tokenizer_encode pg)) pages in
  calls m = n ∧ total_chunks_success m + total_chunks_error m = n.
Proof. apply generate_main_counts. Qed.

(** X16. A run never changes or removes a row that is already in the
    table: without a conflict target on [(url, chunk_idx)], the upsert
    adds rows under fresh keys or is rejected as a whole. *)
Theorem generate_main_never_overwrites
    (tokenizer_encode : string → list nat) (c : client)
    (pages : list page) (t : table) :
  t ⊆ pages_chunks (main tokenizer_encode c pages t).
Proof.
  destruct (main_steps_account tokenizer_encode c pages (length pages - 0) 0
              {| calls := 0; pages_chunks := t;
                 total_chunks_success := 0; total_chunks_error := 0 |})
    as (_ & _ & Hsub); [unfold BATCH_SIZE; lia | lia |].
  done.
Qed.

(** X17. A second run over the table the first one left stores nothing:
    every batch of it is rejected, whatever the two clients return, so the
    table stays as the first run left it, no chunk is counted as
    upserted and every chunk is counted as failed. *)
Theorem generate_rerun_stores_nothing
    (tokenizer_encode : string → list nat) (c c' : client)
    (pages : list page) (t : table) :
  let m1 := main tokenizer_encode c pages t in
  let m2 := main tokenizer_encode c' pages (pages_chunks m1) in
  pages_chunks m2 = pages_chunks m1
  ∧ total_chunks_success m2 = 0
  ∧ total_chunks_error m2
    = sum_list_with
        (λ pg, length (chunks_of_page tokenizer_encode pg)) pages.
Proof.
  intros m1 m2.
  destruct (generate_main_counts tokenizer_encode c' pages (pages_chunks m1))
    as [_ Hcount]. fold m2 in Hcount.
  assert (Hre : pages_chunks m2 = pages_chunks m1 ∧ total_chunks_success m2 = 0).
  { apply (rerun_steps tokenizer_encode c c' pages
             (range 0 (length pages) BATCH_SIZE)
             {| calls := 0; pages_chunks := t;
                total_chunks_success := 0; total_chunks_error := 0 |}
             {| calls := 0; pages_chunks := pages_chunks m1;
                total_chunks_success := 0; total_chunks_error := 0 |});
      [done | simpl; reflexivity]. }
  destruct Hre as [Ht Hs]. split; [done|]. split; [done|]. lia.
Qed.

End generate_theorems.

(** ** More on the documents of [crawl_hotchkiss.py] *)
Section bs4_more.
Import Py Spec bs4 crawl_hotchkiss.

Lemma Forall_flat (P : node → Prop) (cs : list node) :
  Forall P (foldr (λ c rest, subtree c ++ rest) [] cs)
  ↔ Forall (λ c, Forall P (subtree c)) cs.
Proof.
  induction cs as [|c cs IH]; simpl; [by split; constructor|].
  rewrite Forall_app, Forall_cons, IH. done.
Qed.

Lemma Forall_subtree (P : node → Prop) (n : node) :
  Forall P (subtree n) ↔ P n ∧ Forall P (descendants n).
Proof. destruct n; simpl; by rewrite Forall_cons. Qed.

Lemma descendants_children (P : node → Prop) name attrs cs :
  Forall P (descendants (Tag name attrs cs))
  ↔ Forall (λ c, P c ∧ Forall P (descendants c)) cs.
Proof.
  unfold descendants at 1. simpl. rewrite Forall_flat.
  apply Forall_iff. intros c. apply Forall_subtree.
Qed.

Lemma has_class_decompose cls n :
  has_class cls (decompose_class cls n) = has_class cls n.
Proof. by destruct n. Qed.

(** No tag of the class is left below a decomposed node. *)
Lemma decompose_class_clean cls n :
  Forall (λ m, has_class cls m = false) (descendants (decompose_class cls n)).
Proof.
  induction n as [s|name attrs cs IH] using node_children_ind; [constructor|].
  simpl. apply descendants_children.
  induction IH as [|c cs Hc _ IHcs]; simpl; [constructor|].
  destruct (has_class cls c) eqn:Hcls; [done|].
  constructor; [|done]. by rewrite has_class_decompose.
Qed.

(** A node with no tag of the class below it is left as it is. *)
Lemma decompose_class_id cls n :
  Forall (λ m, has_class cls m = false) (descendants n) →
  decompose_class cls n = n.
Proof.
  induction n as [s|name attrs cs IH] using node_children_ind; [done|].
  rewrite descendants_children. intros Hcs. simpl. f_equal.
  induction IH as [|c cs Hc _ IHcs]; [done|].
  apply Forall_cons in Hcs as [[Hcls Hdesc] Hcs]. simpl.
  rewrite Hcls, (Hc Hdesc), (IHcs Hcs). done.
Qed.

(** *** Replacing tags *)
Section replace.
Variables (q : node → bool) (new : node → node).

Lemma replace_where_id n :
  Forall (λ m, q m = false) (descendants n) → replace_where q new n = n.
Proof.
  induction n as [s|name attrs cs IH] using node_children_ind; [done|].
  rewrite descendants_children. intros Hcs. simpl. f_equal.
  induction IH as [|c cs Hc _ IHcs]; [done|].
  apply Forall_cons in Hcs as [[Hq Hdesc] Hcs]. csimpl.
  rewrite Hq, (Hc Hdesc), (IHcs Hcs). done.
Qed.

(** A filter [p] that looks at the name and the attributes of a tag only
    stays false below the document when it is false on what comes in and
    on what was there and stays. *)
Lemma replace_where_keeps (p : node → bool) n :
  (∀ name attrs cs cs', p (Tag name attrs cs) = p (Tag name attrs cs')) →
  (∀ c, q c = true → Forall (λ m, p m = false) (subtree (new c))) →
  Forall (λ m, q m = false → p m = false) (descendants n) →
  Forall (λ m, p m = false) (descendants (replace_where q new n)).
Proof.
  intros Hshallow Hnew.
  induction n as [s|name attrs cs IH] using node_children_ind; [constructor|].
  rewrite descendants_children. intros Hcs. simpl.
  apply descendants_children.
  induction IH as [|c cs Hc _ IHcs]; [constructor|].
  apply Forall_cons in Hcs as [[Hp Hdesc] Hcs]. csimpl.
  constructor; [|by apply IHcs].
  destruct (q c) eqn:Hq.
  - apply (proj1 (Forall_subtree (λ m, p m = false) (new c))). by apply Hnew.
  - split; [|by apply Hc].
    destruct c as [s|nm a cs']; [by apply Hp|].
    simpl. rewrite <- (Hshallow nm a cs'). by apply Hp.
Qed.
End replace.

(** *** The image pass *)

Lemma startswith_slash_site src :
  startswith "/" ("https://hotchkiss.org" +:+ src) = false.
Proof. done. Qed.

Lemma root_relative_img_fixed n :
  root_relative_img (fix_image_path n) = false.
Proof.
  destruct n as [s|name attrs cs]; [done|].
  cbn [fix_image_path]. unfold root_relative_img, named, get. cbv beta iota.
  destruct (bool_decide (name = "img")); cbn [andb]; [|done].
  destruct (startswith "/" (default EmptyString (attrs !! "src"))) eqn:Hs.
  - rewrite lookup_insert_eq. apply startswith_slash_site.
  - exact Hs.
Qed.

Lemma fix_image_path_clean n :
  Forall (λ m, root_relative_img m = false) (subtree (fix_image_path n)).
Proof.
  induction n as [s|name attrs cs IH] using node_children_ind.
  - by repeat constructor.
  - apply (proj2 (Forall_subtree (λ m, root_relative_img m = false) _)).
    split; [apply root_relative_img_fixed|].
    simpl. apply descendants_children.
    induction IH as [|c cs Hc _ IHcs]; [constructor|]. csimpl.
    constructor; [|done].
    by apply (proj1 (Forall_subtree (λ m, root_relative_img m = false) _)).
Qed.

Lemma fix_image_paths_clean soup :
  Forall (λ m, root_relative_img m = false) (descendants (fix_image_paths soup)).
Proof.
  destruct soup as [s|name attrs cs]; [constructor|].
  simpl. apply descendants_children.
  induction cs as [|c cs IH]; [constructor|]. csimpl.
  constructor; [|done].
  apply (proj1 (Forall_subtree (λ m, root_relative_img m = false) _)).
  apply fix_image_path_clean.
Qed.

Lemma fix_image_path_id n :
  Forall (λ m, root_relative_img m = false) (subtree n) →
  fix_image_path n = n.
Proof.
  induction n as [s|name attrs cs IH] using node_children_ind; [done|].
  rewrite Forall_subtree, descendants_children. intros [Hn Hcs].
  cbn [fix_image_path]. change (default EmptyString (attrs !! "src"))
    with (get "src" (Tag name attrs cs)).
  fold (root_relative_img (Tag name attrs cs)). rewrite Hn. f_equal.
  induction IH as [|c cs Hc _ IHcs]; [done|].
  apply Forall_cons in Hcs as [Hc' Hcs]. csimpl.
  rewrite Hc by by apply (proj2 (Forall_subtree (λ m, root_relative_img m = false) c)).
  by rewrite IHcs.
Qed.

Lemma fix_image_paths_id soup :
  Forall (λ m, root_relative_img m = false) (descendants soup) →
  fix_image_paths soup = soup.
Proof.
  destruct soup as [s|name attrs cs]; [done|].
  rewrite descendants_children. intros Hcs. simpl. f_equal.
  induction Hcs as [|c cs Hc _ IH]; [done|]. csimpl.
  rewrite fix_image_path_id
    by by apply (proj2 (Forall_subtree (λ m, root_relative_img m = false) c)).
  by rewrite IH.
Qed.

Lemma root_relative_img_shallow name attrs cs cs' :
  root_relative_img (Tag name attrs cs) = root_relative_img (Tag name attrs cs').
Proof. done. Qed.

Lemma is_blob_video_shallow name attrs cs cs' :
  is_blob_video (Tag name attrs cs) = is_blob_video (Tag name attrs cs').
Proof. done. Qed.

Lemma is_video_iframe_shallow name attrs cs cs' :
  is_video_iframe (Tag name attrs cs) = is_video_iframe (Tag name attrs cs').
Proof. done. Qed.

(** What the three passes leave behind. *)
Lemma rewrite_media_clean soup :
  Forall (λ m, root_relative_img m = false ∧ is_blob_video m = false
               ∧ is_video_iframe m = false)
         (descendants (rewrite_media soup)).
Proof.
  unfold rewrite_media.
  set (s1 := fix_image_paths soup).
  set (s2 := replace_where is_blob_video (λ _, video_placeholder) s1).
  assert (H1 : Forall (λ m, root_relative_img m = false) (descendants s1))
    by apply fix_image_paths_clean.
  assert (H2 : Forall (λ m, root_relative_img m = false) (descendants s2)).
  { apply replace_where_keeps; [apply root_relative_img_shallow | |].
    - intros _ _. by repeat constructor.
    - eapply Forall_impl; [exact H1|]. auto. }
  assert (H2' : Forall (λ m, is_blob_video m = false) (descendants s2)).
  { apply replace_where_keeps; [apply is_blob_video_shallow | |].
    - intros _ _. by repeat constructor.
    - apply Forall_forall. auto. }
  rewrite !Forall_and. split; [|split].
  - apply replace_where_keeps; [apply root_relative_img_shallow | |].
    + intros c _. by repeat constructor.
    + eapply Forall_impl; [exact H2|]. auto.
  - apply replace_where_keeps; [apply is_blob_video_shallow | |].
    + intros c _. by repeat constructor.
    + eapply Forall_impl; [exact H2'|]. auto.
  - apply replace_where_keeps; [apply is_video_iframe_shallow | |].
    + intros c _. by repeat constructor.
    + apply Forall_forall. auto.
Qed.

End bs4_more.

(** ** The documents of [crawl_hotchkiss.py] *)
Section bs4_theorems.
Import Py Spec bs4 crawl_hotchkiss.

(** X18. After the navigation has been decomposed, no tag of the class is
    left anywhere below the document. *)
Theorem decompose_class_leaves_no_tag_of_class (cls : string) (soup : node) :
  Forall (λ m, has_class cls m = false) (descendants (decompose_class cls soup)).
Proof. apply decompose_class_clean. Qed.

(** X19. Decomposing a class changes a document exactly when a tag of
    that class is somewhere below it. *)
Theorem decompose_class_changes_only_tagged (cls : string) (soup : node) :
  decompose_class cls soup = soup
  ↔ Forall (λ m, has_class cls m = false) (descendants soup).
Proof.
  split; [|apply decompose_class_id].
  intros <-. apply decompose_class_clean.
Qed.

(** X20. After the three media passes no [img] below the document has a
    [src] that starts with a slash, no [video] has a [blob:] source and no
    [iframe] points to vimeo.com or youtube.com. *)
Theorem rewrite_media_leaves_no_raw_media (soup : node) :
  Forall (λ m, root_relative_img m = false ∧ is_blob_video m = false
               ∧ is_video_iframe m = false)
         (descendants (rewrite_media soup)).
Proof. apply rewrite_media_clean. Qed.

(** X21. The media passes are idempotent: a document they have rewritten
    is left as it is by a second round. *)
Theorem rewrite_media_is_idempotent (soup : node) :
  rewrite_media (rewrite_media soup) = rewrite_media soup.
Proof.
  pose proof (rewrite_media_clean soup) as Hclean.
  rewrite !Forall_and in Hclean. destruct Hclean as (Himg & Hvid & Hifr).
  set (s := rewrite_media soup) in *. unfold rewrite_media.
  rewrite (fix_image_paths_id s Himg).
  rewrite (replace_where_id _ _ s Hvid).
  by rewrite (replace_where_id _ _ s Hifr).
Qed.

End bs4_theorems.

(** ** The crawl and the URL file *)
Section crawl_more.
Import Py Spec bs4 crawl_hotchkiss.

Lemma strip_idemp s : strip (strip s) = strip s.
Proof. unfold strip at 1. by rewrite strip_lstrip, strip_rstrip. Qed.

(** A line without a boundary is read up to its end. *)
Lemma splitlines_scan_line (u line rest : string) :
  one_line u = true →
  splitlines_scan line (u +:+ rest) = splitlines_scan (line +:+ u) rest.
Proof.
  revert line. induction u as [|c u IH]; intros line Hu.
  - by rewrite string_app_nil_r.
  - simpl in Hu. apply andb_prop in Hu as [Hc Hu].
    apply negb_true_iff in Hc.
    change (String c u +:+ rest) with (String c (u +:+ rest)).
    cbn [splitlines_scan]. rewrite Hc, IH by done.
    by rewrite string_app_assoc.
Qed.

Lemma splitlines_scan_newline (line s : string) :
  s ≠ EmptyString →
  splitlines_scan line (String "010" s) = line :: splitlines_scan EmptyString s.
Proof. by destruct s. Qed.

Lemma join_nonempty sep u us :
  u ≠ EmptyString → join sep (u :: us) ≠ EmptyString.
Proof. destruct u; [done|]. by destruct us. Qed.

Lemma splitlines_join (urls : list string) :
  Forall (λ u, u ≠ EmptyString ∧ one_line u = true) urls →
  splitlines (join Fixtures.nl urls) = urls.
Proof.
  unfold splitlines. induction 1 as [|u urls [Hne Hu] Hurls IH]; [done|].
  destruct urls as [|v urls].
  - cbn [join]. rewrite <- (string_app_nil_r u) at 1.
    rewrite splitlines_scan_line by done. simpl. by destruct u.
  - assert (Hj : join Fixtures.nl (v :: urls) ≠ EmptyString).
    { apply Forall_cons in Hurls as [[Hv _] _]. by apply join_nonempty. }
    change (join Fixtures.nl (u :: v :: urls))
      with (u +:+ Fixtures.nl +:+ join Fixtures.nl (v :: urls)).
    rewrite splitlines_scan_line by done. simpl (EmptyString +:+ u).
    destruct (join Fixtures.nl (v :: urls)) as [|c J] eqn:HJ; [done|].
    change (Fixtures.nl +:+ String c J) with (String "010" (String c J)).
    rewrite splitlines_scan_newline by done. by rewrite IH.
Qed.

(** The row of [u] after a sequence of visits: that of the last visit of
    [u] that went through. *)
Lemma crawl_visits browser BeautifulSoup str get_text md localtime
    (visits : list (nat * string)) conn (u : string) :
  foldl (crawl_one browser BeautifulSoup str get_text md localtime) conn visits
    !! u
  = from_option Some (conn !! u)
      (last (omap (λ '(i, url),
                     if decide (url = u)
                     then browser i url
                          ≫= page_of BeautifulSoup str get_text md localtime i
                     else None) visits)).
Proof.
  revert conn. induction visits as [|[i url] visits IH]; intros conn; [done|].
  cbn [foldl]. rewrite IH. csimpl. unfold crawl_one.
  destruct (decide (url = u)) as [->|Hne].
  - destruct (browser i u) as [html|]; [|done]. csimpl.
    destruct (page_of BeautifulSoup str get_text md localtime i html)
      as [row|]; [|done].
    rewrite lookup_insert_eq, last_cons.
    by destruct (last _).
  - destruct (browser i url) as [html|]; [|done].
    destruct (page_of BeautifulSoup str get_text md localtime i html);
      [by rewrite lookup_insert_ne | done].
Qed.

(** The stored date: the month, the day and the year side by side, read
    as one number. *)
Lemma page_of_crawled_at BeautifulSoup str get_text md localtime i html row :
  page_of BeautifulSoup str get_text md localtime i html = Some row →
  crawled_at row = integer_affinity (strftime_mdY (localtime i)).
Proof.
  unfold page_of. destruct (BeautifulSoup html); [|done].
  destruct (main_html BeautifulSoup str html) as [content|]; [|done].
  destruct (BeautifulSoup content); [|done]. by intros [= <-].
Qed.

End crawl_more.

(** ** The crawl of [crawl_hotchkiss.py] and its URL file *)
Section crawl_theorems.
Import Py Spec bs4 crawl_hotchkiss.

(** X22. After a crawl the row of a URL is the page of its last visit
    that went through, that is, whose load and whose parses did not raise;
    when the URL is not in the list, or every visit of it raised, the row
    is what it was before the crawl (none, if there was none). A visit
    that raises changes no row. The row holds the date as SQLite stores
    it in the [INTEGER] column: the number that the digits of [%m%d%Y]
    denote. *)
Theorem crawl_all_keeps_last_fetched_page
    (browser : nat → string → option string)
    (BeautifulSoup : string → option node)
    (str get_text : node → string) (md : string → string)
    (localtime : nat → struct_time)
    (url_list : list string) (conn : gmap string page_row) (u : string) :
  crawl_all browser BeautifulSoup str get_text md localtime url_list conn !! u
  = from_option Some (conn !! u)
      (last (omap (λ '(i, url),
                     if decide (url = u)
                     then browser i url
                          ≫= page_of BeautifulSoup str get_text md localtime i
                     else None) (imap pair url_list)))
  ∧ ∀ i html row,
      page_of BeautifulSoup str get_text md localtime i html = Some row →
      crawled_at row = integer_affinity (strftime_mdY (localtime i)).
Proof.
  split; [apply crawl_visits|].
  intros i html row. apply page_of_crawled_at.
Qed.

(** X23. The URLs read from the file are never empty and carry no
    whitespace at either end. *)
Theorem read_urls_are_stripped (file : string) :
  Forall (λ u, u ≠ EmptyString ∧ strip u = u) (read_urls file).
Proof.
  apply Forall_forall. intros u Hu. unfold read_urls in Hu.
  apply list_elem_of_In, filter_In in Hu as [Hu Htruthy].
  apply list_elem_of_In, list_elem_of_fmap in Hu as (line & -> & _).
  split; [by destruct (strip line) | apply strip_idemp].
Qed.

(** X24. The file [harvest_urls.py] writes, the URLs joined by newlines,
    is read back by [read_urls] as the same list, when every URL is
    non-empty, has no line boundary in it and no whitespace at its ends. *)
Theorem read_urls_reads_back_harvest (urls : list string) :
  Forall (λ u, u ≠ EmptyString ∧ one_line u = true ∧ strip u = u) urls →
  read_urls (join Fixtures.nl urls) = urls.
Proof.
  intros Hurls. unfold read_urls. rewrite splitlines_join.
  - induction Hurls as [|u urls (Hne & _ & Hstrip) _ IH]; [done|].
    csimpl. rewrite Hstrip. destruct u; [done|]. simpl. by rewrite IH.
  - eapply Forall_impl; [exact Hurls|]. by intros u (? & ? & _).
Qed.

Lemma read_urls_reads_back_harvest_witness :
  read_urls (join Fixtures.nl ["https://www.hotchkiss.org/a"; "https://www.hotchkiss.org/b"])
  = ["https://www.hotchkiss.org/a"; "https://www.hotchkiss.org/b"].
Proof.
  refine (read_urls_reads_back_harvest
            ["https://www.hotchkiss.org/a"; "https://www.hotchkiss.org/b"] _).
  repeat constructor; done.
Defined.

End crawl_theorems.

(** ** The upload loop of [migrate_to_supabase.py] *)
Section upload_more.
Import Py Spec migrate_to_supabase.
Context {record : Type} (store : nat → list record → outcome).

Lemma upload_batch_account B (data : list record) st i :
  let st' := upload_batch store B data st i in
  success_count st' + error_count st'
  = success_count st + error_count st + length (slice data i (i + B))
  ∧ success_count st ≤ success_count st'
  ∧ sent st' = sent st ++ [slice data i (i + B)].
Proof.
  unfold upload_batch.
  destruct (store (length (sent st)) (slice data i (i + B))); simpl;
    repeat split; lia.
Qed.

Lemma upload_steps B (data : list record) fuel start st :
  0 < B → length data - start ≤ fuel →
  let js := range_scan fuel start (length data) B in
  let st' := foldl (upload_batch store B data) st js in
  success_count st' + error_count st'
  = success_count st + error_count st + (length data - start)
  ∧ sent st' = sent st ++ ((λ j, slice data j (j + B)) <$> js).
Proof.
  intros HB. revert start st.
  induction fuel as [|fuel IH]; intros start st Hfuel; simpl.
  - split; [lia | by rewrite app_nil_r].
  - destruct (start <? length data) eqn:Hlt.
    + apply Nat.ltb_lt in Hlt. cbn [foldl]. csimpl.
      destruct (upload_batch_account B data st start) as (Hs & _ & Hsent).
      destruct (IH (start + B) (upload_batch store B data st start))
        as [Hs' Hsent']; [lia|].
      rewrite Hs', Hsent', Hs, Hsent, length_slice, <- app_assoc.
      split; [lia | done].
    + apply Nat.ltb_ge in Hlt. simpl. split; [lia | by rewrite app_nil_r].
Qed.

Lemma slices_bounded {A} (l : list A) fuel start B :
  0 < B →
  Forall (λ b, 0 < length b ≤ B)
         ((λ j, slice l j (j + B)) <$> range_scan fuel start (length l) B).
Proof.
  intros HB. apply Forall_fmap.
  eapply Forall_impl; [apply range_scan_bound|].
  intros j Hj. simpl in *. rewrite length_slice. lia.
Qed.

End upload_more.

(** ** [migrate_to_supabase.py] and [test_vector_search.py] *)
Section upload_theorems.
Import Py Spec.

(** X25. Whatever the store answers, the upload sends every record
    exactly once, in batches of 1 to 100 records that put together give
    the data back, [⌈n / 100⌉] of them; and every record is counted once,
    as uploaded or as failed. *)
Theorem upload_accounts_for_every_record {record : Type}
    (store : nat → list record → migrate_to_supabase.outcome)
    (data : list record) :
  let r := migrate_to_supabase.upload_to_supabase store data in
  let st := migrate_to_supabase.upload_loop store
              migrate_to_supabase.BATCH_SIZE data in
  migrate_to_supabase.total r = length data
  ∧ migrate_to_supabase.success r + migrate_to_supabase.error r = length data
  ∧ concat (migrate_to_supabase.sent st) = data
  ∧ Forall (λ b, 0 < length b ≤ 100) (migrate_to_supabase.sent st)
  ∧ length (migrate_to_supabase.sent st) = ceil_div (length data) 100.
Proof.
  intros r st. subst r st.
  unfold migrate_to_supabase.upload_to_supabase,
    migrate_to_supabase.upload_loop, range.
  destruct (upload_steps store migrate_to_supabase.BATCH_SIZE data
              (length data - 0) 0
              {| migrate_to_supabase.success_count := 0;
                 migrate_to_supabase.error_count := 0;
                 migrate_to_supabase.sent := [] |})
    as [Hs Hsent]; [unfold migrate_to_supabase.BATCH_SIZE; lia | lia |].
  cbv zeta in Hs, Hsent. simpl in Hs, Hsent |- *. rewrite Hsent.
  split; [done|]. split; [lia|]. split; [|split].
  - rewrite concat_slices; [done | unfold migrate_to_supabase.BATCH_SIZE; lia | lia].
  - apply (slices_bounded data _ 0 migrate_to_supabase.BATCH_SIZE).
    unfold migrate_to_supabase.BATCH_SIZE; lia.
  - rewrite length_fmap, range_scan_length;
      [| unfold migrate_to_supabase.BATCH_SIZE; lia | lia].
    by rewrite Nat.sub_0_r.
Qed.

(** X26. A search calls [match_chunks] at most once, and only with the
    first vector of a 200 response, when that vector is not empty, and
    with the requested [k]; it returns no row unless that call returned
    rows. *)
Theorem search_calls_match_chunks_at_most_once {row : Type}
    (post : string → test_vector_search.response)
    (rpc : vec → nat → test_vector_search.rpc_result row)
    (query : string) (top_k : nat) :
  let '(rows, calls) :=
    test_vector_search.search_similar_chunks post rpc query top_k in
  length calls ≤ 1
  ∧ (∀ q k, (q, k) ∈ calls →
       q ≠ [] ∧ k = top_k
       ∧ ∃ body, post query = test_vector_search.Response 200 (q :: body))
  ∧ (rows ≠ [] →
     ∃ q, calls = [(q, top_k)] ∧ rpc q top_k = test_vector_search.Rows rows).
Proof.
  unfold test_vector_search.search_similar_chunks.
  destruct (test_vector_search.create_embedding (post query))
    as [[|x q]|] eqn:Hemb.
  - simpl. split; [lia|]. split; [by intros ?? ?%elem_of_nil | done].
  - split; [simpl; lia|]. split.
    + intros q' k Hin. apply list_elem_of_singleton in Hin.
      injection Hin as -> ->. split; [done|]. split; [done|].
      unfold test_vector_search.create_embedding in Hemb.
      destruct (post query) as [code body|]; [|done].
      destruct (code =? 200)%Z eqn:Hcode; [|done].
      apply Z.eqb_eq in Hcode as ->.
      destruct body as [|e body]; [done|]. injection Hemb as ->.
      by exists body.
    + intros Hrows. exists (x :: q). split; [done|].
      by destruct (rpc (x :: q) top_k).
  - simpl. split; [lia|]. split; [by intros ?? ?%elem_of_nil | done].
Qed.

End upload_theorems.

(** ** The windows of [embed_to_supabase.split_text] *)
Section window_props.
Import Py Spec embed_to_supabase.

Lemma omap_total {A B} (f : A → option B) (g : A → B) (l : list A) :
  Forall (λ x, f x = Some (g x)) l → omap f l = g <$> l.
Proof.
  induction 1 as [|x l Hx _ IH]; [done|]. csimpl. by rewrite Hx, IH.
Qed.

(** Every window is the decoding of at most [chunk_size] tokens. *)
Lemma split_text_on_tokens_windows fuel sp ids start :
  Forall (λ c, ∃ w, c = langchain.tk_decode (langchain._tokenizer sp) w
                    ∧ length w ≤ langchain.chunk_size sp)
         (langchain.split_text_on_tokens fuel sp ids start).
Proof.
  revert start. induction fuel as [|fuel IH]; intros start; simpl; [done|].
  destruct (start <? length ids); [|done].
  constructor.
  - eexists. split; [done|]. rewrite length_slice. lia.
  - destruct (_ =? _); [done | apply IH].
Qed.

End window_props.

(** ** The chunker of [embed_to_supabase.py] *)
Section window_theorems.
Import Py Spec embed_to_supabase.

(** X27. When decoding a window of at most 400 tokens and encoding it
    again gives at most 450 tokens, [split_text] drops no window: the
    texts of its chunks are the windows of the splitter, in order. *)
Theorem split_text_drops_no_window (cl100k_base : langchain.tokenizer)
    (text : string) :
  (∀ w, length w ≤ 400 →
        length (langchain.tk_encode cl100k_base
                  (langchain.tk_decode cl100k_base w)) ≤ 450) →
  embed_to_supabase.text <$> split_text cl100k_base text
  = if truthy_str text
    then langchain.split_text
           {| langchain._tokenizer := cl100k_base;
              langchain.chunk_size := 400;
              langchain.chunk_overlap := 50 |} text
    else [].
Proof.
  intros Hreencode. unfold split_text.
  destruct (truthy_str text); [|done]. simpl negb. cbv iota.
  set (sp := {| langchain._tokenizer := cl100k_base;
                langchain.chunk_size := 400;
                langchain.chunk_overlap := 50 |}).
  rewrite (omap_total _
             (λ chunk, {| embed_to_supabase.text := chunk;
                          token_count :=
                            length (langchain.tk_encode cl100k_base chunk) |})).
  - rewrite <- list_fmap_compose. apply list_fmap_id.
  - unfold langchain.split_text.
    eapply Forall_impl; [apply split_text_on_tokens_windows|].
    intros c (w & -> & Hw). simpl in *.
    by rewrite (proj2 (Nat.leb_le _ _) (Hreencode w Hw)).
Qed.

Lemma split_text_drops_no_window_witness :
  embed_to_supabase.text <$> split_text Fixtures.char_tokenizer "ab" = ["ab"].
Proof.
  refine (split_text_drops_no_window Fixtures.char_tokenizer "ab" _).
  intros w Hw. simpl.
  rewrite length_fmap, <- (length_fmap ascii_of_nat w) in *.
  rewrite Stdlib.Strings.String.list_ascii_of_string_of_list_ascii.
  rewrite length_fmap in *. lia.
Defined.

End window_theorems.

(** ** The driver of [embed_to_supabase.py] when the service misbehaves *)
Section outage_props.
Import Py Spec Store embed_to_supabase.
Context (svc : service).
Hypothesis Hdown : ∀ k texts body, svc k texts ≠ Response 200 body.

Lemma embed_batch_down B url chunks tcs r n j :
  let st' := embed_batch svc B url chunks tcs (r, n) j in
  pages_chunks st'.1 = pages_chunks r ∧ st'.2 = n.
Proof.
  destruct (embed_batch_cases svc B url chunks tcs r n j)
    as (_ & _ & _ & [(Ht & Hn & _)|(body & Hres & Hne & _)]); [done|].
  exfalso.
  pose proof (create_embedding_outcome_cases svc
                (slice chunks j (j + B)) 3 (net r)) as Hfirst.
  rewrite Hres in Hfirst.
  destruct Hfirst as [(_ & -> & _)|(k & _ & _ & H200 & _)]; [done|].
  by eapply Hdown.
Qed.

Lemma embed_batches_down B url chunks tcs js st :
  let st' := foldl (embed_batch svc B url chunks tcs) st js in
  pages_chunks st'.1 = pages_chunks st.1 ∧ st'.2 = st.2.
Proof.
  revert st. induction js as [|j js IH]; intros [r n]; [done|].
  cbn [foldl]. destruct (embed_batch_down B url chunks tcs r n j) as [Ht Hn].
  destruct (IH (embed_batch svc B url chunks tcs (r, n) j)) as [Ht' Hn'].
  cbv zeta. rewrite Ht', Hn'. done.
Qed.

Lemma process_page_down tk r pg :
  pages_chunks (process_page svc tk r pg) = pages_chunks r
  ∧ total_chunks_embedded (process_page svc tk r pg) = total_chunks_embedded r.
Proof.
  unfold process_page.
  destruct (page_url pg) as [url|], (markdown pg) as [md|]; try done.
  destruct (negb (truthy_str url) || negb (truthy_str md)); [done|].
  destruct (negb (truthy_list (split_text tk md))); [done|].
  unfold embed_chunks.
  destruct (embed_batches_down BATCH_SIZE url (text <$> split_text tk md)
              (token_count <$> split_text tk md)
              (range 0 (length (text <$> split_text tk md)) BATCH_SIZE) (r, 0))
    as [Ht Hn].
  destruct (embed_batches_account svc BATCH_SIZE url (text <$> split_text tk md)
              (token_count <$> split_text tk md)
              (range 0 (length (text <$> split_text tk md)) BATCH_SIZE) (r, 0))
    as (_ & _ & Hc & _).
  destruct (foldl _ _ _) as [r' n]. simpl in *. split; [done | lia].
Qed.

Lemma pages_down tk pages r :
  pages_chunks (foldl (process_page svc tk) r pages) = pages_chunks r
  ∧ total_chunks_embedded (foldl (process_page svc tk) r pages)
    = total_chunks_embedded r.
Proof.
  revert r. induction pages as [|pg pages IH]; intros r; [done|].
  cbn [foldl]. destruct (process_page_down tk r pg) as [Ht Hc].
  destruct (IH (process_page svc tk r pg)) as [Ht' Hc'].
  by rewrite Ht', Hc'.
Qed.

End outage_props.

Section outage_theorems.
Import Py Spec Store embed_to_supabase.

(** X28. A run during which the service never answers with a 200 stores
    nothing: the table is left as the clearing at the start of [main]
    left it, empty when the delete went through and as it was when the
    delete raised; no chunk is counted as embedded and every chunk of
    every page is counted as failed. *)
Theorem main_with_service_down_empties_table (svc : service)
    (cl100k_base : langchain.tokenizer) (delete : delete_result)
    (pages : list page) (t : table) :
  (∀ k texts body, svc k texts ≠ Response 200 body) →
  let m := main svc cl100k_base delete pages t in
  pages_chunks m = match delete with Deleted => ∅ | DeleteRaised => t end
  ∧ total_chunks_embedded m = 0
  ∧ total_errors m
    = sum_list_with (λ pg, length (page_chunks cl100k_base pg)) pages.
Proof.
  intros Hdown m. subst m. rewrite main_as_fold.
  set (r0 := {| net := {| posts := []; slept := [] |};
                pages_chunks := (clear_pages_chunks_table delete t).2;
                total_pages_processed := 0; total_chunks_embedded := 0;
                total_tokens := 0; total_errors := 0 |}).
  destruct (pages_down svc Hdown cl100k_base pages r0) as [Ht Hc].
  destruct (pages_account svc cl100k_base pages r0) as (_ & _ & _ & _ & _ & Heq).
  assert (Hwf : well_formed svc).
  { intros k texts body H200. by destruct (Hdown k texts body). }
  specialize (Heq Hwf). rewrite Ht, Hc in *. simpl in *.
  split; [by destruct delete|]. split; [done | lia].
Qed.

Lemma main_with_service_down_empties_table_witness :
  let pages := [{| page_url := Some "u"; markdown := Some "ab" |}] in
  let down : service := λ _ _, RequestException in
  pages_chunks (main down Fixtures.char_tokenizer Deleted pages
                  (pages_chunks Fixtures.stale_run)) = ∅
  ∧ pages_chunks (main down Fixtures.char_tokenizer DeleteRaised pages
                    (pages_chunks Fixtures.stale_run))
    = pages_chunks Fixtures.stale_run.
Proof.
  intros pages down. split.
  - refine (proj1 (main_with_service_down_empties_table down
                     Fixtures.char_tokenizer Deleted pages _ _)).
    discriminate.
  - refine (proj1 (main_with_service_down_empties_table down
                     Fixtures.char_tokenizer DeleteRaised pages _ _)).
    discriminate.
Defined.

(** X29. A 200 that carries fewer vectors than the batch has texts is
    taken as it is: the rows of the first chunks are stored and counted,
    and the chunks beyond are counted neither as embedded nor as failed. *)
Theorem short_response_drops_chunks_silently (svc : service) (B : nat)
    (url : string) (chunks : list string) (token_counts : list nat)
    (r : run) (n j : nat) (body : list vec) :
  let chunk_batch := slice chunks j (j + B) in
  chunk_batch ≠ [] → body ≠ [] → length token_counts = length chunks →
  svc (length (posts (net r))) chunk_batch = Response 200 body →
  let st' := embed_batch svc B url chunks token_counts (r, n) j in
  st'.2 = n + length chunk_batch `min` length body
  ∧ total_errors st'.1 = total_errors r
  ∧ ∀ k, length body ≤ k →
         pages_chunks st'.1 !! (url, j + k) = pages_chunks r !! (url, j + k).
Proof.
  intros cb Hcb Hbody Hlen H200. unfold embed_batch. fold cb.
  set (tb := slice token_counts j (j + B)).
  assert (Hce : create_embedding svc cb 3 (net r) = (Some body, post cb (net r))).
  { unfold create_embedding. destruct cb; [done|]. simpl negb. cbv iota.
    by apply attempts_success. }
  rewrite Hce. destruct body as [|e body]; [done|]. simpl negb. cbv iota.
  simpl default.
  rewrite upsert_chunks_distinct by apply chunks_data_of_keys. simpl.
  assert (Htb : length tb = length cb)
    by (unfold tb, cb; rewrite !length_slice; lia).
  split; [|split; [lia|]].
  - unfold chunks_data_of. rewrite length_imap, !length_zip_with. simpl. lia.
  - intros k Hk. apply foldl_put_other.
    intros (row & Hkey & Hin)%list_elem_of_fmap.
    apply list_elem_of_lookup_1 in Hin as (i & Hi).
    unfold chunks_data_of in Hi. rewrite list_lookup_imap in Hi.
    destruct (zip cb (zip tb (e :: body)) !! i) as [[c [m v]]|] eqn:Hz; [|done].
    simpl in Hi. injection Hi as <-. unfold row_key in Hkey. simpl in Hkey.
    apply lookup_lt_Some in Hz. rewrite !length_zip_with in Hz.
    injection Hkey as Hkey. simpl in *. lia.
Qed.

Lemma short_response_drops_chunks_silently_witness :
  let st' := embed_batch (λ _ _, Response 200 [[]]) 2 "u" ["a"; "b"] [1; 1]
               (Fixtures.empty_run, 0) 0 in
  st'.2 = 1 ∧ total_errors st'.1 = 0.
Proof.
  destruct (short_response_drops_chunks_silently (λ _ _, Response 200 [[]]) 2
              "u" ["a"; "b"] [1; 1] Fixtures.empty_run 0 0 [[]])
    as (Hn & He & _); [done | done | reflexivity | reflexivity |].
  split; [exact Hn | exact He].
Defined.

End outage_theorems.
